(** * WhatsApp webhook ingestion backend: storage service and webhook route

    A shallow embedding of [src/lib/database.ts] (class [DatabaseService]),
    of the schema it runs against, and of [src/routes/webhook.ts] (the POST
    handler and its helpers), followed by the properties of the ingestion
    pipeline proved over that embedding.

    Layout:
    - [Js]      : the JavaScript built-ins the code relies on (truthiness of
                  [||], [parseInt], [Date]/[toISOString], [JSON.stringify]);
    - [Wire]    : the payload interfaces of [src/types/whatsapp.ts];
    - [Schema]  : the five relations of the SQL schema and their rows;
    - [D1]      : the prepared statements the service issues, each executed
                  atomically against the store;
    - [Async]   : programs as trees of awaited statements, with exceptions,
                  [try]/[catch] and the console;
    - the service methods and the webhook route, written in that monad;
    - [Queries], [DatabaseQueries], [DataRoutes] : the [SELECT]s, the read
                  methods of the service and the [/data] routes over them
                  ([src/routes/data.ts]);
    - [Verification] : the [GET] handshake of the webhook;
    - [Auth]    : the middleware of [src/middleware/auth.ts], as
                  [src/index.ts] puts it in front of the routes;
    - the theorems.

    Conventions.  Strings are byte strings holding UTF-8.  Numbers are
    IEEE-754 doubles; the only arithmetic the code does, on timestamps, is
    exact in the range of [Date] and is carried out on [Z].  The text
    [datetime('now')] evaluates to is a clock kept with the store: it stands
    still while one call runs alone and may move between the statements of
    calls that are interleaved.  A payload record is serialised with its
    declared properties first, in declaration order. *)

From Stdlib Require Import List String Ascii ZArith Bool Lia.
From Stdlib Require Import Floats.SpecFloat.
From Stdlib Require Import Sorting.Sorted Sorting.Permutation.
Import ListNotations.

Local Open Scope string_scope.
Local Open Scope Z_scope.

Local Set Warnings "-register-all".

(* ===================================================================== *)
(** ** JavaScript built-ins *)
(* ===================================================================== *)

Module Js.

(** A JavaScript [number] is an IEEE-754 double; the code never computes
    with the numbers it stores, it only tests them with [||]. *)
Definition number : Type := spec_float.

(** [ToBoolean] on the three kinds of value the code feeds to [||]. *)
Definition truthy_number (x : number) : bool :=
  match x with
  | S754_zero _ => false
  | S754_nan => false
  | _ => true
  end.

Definition truthy_int (n : Z) : bool := negb (n =? 0).

Definition truthy_string (s : string) : bool :=
  match s with
  | EmptyString => false
  | String _ _ => true
  end.

(** [x || null] where [x] is a possibly-undefined string, number or integer:
    [undefined], [null] and falsy values all become [null]. *)
Definition or_null_string (x : option string) : option string :=
  match x with
  | Some s => if truthy_string s then Some s else None
  | None => None
  end.

Definition or_null_number (x : option number) : option number :=
  match x with
  | Some n => if truthy_number n then Some n else None
  | None => None
  end.

Definition or_null_int (x : option Z) : option Z :=
  match x with
  | Some n => if truthy_int n then Some n else None
  | None => None
  end.

(** [a || b] on possibly-null strings. *)
Definition or_else_string (a b : option string) : option string :=
  match or_null_string a with
  | Some s => Some s
  | None => b
  end.

(** *** [parseInt(s)] with no radix

    Strings are byte strings holding UTF-8.  [None] stands for [NaN]. *)

Definition code (c : ascii) : Z := Z.of_nat (nat_of_ascii c).

Definition ascii_space (c : ascii) : bool :=
  let n := code c in
  ((9 <=? n) && (n <=? 13)) || (n =? 32).

(** Leading [StrWhiteSpaceChar]s: the ASCII ones, then U+00A0, U+1680,
    U+2000..U+200A, U+2028, U+2029, U+202F, U+205F, U+3000 and U+FEFF in
    their UTF-8 encodings. *)
Fixpoint trim_start (s : string) : string :=
  match s with
  | String c r =>
      if ascii_space c then trim_start r
      else
        match r with
        | String c2 r2 =>
            if (code c =? 194) && (code c2 =? 160) then trim_start r2
            else
              match r2 with
              | String c3 r3 =>
                  let a := code c in
                  let b := code c2 in
                  let d := code c3 in
                  if ((a =? 225) && (b =? 154) && (d =? 128))
                     || ((a =? 226) && (b =? 128)
                           && (((128 <=? d) && (d <=? 138))
                               || (d =? 168) || (d =? 169) || (d =? 175)))
                     || ((a =? 226) && (b =? 129) && (d =? 159))
                     || ((a =? 227) && (b =? 128) && (d =? 128))
                     || ((a =? 239) && (b =? 187) && (d =? 191))
                  then trim_start r3
                  else s
              | EmptyString => s
              end
        | EmptyString => s
        end
  | EmptyString => s
  end.

Definition digit_value (c : ascii) : option Z :=
  let n := code c in
  if (48 <=? n) && (n <=? 57) then Some (n - 48)
  else if (97 <=? n) && (n <=? 122) then Some (n - 87)
  else if (65 <=? n) && (n <=? 90) then Some (n - 55)
  else None.

(** The longest prefix of radix-[R] digits, read as an integer; [acc] is
    [None] until a first digit has been seen. *)
Fixpoint parse_digits (R : Z) (s : string) (acc : option Z) : option Z :=
  match s with
  | EmptyString => acc
  | String c r =>
      match digit_value c with
      | Some d =>
          if d <? R
          then parse_digits R r
                 (Some (match acc with Some a => a * R + d | None => d end))
          else acc
      | None => acc
      end
  end.

Definition strip_sign (s : string) : Z * string :=
  match s with
  | String c r =>
      if code c =? 45 then (-1, r)
      else if code c =? 43 then (1, r)
      else (1, s)
  | EmptyString => (1, s)
  end.

Definition strip_hex_prefix (s : string) : Z * string :=
  match s with
  | String c (String x r) =>
      if (code c =? 48) && ((code x =? 120) || (code x =? 88))
      then (16, r) else (10, s)
  | _ => (10, s)
  end.

Definition parseInt (s : string) : option Z :=
  let (sign, s1) := strip_sign (trim_start s) in
  let (R, s2) := strip_hex_prefix s1 in
  match parse_digits R s2 None with
  | Some n => Some (sign * n)
  | None => None
  end.

(** *** [new Date(v)] and [toISOString]

    A [Date] holds a time value in milliseconds, or [NaN] ([None]) when the
    argument is not finite or lies outside +-8.64e15 ([TimeClip]).  For an
    integer of at most that magnitude the double product [n * 1000] is exact,
    and a larger one falls outside the range whatever its rounding, so the
    arithmetic is done on [Z]. *)

Definition max_time : Z := 8640000000000000.

Definition Date_of_number (v : option Z) : option Z :=
  match v with
  | Some t => if Z.abs t <=? max_time then Some t else None
  | None => None
  end.

Definition digit_char (n : Z) : ascii :=
  ascii_of_nat (Z.to_nat (48 + n mod 10)).

(** [n] written in base ten on exactly [k] digits. *)
Fixpoint pad (k : nat) (n : Z) : string :=
  match k with
  | O => EmptyString
  | S k' => pad k' (n / 10) ++ String (digit_char n) EmptyString
  end.

(** Proleptic Gregorian date of a day number counted from 1970-01-01. *)
Definition civil_from_days (day : Z) : Z * Z * Z :=
  let z := day + 719468 in
  let era := z / 146097 in
  let doe := z - era * 146097 in
  let yoe := (doe - doe / 1460 + doe / 36524 - doe / 146096) / 365 in
  let doy := doe - (365 * yoe + yoe / 4 - yoe / 100) in
  let mp := (5 * doy + 2) / 153 in
  let d := doy - (153 * mp + 2) / 5 + 1 in
  let m := if mp <? 10 then mp + 3 else mp - 9 in
  let y := yoe + era * 400 + (if m <=? 2 then 1 else 0) in
  (y, m, d).

Definition iso_year (y : Z) : string :=
  if (0 <=? y) && (y <=? 9999) then pad 4 y
  else (if y <? 0 then "-" else "+") ++ pad 6 (Z.abs y).

Definition iso_of_time (t : Z) : string :=
  let day := t / 86400000 in
  let ms := t mod 86400000 in
  let '(y, m, d) := civil_from_days day in
  iso_year y ++ "-" ++ pad 2 m ++ "-" ++ pad 2 d ++ "T"
    ++ pad 2 (ms / 3600000) ++ ":" ++ pad 2 (ms / 60000 mod 60) ++ ":"
    ++ pad 2 (ms / 1000 mod 60) ++ "." ++ pad 3 (ms mod 1000) ++ "Z".

(** [Date.prototype.toISOString]: [None] is the [RangeError] it throws on an
    invalid date. *)
Definition toISOString (d : option Z) : option string :=
  option_map iso_of_time d.

(** [new Date(parseInt(ts) * 1000).toISOString()], the conversion applied to
    every inbound timestamp. *)
Definition unix_to_iso (ts : string) : option string :=
  toISOString (Date_of_number (option_map (fun n => n * 1000) (parseInt ts))).

(** *** JSON values and [JSON.stringify]

    A parsed JSON document.  Object members keep their order, which is the
    order [JSON.stringify] writes them in. *)

Inductive json : Type :=
| JNull
| JBool (b : bool)
| JNum (n : number)
| JStr (s : string)
| JArr (items : list json)
| JObj (members : list (string * json)).

Definition dquote : ascii := ascii_of_nat 34.
Definition backslash : ascii := ascii_of_nat 92.

Definition hex_char (n : Z) : ascii :=
  ascii_of_nat (Z.to_nat (if n <? 10 then 48 + n else 87 + n)).

(** [QuoteJSONString] on one code unit: the short escapes, [\u00xx] for the
    other control characters, everything else as it is. *)
Definition escape_char (c : ascii) : string :=
  let n := code c in
  let esc (x : string) := String backslash x in
  if n =? 8 then esc "b"
  else if n =? 9 then esc "t"
  else if n =? 10 then esc "n"
  else if n =? 12 then esc "f"
  else if n =? 13 then esc "r"
  else if n =? 34 then esc (String dquote EmptyString)
  else if n =? 92 then esc (String backslash EmptyString)
  else if n <? 32
       then esc ("u00" ++ String (hex_char (n / 16))
                           (String (hex_char (n mod 16)) EmptyString))
  else String c EmptyString.

Fixpoint escape (s : string) : string :=
  match s with
  | EmptyString => EmptyString
  | String c r => escape_char c ++ escape r
  end.

Definition quote (s : string) : string :=
  String dquote (escape s ++ String dquote EmptyString).

Definition is_finite (x : number) : bool :=
  match x with
  | S754_zero _ => true
  | S754_finite _ _ _ => true
  | _ => false
  end.

Section Stringify.

(** [Number::toString], the shortest decimal text that reads back as the
    same double, is left to the engine. *)
Variable Number_toString : number -> string.

Fixpoint JSON_stringify (j : json) : string :=
  match j with
  | JNull => "null"
  | JBool b => if b then "true" else "false"
  | JNum n => if is_finite n then Number_toString n else "null"
  | JStr s => quote s
  | JArr items =>
      "[" ++
      (fix elements (l : list json) : string :=
         match l with
         | [] => EmptyString
         | x :: r =>
             JSON_stringify x ++
             match r with
             | [] => EmptyString
             | _ :: _ => "," ++ elements r
             end
         end) items ++ "]"
  | JObj members =>
      "{" ++
      (fix properties (l : list (string * json)) : string :=
         match l with
         | [] => EmptyString
         | (k, v) :: r =>
             quote k ++ ":" ++ JSON_stringify v ++
             match r with
             | [] => EmptyString
             | _ :: _ => "," ++ properties r
             end
         end) members ++ "}"
  end.

End Stringify.

End Js.

(* ===================================================================== *)
(** ** Payload interfaces ([src/types/whatsapp.ts]) *)
(* ===================================================================== *)

(** Field names carry a short prefix of their interface, since several
    interfaces share [id], [type], [name] and the like. *)

Module Wire.

Import Js.

Record TextContent := { text_body : string }.

Record MediaContent := {
  media_id : string;
  media_mime_type : string;
  media_sha256 : option string;
  media_caption : option string
}.

(** [DocumentContent extends MediaContent]. *)
Record DocumentContent := {
  doc_media : MediaContent;
  doc_filename : option string
}.

Record LocationContent := {
  loc_latitude : number;
  loc_longitude : number;
  loc_name : option string;
  loc_address : option string
}.

Inductive InteractiveType := button_reply | list_reply.

Record ButtonReply := { br_id : string; br_title : string }.

Record ListReply := {
  lr_id : string;
  lr_title : string;
  lr_description : option string
}.

Record InteractiveResponse := {
  ir_type : InteractiveType;
  ir_button_reply : option ButtonReply;
  ir_list_reply : option ListReply
}.

Record ButtonResponse := { btn_payload : string; btn_text : string }.

Record MessageContext := {
  ctx_from : string;
  ctx_id : string;
  ctx_forwarded : option bool;
  ctx_frequently_forwarded : option bool
}.

(** [type] is kept as the string the payload carries: the interface lists
    fourteen tags, and the [switch] statements have a [default] branch for
    whatever else arrives.  [contacts] and [referral] are only ever
    serialised, so they stay JSON values; [im_extra] holds the properties of
    the parsed object that the interface does not declare ([reaction],
    [order], [system], [errors], ...), which [JSON.stringify] writes out
    like any other. *)
Record IncomingMessage := {
  im_from : string;
  im_id : string;
  im_timestamp : string;
  im_type : string;
  im_text : option TextContent;
  im_image : option MediaContent;
  im_video : option MediaContent;
  im_audio : option MediaContent;
  im_document : option DocumentContent;
  im_sticker : option MediaContent;
  im_location : option LocationContent;
  im_contacts : option (list json);
  im_interactive : option InteractiveResponse;
  im_button : option ButtonResponse;
  im_context : option MessageContext;
  im_referral : option json;
  im_extra : list (string * json)
}.

Record Profile := { profile_name : string }.

Record WebhookContact := { wc_profile : Profile; wc_wa_id : string }.

Record ErrorData := { ed_details : string }.

Record WebhookError := {
  we_code : Z;
  we_title : string;
  we_message : string;
  we_error_data : option ErrorData
}.

Inductive DeliveryStatus := st_sent | st_delivered | st_read | st_failed.

Inductive OriginType :=
  business_initiated | user_initiated | referral_conversion.

Record Origin := { origin_type : OriginType }.

Record Conversation := {
  conv_id : string;
  conv_origin : Origin;
  conv_expiration_timestamp : option string
}.

Record Pricing := {
  pr_billable : bool;
  pr_pricing_model : string;
  pr_category : OriginType
}.

Record MessageStatus := {
  ms_id : string;
  ms_status : DeliveryStatus;
  ms_timestamp : string;
  ms_recipient_id : string;
  ms_conversation : option Conversation;
  ms_pricing : option Pricing;
  ms_errors : option (list WebhookError)
}.

Record Metadata := {
  md_display_phone_number : string;
  md_phone_number_id : string
}.

Record WebhookValue := {
  wv_messaging_product : string;
  wv_metadata : Metadata;
  wv_contacts : option (list WebhookContact);
  wv_messages : option (list IncomingMessage);
  wv_statuses : option (list MessageStatus);
  wv_errors : option (list WebhookError)
}.

Record WebhookChange := { wch_value : WebhookValue; wch_field : string }.

Record WebhookEntry := { we_id : string; we_changes : list WebhookChange }.

(** [object] is declared as the literal ['whatsapp_business_account'], but
    the handler tests it at run time, so it is a string here. *)
Record WebhookPayload := {
  wp_object : string;
  wp_entry : list WebhookEntry
}.

(** *** The object a record was parsed from

    Declared properties in declaration order, optional ones only when
    present, then the undeclared ones. *)

Definition field {A} (k : string) (f : A -> json) (x : A)
  : list (string * json) := [(k, f x)].

Definition opt_field {A} (k : string) (f : A -> json) (x : option A)
  : list (string * json) :=
  match x with
  | Some a => [(k, f a)]
  | None => []
  end.

Definition json_of_text (t : TextContent) : json :=
  JObj (field "body" JStr (text_body t)).

Definition media_members (m : MediaContent) : list (string * json) :=
  field "id" JStr (media_id m)
    ++ field "mime_type" JStr (media_mime_type m)
    ++ opt_field "sha256" JStr (media_sha256 m)
    ++ opt_field "caption" JStr (media_caption m).

Definition json_of_media (m : MediaContent) : json := JObj (media_members m).

Definition json_of_document (d : DocumentContent) : json :=
  JObj (media_members (doc_media d)
          ++ opt_field "filename" JStr (doc_filename d)).

Definition json_of_location (l : LocationContent) : json :=
  JObj (field "latitude" JNum (loc_latitude l)
          ++ field "longitude" JNum (loc_longitude l)
          ++ opt_field "name" JStr (loc_name l)
          ++ opt_field "address" JStr (loc_address l)).

Definition json_of_button_reply (b : ButtonReply) : json :=
  JObj (field "id" JStr (br_id b) ++ field "title" JStr (br_title b)).

Definition json_of_list_reply (l : ListReply) : json :=
  JObj (field "id" JStr (lr_id l)
          ++ field "title" JStr (lr_title l)
          ++ opt_field "description" JStr (lr_description l)).

Definition interactive_type_tag (t : InteractiveType) : string :=
  match t with
  | button_reply => "button_reply"
  | list_reply => "list_reply"
  end.

Definition json_of_interactive (i : InteractiveResponse) : json :=
  JObj (field "type" JStr (interactive_type_tag (ir_type i))
          ++ opt_field "button_reply" json_of_button_reply (ir_button_reply i)
          ++ opt_field "list_reply" json_of_list_reply (ir_list_reply i)).

Definition json_of_button (b : ButtonResponse) : json :=
  JObj (field "payload" JStr (btn_payload b)
          ++ field "text" JStr (btn_text b)).

Definition json_of_context (c : MessageContext) : json :=
  JObj (field "from" JStr (ctx_from c)
          ++ field "id" JStr (ctx_id c)
          ++ opt_field "forwarded" JBool (ctx_forwarded c)
          ++ opt_field "frequently_forwarded" JBool
               (ctx_frequently_forwarded c)).

Definition json_of_message (m : IncomingMessage) : json :=
  JObj (field "from" JStr (im_from m)
          ++ field "id" JStr (im_id m)
          ++ field "timestamp" JStr (im_timestamp m)
          ++ field "type" JStr (im_type m)
          ++ opt_field "text" json_of_text (im_text m)
          ++ opt_field "image" json_of_media (im_image m)
          ++ opt_field "video" json_of_media (im_video m)
          ++ opt_field "audio" json_of_media (im_audio m)
          ++ opt_field "document" json_of_document (im_document m)
          ++ opt_field "sticker" json_of_media (im_sticker m)
          ++ opt_field "location" json_of_location (im_location m)
          ++ opt_field "contacts" JArr (im_contacts m)
          ++ opt_field "interactive" json_of_interactive (im_interactive m)
          ++ opt_field "button" json_of_button (im_button m)
          ++ opt_field "context" json_of_context (im_context m)
          ++ opt_field "referral" (fun j => j) (im_referral m)
          ++ im_extra m).

End Wire.

(* ===================================================================== *)
(** ** The schema: five relations *)
(* ===================================================================== *)

Module Schema.

Import Js Wire.

Inductive Direction := incoming | outgoing.

(** The five values the [CHECK] constraint on [messages.status] admits. *)
Inductive Status := received | sent | delivered | read | failed.

Definition status_of_delivery (d : DeliveryStatus) : Status :=
  match d with
  | st_sent => sent
  | st_delivered => delivered
  | st_read => read
  | st_failed => failed
  end.

(** Rows.  Timestamps are the text SQLite and [toISOString] produce. *)
Record ContactRecord := {
  c_id : Z;
  c_wa_id : string;
  c_name : option string;
  c_phone_number : option string;
  c_first_seen_at : string;
  c_last_message_at : string;
  c_created_at : string;
  c_updated_at : string
}.

Record MessageRecord := {
  m_id : Z;
  m_wa_message_id : string;
  m_contact_id : Z;
  m_direction : Direction;
  m_type : string;
  m_content : option string;
  m_media_id : option string;
  m_media_url : option string;
  m_media_mime_type : option string;
  m_media_filename : option string;
  m_caption : option string;
  m_latitude : option number;
  m_longitude : option number;
  m_location_name : option string;
  m_location_address : option string;
  m_reply_to_message_id : option string;
  m_status : Status;
  m_timestamp : string;
  m_created_at : string
}.

Record StatusRow := {
  s_id : Z;
  s_wa_message_id : string;
  s_status : DeliveryStatus;
  s_timestamp : string;
  s_error_code : option Z;
  s_error_message : option string;
  s_created_at : string
}.

Record ConversationRow := {
  cv_id : Z;
  cv_wa_conversation_id : string;
  cv_contact_id : Z;
  cv_origin_type : OriginType;
  cv_started_at : string;
  cv_expires_at : option string;
  cv_created_at : string
}.

Record InteractiveRow := {
  r_id : Z;
  r_message_id : Z;
  r_response_type : InteractiveType;
  r_response_id : string;
  r_response_title : string;
  r_response_description : option string;
  r_created_at : string
}.

(** The database: each table in rowid order, and the text [datetime('now')]
    evaluates to. *)
Record Store := {
  contacts : list ContactRecord;
  messages : list MessageRecord;
  message_statuses : list StatusRow;
  conversations : list ConversationRow;
  interactive_responses : list InteractiveRow;
  now : string
}.

Definition empty_store (clock : string) : Store :=
  {| contacts := []; messages := []; message_statuses := [];
     conversations := []; interactive_responses := []; now := clock |}.

Definition set_contacts (l : list ContactRecord) (st : Store) : Store :=
  {| contacts := l; messages := messages st;
     message_statuses := message_statuses st;
     conversations := conversations st;
     interactive_responses := interactive_responses st; now := now st |}.

Definition set_messages (l : list MessageRecord) (st : Store) : Store :=
  {| contacts := contacts st; messages := l;
     message_statuses := message_statuses st;
     conversations := conversations st;
     interactive_responses := interactive_responses st; now := now st |}.

Definition set_message_statuses (l : list StatusRow) (st : Store) : Store :=
  {| contacts := contacts st; messages := messages st;
     message_statuses := l;
     conversations := conversations st;
     interactive_responses := interactive_responses st; now := now st |}.

Definition set_conversations (l : list ConversationRow) (st : Store) : Store :=
  {| contacts := contacts st; messages := messages st;
     message_statuses := message_statuses st;
     conversations := l;
     interactive_responses := interactive_responses st; now := now st |}.

Definition set_interactive_responses (l : list InteractiveRow) (st : Store)
  : Store :=
  {| contacts := contacts st; messages := messages st;
     message_statuses := message_statuses st;
     conversations := conversations st;
     interactive_responses := l; now := now st |}.

(** The wall clock moves on between statements. *)
Definition set_now (clock : string) (st : Store) : Store :=
  {| contacts := contacts st; messages := messages st;
     message_statuses := message_statuses st;
     conversations := conversations st;
     interactive_responses := interactive_responses st; now := clock |}.

(** [INTEGER PRIMARY KEY AUTOINCREMENT]: one more than the largest rowid.
    No statement of the service deletes a row. *)
Definition next_id {A} (id : A -> Z) (rows : list A) : Z :=
  1 + fold_right Z.max 0 (map id rows).

(** Rows selected by a [WHERE column = ?] clause on a text column. *)
Definition has_key {A} (key : A -> string) (k : string) (row : A) : bool :=
  String.eqb (key row) k.

Definition count_key {A} (key : A -> string) (k : string) (rows : list A)
  : nat :=
  List.length (filter (has_key key k) rows).

End Schema.

(* ===================================================================== *)
(** ** The store's statements *)
(* ===================================================================== *)

Module D1.

Import Js Wire Schema.

(** What an awaited call can reject with. *)
Inductive Exn :=
| RangeError (msg : string)
| TypeError (msg : string)
| SyntaxError (msg : string)
| D1_TYPE_ERROR (msg : string)
| D1_ERROR (msg : string).

Inductive Result (A : Type) : Type :=
| Ok (a : A)
| Err (e : Exn).

Arguments Ok {A} a.
Arguments Err {A} e.

Definition is_ok {A} (r : Result A) : bool :=
  match r with Ok _ => true | Err _ => false end.

(** The values bound to the two [INSERT INTO messages] statements. *)
Record IncomingValues := {
  iv_wa_message_id : string;
  iv_contact_id : Z;
  iv_type : string;
  iv_content : option string;
  iv_media_id : option string;
  iv_media_mime_type : option string;
  iv_media_filename : option string;
  iv_caption : option string;
  iv_latitude : option number;
  iv_longitude : option number;
  iv_location_name : option string;
  iv_location_address : option string;
  iv_reply_to_message_id : option string;
  iv_timestamp : string
}.

Record OutgoingValues := {
  ov_wa_message_id : string;
  ov_contact_id : Z;
  ov_type : string;
  ov_content : option string;
  ov_media_id : option string;
  ov_caption : option string;
  ov_latitude : option number;
  ov_longitude : option number;
  ov_location_name : option string;
  ov_location_address : option string;
  ov_reply_to_message_id : option string
}.

(** One constructor per SQL text in [database.ts], indexed by what
    [.first()] or [.run()] hands back. *)
Inductive Stmt : Type -> Type :=
| SelectContactByWaId (waId : string) : Stmt (option ContactRecord)
| UpdateContactSeen (name : option string) (waId : string) : Stmt unit
| InsertContact (waId : string) (name : option string) (phone : string)
  : Stmt (option ContactRecord)
| InsertIncomingMessage (v : IncomingValues) : Stmt (option MessageRecord)
| InsertOutgoingMessage (v : OutgoingValues) : Stmt (option MessageRecord)
| UpdateMessageStatus (status : DeliveryStatus) (waMessageId : string)
  : Stmt unit
| InsertMessageStatus (waMessageId : string) (status : DeliveryStatus)
    (timestamp : string) (errorCode : option Z) (errorMessage : option string)
  : Stmt unit
| SelectContactOfMessage (waMessageId : string) : Stmt (option Z)
| InsertConversationOrIgnore (waConversationId : string) (contactId : Z)
    (originType : OriginType) (expiresAt : option string)
  : Stmt unit
| InsertInteractiveResponse (messageId : Z) (responseType : InteractiveType)
    (responseId responseTitle : string) (responseDescription : option string)
  : Stmt unit.

Definition unique_failed (column : string) : Exn :=
  D1_ERROR ("D1_ERROR: UNIQUE constraint failed: " ++ column).

Definition foreign_key_failed : Exn :=
  D1_ERROR "D1_ERROR: FOREIGN KEY constraint failed".

Definition has_id {A} (id : A -> Z) (k : Z) (rows : list A) : bool :=
  existsb (fun r => id r =? k) rows.

(** [SET name = COALESCE(?, name), last_message_at = datetime('now'),
    updated_at = datetime('now')] on one row. *)
Definition touch_contact (name : option string) (clock : string)
  (c : ContactRecord) : ContactRecord :=
  {| c_id := c_id c;
     c_wa_id := c_wa_id c;
     c_name := match name with Some n => Some n | None => c_name c end;
     c_phone_number := c_phone_number c;
     c_first_seen_at := c_first_seen_at c;
     c_last_message_at := clock;
     c_created_at := c_created_at c;
     c_updated_at := clock |}.

Definition new_contact (st : Store) (waId : string) (name : option string)
  (phone : string) : ContactRecord :=
  {| c_id := next_id c_id (contacts st);
     c_wa_id := waId;
     c_name := name;
     c_phone_number := Some phone;
     c_first_seen_at := now st;
     c_last_message_at := now st;
     c_created_at := now st;
     c_updated_at := now st |}.

Definition new_incoming (st : Store) (v : IncomingValues) : MessageRecord :=
  {| m_id := next_id m_id (messages st);
     m_wa_message_id := iv_wa_message_id v;
     m_contact_id := iv_contact_id v;
     m_direction := incoming;
     m_type := iv_type v;
     m_content := iv_content v;
     m_media_id := iv_media_id v;
     m_media_url := None;
     m_media_mime_type := iv_media_mime_type v;
     m_media_filename := iv_media_filename v;
     m_caption := iv_caption v;
     m_latitude := iv_latitude v;
     m_longitude := iv_longitude v;
     m_location_name := iv_location_name v;
     m_location_address := iv_location_address v;
     m_reply_to_message_id := iv_reply_to_message_id v;
     m_status := received;
     m_timestamp := iv_timestamp v;
     m_created_at := now st |}.

Definition new_outgoing (st : Store) (v : OutgoingValues) : MessageRecord :=
  {| m_id := next_id m_id (messages st);
     m_wa_message_id := ov_wa_message_id v;
     m_contact_id := ov_contact_id v;
     m_direction := outgoing;
     m_type := ov_type v;
     m_content := ov_content v;
     m_media_id := ov_media_id v;
     m_media_url := None;
     m_media_mime_type := None;
     m_media_filename := None;
     m_caption := ov_caption v;
     m_latitude := ov_latitude v;
     m_longitude := ov_longitude v;
     m_location_name := ov_location_name v;
     m_location_address := ov_location_address v;
     m_reply_to_message_id := ov_reply_to_message_id v;
     m_status := sent;
     m_timestamp := now st;
     m_created_at := now st |}.

(** [SET status = ?] on one row. *)
Definition set_status (s : Status) (m : MessageRecord) : MessageRecord :=
  {| m_id := m_id m;
     m_wa_message_id := m_wa_message_id m;
     m_contact_id := m_contact_id m;
     m_direction := m_direction m;
     m_type := m_type m;
     m_content := m_content m;
     m_media_id := m_media_id m;
     m_media_url := m_media_url m;
     m_media_mime_type := m_media_mime_type m;
     m_media_filename := m_media_filename m;
     m_caption := m_caption m;
     m_latitude := m_latitude m;
     m_longitude := m_longitude m;
     m_location_name := m_location_name m;
     m_location_address := m_location_address m;
     m_reply_to_message_id := m_reply_to_message_id m;
     m_status := s;
     m_timestamp := m_timestamp m;
     m_created_at := m_created_at m |}.

(** [UPDATE ... WHERE key = ?]: the matching rows are rewritten in place. *)
Definition update_where {A} (key : A -> string) (k : string) (f : A -> A)
  (rows : list A) : list A :=
  map (fun r => if has_key key k r then f r else r) rows.

(** [SELECT c.id FROM contacts c JOIN messages m ON m.contact_id = c.id
    WHERE m.wa_message_id = ?]: every matching pair, contacts outermost. *)
Definition join_contact_of_message (st : Store) (waMessageId : string)
  : list Z :=
  flat_map
    (fun c =>
       flat_map
         (fun m =>
            if (m_contact_id m =? c_id c)
               && has_key m_wa_message_id waMessageId m
            then [c_id c] else [])
         (messages st))
    (contacts st).

Definition insert_message (st : Store) (waMessageId : string) (contactId : Z)
  (row : MessageRecord) : Result (option MessageRecord) * Store :=
  if existsb (has_key m_wa_message_id waMessageId) (messages st)
  then (Err (unique_failed "messages.wa_message_id"), st)
  else if negb (has_id c_id contactId (contacts st))
  then (Err foreign_key_failed, st)
  else (Ok (Some row), set_messages (messages st ++ [row]) st).

(** One statement, run atomically.  A rejected statement leaves the store as
    it was.  The constraints the schema declares are checked where a
    statement can violate them: [UNIQUE] on [contacts.wa_id],
    [messages.wa_message_id] and [conversations.wa_conversation_id], and the
    foreign keys of [messages], [conversations] and [interactive_responses];
    the [CHECK] and [NOT NULL] constraints hold by the types of the bound
    values. *)
Definition exec {B} (q : Stmt B) (st : Store) : Result B * Store :=
  match q in Stmt T return Result T * Store with
  | SelectContactByWaId waId =>
      (Ok (find (has_key c_wa_id waId) (contacts st)), st)
  | UpdateContactSeen name waId =>
      (Ok tt,
       set_contacts
         (update_where c_wa_id waId (touch_contact name (now st))
            (contacts st)) st)
  | InsertContact waId name phone =>
      if existsb (has_key c_wa_id waId) (contacts st)
      then (Err (unique_failed "contacts.wa_id"), st)
      else
        let row := new_contact st waId name phone in
        (Ok (Some row), set_contacts (contacts st ++ [row]) st)
  | InsertIncomingMessage v =>
      insert_message st (iv_wa_message_id v) (iv_contact_id v)
        (new_incoming st v)
  | InsertOutgoingMessage v =>
      insert_message st (ov_wa_message_id v) (ov_contact_id v)
        (new_outgoing st v)
  | UpdateMessageStatus status waMessageId =>
      (Ok tt,
       set_messages
         (update_where m_wa_message_id waMessageId
            (set_status (status_of_delivery status)) (messages st)) st)
  | InsertMessageStatus waMessageId status timestamp errorCode errorMessage =>
      let row :=
        {| s_id := next_id s_id (message_statuses st);
           s_wa_message_id := waMessageId;
           s_status := status;
           s_timestamp := timestamp;
           s_error_code := errorCode;
           s_error_message := errorMessage;
           s_created_at := now st |} in
      (Ok tt, set_message_statuses (message_statuses st ++ [row]) st)
  | SelectContactOfMessage waMessageId =>
      (Ok (hd_error (join_contact_of_message st waMessageId)), st)
  | InsertConversationOrIgnore waConversationId contactId originType
      expiresAt =>
      if existsb (has_key cv_wa_conversation_id waConversationId)
           (conversations st)
      then (Ok tt, st)
      else if negb (has_id c_id contactId (contacts st))
      then (Err foreign_key_failed, st)
      else
        let row :=
          {| cv_id := next_id cv_id (conversations st);
             cv_wa_conversation_id := waConversationId;
             cv_contact_id := contactId;
             cv_origin_type := originType;
             cv_started_at := now st;
             cv_expires_at := expiresAt;
             cv_created_at := now st |} in
        (Ok tt, set_conversations (conversations st ++ [row]) st)
  | InsertInteractiveResponse messageId responseType responseId responseTitle
      responseDescription =>
      if negb (has_id m_id messageId (messages st))
      then (Err foreign_key_failed, st)
      else
        let row :=
          {| r_id := next_id r_id (interactive_responses st);
             r_message_id := messageId;
             r_response_type := responseType;
             r_response_id := responseId;
             r_response_title := responseTitle;
             r_response_description := responseDescription;
             r_created_at := now st |} in
        (Ok tt,
         set_interactive_responses (interactive_responses st ++ [row]) st)
  end.

End D1.

(* ===================================================================== *)
(** ** Asynchronous programs *)
(* ===================================================================== *)

Module Async.

Import Js Wire Schema D1.

(** What the route writes with [console.log] and [console.error]; each line
    keeps the values the call prints. *)
Inductive ConsoleLine :=
| log_webhook_received (display_phone_number : string)
| log_message_received (senderName from id type : string)
| log_message_saved (id : Z)
| log_text (body : option string)
| log_image_received (id : option string)
| log_video_received (id : option string)
| log_audio_received (id : option string)
| log_document (filename : option string)
| log_location (location : option LocationContent)
| log_button_clicked (title : option string)
| log_list_selected (title : option string)
| log_message_type (type : string)
| error_saving_message (error : Exn)
| log_status_update (messageId : string) (status : DeliveryStatus)
    (recipientId : string)
| log_status_updated (status : DeliveryStatus)
| error_updating_status (error : Exn)
| error_delivery_failed (code : Z) (title message : string)
| error_webhook (code : Z) (title message : string) (details : option string)
| error_webhook_processing (error : Exn).

(** An [async] function body: it returns, throws, awaits one statement of
    the store and goes on with what the statement settled to, or writes a
    console line and goes on.  Between two awaits nothing else runs. *)
Inductive Prog (A : Type) : Type :=
| Ret (a : A)
| Throw (e : Exn)
| Await {B : Type} (q : Stmt B) (k : Result B -> Prog A)
| Console (line : ConsoleLine) (k : Prog A).

Arguments Ret {A} a.
Arguments Throw {A} e.
Arguments Await {A B} q k.
Arguments Console {A} line k.

Fixpoint bind {A B} (p : Prog A) (f : A -> Prog B) : Prog B :=
  match p with
  | Ret a => f a
  | Throw e => Throw e
  | Await q k => Await q (fun r => bind (k r) f)
  | Console l k => Console l (bind k f)
  end.

(** [try { p } catch (error) { handler error }] *)
Fixpoint try_catch {A} (p : Prog A) (handler : Exn -> Prog A) : Prog A :=
  match p with
  | Ret a => Ret a
  | Throw e => handler e
  | Await q k => Await q (fun r => try_catch (k r) handler)
  | Console l k => Console l (try_catch k handler)
  end.

(** [await db.prepare(sql).bind(...).first()] or [.run()]: a rejected
    statement throws at the [await]. *)
Definition await {B} (q : Stmt B) : Prog B :=
  Await q (fun r => match r with Ok b => Ret b | Err e => Throw e end).

Definition console (line : ConsoleLine) : Prog unit :=
  Console line (Ret tt).

(** [for (const x of xs) { await body(x) }] *)
Fixpoint for_of {A} (xs : list A) (body : A -> Prog unit) : Prog unit :=
  match xs with
  | [] => Ret tt
  | x :: rest => bind (body x) (fun _ => for_of rest body)
  end.

(** A store, as far as a program can tell: something that settles each
    statement and moves to a new state.  [exec] is the store the schema
    describes; any other handler is a store that also fails for reasons of
    its own. *)
Definition Handler (W : Type) : Type :=
  forall B : Type, Stmt B -> W -> Result B * W.

Definition d1 : Handler Store := @exec.

(** Running one call to completion with nothing interleaved. *)
Fixpoint run {W A} (h : Handler W) (p : Prog A) (w : W)
  (out : list ConsoleLine) : Result A * W * list ConsoleLine :=
  match p with
  | Ret a => (Ok a, w, out)
  | Throw e => (Err e, w, out)
  | Await q k => let (r, w') := h _ q w in run h (k r) w' out
  | Console l k => run h k w (out ++ [l])
  end.

Definition result_of {W A} (x : Result A * W * list ConsoleLine) : Result A :=
  fst (fst x).

Definition store_of {W A} (x : Result A * W * list ConsoleLine) : W :=
  snd (fst x).

Definition console_of {W A} (x : Result A * W * list ConsoleLine)
  : list ConsoleLine :=
  snd x.

(** The store after a call, whatever it settled to. *)
Definition after {W A} (h : Handler W) (p : Prog A) (w : W) : W :=
  store_of (run h p w []).

(** *** Calls in flight at the same time

    The hosting environment may process several requests at once.  Each
    statement is atomic, and the awaits are the only points where another
    call can run, so an execution is an interleaving of statements. *)

Definition settled {A} (p : Prog A) : bool :=
  match p with
  | Ret _ => true
  | Throw _ => true
  | _ => false
  end.

(** A call in flight: what is left of some [async] function to run. *)
Inductive Thread : Type :=
| thread {A : Type} (p : Prog A).

Definition finished (t : Thread) : bool :=
  match t with
  | thread p => settled p
  end.

Record Machine := {
  disk : Store;
  stdout : list ConsoleLine;
  calls : list Thread
}.

Inductive step : Machine -> Machine -> Prop :=
| step_await :
    forall st out before behind A B (q : Stmt B) (k : Result B -> Prog A),
      step {| disk := st; stdout := out;
              calls := before ++ thread (Await q k) :: behind |}
           {| disk := snd (exec q st); stdout := out;
              calls := before ++ thread (k (fst (exec q st))) :: behind |}
| step_console :
    forall st out before behind A l (k : Prog A),
      step {| disk := st; stdout := out;
              calls := before ++ thread (Console l k) :: behind |}
           {| disk := st; stdout := out ++ [l];
              calls := before ++ thread k :: behind |}
| step_clock :
    forall st out pool clock,
      step {| disk := st; stdout := out; calls := pool |}
           {| disk := set_now clock st; stdout := out; calls := pool |}.

Inductive steps : Machine -> Machine -> Prop :=
| steps_refl : forall m, steps m m
| steps_cons : forall m1 m2 m3, step m1 m2 -> steps m2 m3 -> steps m1 m3.

(** One interleaving, given as the order in which the calls take their
    turns: call [i] runs up to its next await or console line. *)
Definition advance_thread (st : Store) (out : list ConsoleLine) (t : Thread)
  : Store * list ConsoleLine * Thread :=
  match t with
  | thread p =>
      match p with
      | Await q k => (snd (exec q st), out, thread (k (fst (exec q st))))
      | Console l k => (st, (out ++ [l])%list, thread k)
      | _ => (st, out, thread p)
      end
  end.

Fixpoint turn (i : nat) (st : Store) (out : list ConsoleLine)
  (pool : list Thread) {struct pool} : Machine :=
  match pool with
  | [] => {| disk := st; stdout := out; calls := [] |}
  | t :: rest =>
      match i with
      | O =>
          let '(st', out', t') := advance_thread st out t in
          {| disk := st'; stdout := out'; calls := t' :: rest |}
      | S j =>
          let m := turn j st out rest in
          {| disk := disk m; stdout := stdout m; calls := t :: calls m |}
      end
  end.

Definition schedule (order : list nat) (m : Machine) : Machine :=
  fold_left (fun m' i => turn i (disk m') (stdout m') (calls m')) order m.

(** A call that cannot settle before the contact [waId] has a row: each of
    its awaits either leaves such a row in the store or hands over to a
    program that still has this to do. *)
Fixpoint secures (waId : string) {A} (p : Prog A) : Prop :=
  match p with
  | Ret _ => False
  | Throw _ => False
  | Await q k =>
      forall st,
        existsb (has_key c_wa_id waId) (contacts (snd (exec q st))) = true
        \/ secures waId (k (fst (exec q st)))
  | Console _ k => secures waId k
  end.

Definition thread_secures (waId : string) (t : Thread) : Prop :=
  match t with
  | thread p => secures waId p
  end.

Module Notations.
Declare Scope prog_scope.
Delimit Scope prog_scope with prog.
Notation "x <- p ;; k" := (bind p (fun x => k))
  (at level 61, p at next level, right associativity) : prog_scope.
Notation "p ;;; k" := (bind p (fun _ => k))
  (at level 61, right associativity) : prog_scope.
End Notations.

End Async.

(* ===================================================================== *)
(** ** [class DatabaseService] ([src/lib/database.ts]) *)
(* ===================================================================== *)

Module DatabaseService.

Import Js Wire Schema D1 Async.
Import Async.Notations.
Local Open Scope prog_scope.

(** A value handed to [.bind(...)]: D1 refuses [undefined]. *)
Inductive Bindable :=
| js_undefined
| js_null
| js_string (s : string).

Definition bindable_of (x : option string) : Bindable :=
  match x with
  | Some s => js_string s
  | None => js_null
  end.

(** [{ ...existing, name: n }] *)
Definition with_name (n : option string) (c : ContactRecord) : ContactRecord :=
  {| c_id := c_id c;
     c_wa_id := c_wa_id c;
     c_name := n;
     c_phone_number := c_phone_number c;
     c_first_seen_at := c_first_seen_at c;
     c_last_message_at := c_last_message_at c;
     c_created_at := c_created_at c;
     c_updated_at := c_updated_at c |}.

(** [findOrCreateContact(waId, name?)].  The result is what [.first()]
    gave, so it is [null] only if the store returned no row for the
    [INSERT ... RETURNING *]. *)
Definition findOrCreateContact (waId : string) (name : option string)
  : Prog (option ContactRecord) :=
  existing <- await (SelectContactByWaId waId) ;;
  match existing with
  | Some found =>
      await (UpdateContactSeen (or_null_string name) waId) ;;;
      Ret (Some (with_name (or_else_string name (c_name found)) found))
  | None =>
      result <- await (InsertContact waId (or_null_string name) waId) ;;
      Ret result
  end.

(** The local variables the [switch] on [message.type] fills in. *)
Record Extracted := {
  content : Bindable;
  mediaId : option string;
  mediaMimeType : option string;
  mediaFilename : option string;
  caption : option string;
  latitude : option number;
  longitude : option number;
  locationName : option string;
  locationAddress : option string
}.

Definition nothing_extracted : Extracted :=
  {| content := js_null; mediaId := None; mediaMimeType := None;
     mediaFilename := None; caption := None; latitude := None;
     longitude := None; locationName := None; locationAddress := None |}.

Definition only_content (c : Bindable) : Extracted :=
  {| content := c; mediaId := None; mediaMimeType := None;
     mediaFilename := None; caption := None; latitude := None;
     longitude := None; locationName := None; locationAddress := None |}.

Definition media_columns (mid mime fname cap : option string) : Extracted :=
  {| content := js_null; mediaId := mid; mediaMimeType := mime;
     mediaFilename := fname; caption := cap; latitude := None;
     longitude := None; locationName := None; locationAddress := None |}.

(** [x?.f] for a required field [f], and for an optional one. *)
Definition chain {A B} (x : option A) (f : A -> B) : option B :=
  option_map f x.

Definition chain_opt {A B} (x : option A) (f : A -> option B) : option B :=
  match x with
  | Some a => f a
  | None => None
  end.



Definition media_case (m : option MediaContent) (withCaption : bool)
  : Extracted :=
  media_columns
    (or_null_string (chain m media_id))
    (or_null_string (chain m media_mime_type))
    None
    (if withCaption then or_null_string (chain_opt m media_caption)
     else None).

Section Engine.

Variable Number_toString : number -> string.

(** [JSON.stringify(x)] where [x] may be [undefined], in which case so is
    the result. *)
Definition stringify (x : option json) : Bindable :=
  match x with
  | Some j => js_string (JSON_stringify Number_toString j)
  | None => js_undefined
  end.

(** The [switch (message.type)] of [saveIncomingMessage]. *)
Definition extract (message : IncomingMessage) : Extracted :=
  let type := im_type message in
  if (type =? "text")%string then
    only_content
      (bindable_of (or_null_string (chain (im_text message) text_body)))
  else if (type =? "image")%string then media_case (im_image message) true
  else if (type =? "video")%string then media_case (im_video message) true
  else if (type =? "audio")%string then media_case (im_audio message) false
  else if (type =? "document")%string then
    let d := im_document message in
    media_columns
      (or_null_string (chain d (fun x => media_id (doc_media x))))
      (or_null_string (chain d (fun x => media_mime_type (doc_media x))))
      (or_null_string (chain_opt d doc_filename))
      (or_null_string (chain_opt d (fun x => media_caption (doc_media x))))
  else if (type =? "sticker")%string then media_case (im_sticker message) false
  else if (type =? "location")%string then
    let l := im_location message in
    {| content := js_null; mediaId := None; mediaMimeType := None;
       mediaFilename := None; caption := None;
       latitude := or_null_number (chain l loc_latitude);
       longitude := or_null_number (chain l loc_longitude);
       locationName := or_null_string (chain_opt l loc_name);
       locationAddress := or_null_string (chain_opt l loc_address) |}
  else if (type =? "interactive")%string then
    match im_interactive message with
    | Some i =>
        match ir_type i with
        | button_reply =>
            only_content
              (stringify (chain (ir_button_reply i) json_of_button_reply))
        | list_reply =>
            only_content
              (stringify (chain (ir_list_reply i) json_of_list_reply))
        end
    | None => nothing_extracted
    end
  else if (type =? "button")%string then
    only_content
      (bindable_of (or_null_string (chain (im_button message) btn_text)))
  else if (type =? "contacts")%string then
    only_content (stringify (chain (im_contacts message) JArr))
  else
    only_content (stringify (Some (json_of_message message))).

(** The reply picked by the conditional expression on
    [message.interactive.type], as (id, title, description). *)
Definition selected_response (i : InteractiveResponse)
  : option (string * string * option string) :=
  match ir_type i with
  | button_reply =>
      chain (ir_button_reply i) (fun b => (br_id b, br_title b, None))
  | list_reply =>
      chain (ir_list_reply i)
        (fun l => (lr_id l, lr_title l, lr_description l))
  end.

Definition invalid_time : Exn := RangeError "Invalid time value".

Definition null_property (p : string) : Exn :=
  TypeError ("Cannot read properties of null (reading '" ++ p ++ "')").

Definition undefined_bound : Exn :=
  D1_TYPE_ERROR "Type 'undefined' not supported for value 'undefined'".

(** [new Date(parseInt(ts) * 1000).toISOString()] *)
Definition iso_timestamp (ts : string) : Prog string :=
  match unix_to_iso ts with
  | Some t => Ret t
  | None => Throw invalid_time
  end.

(** [contactRecord.id] *)
Definition contact_id_of (c : option ContactRecord) : Prog Z :=
  match c with
  | Some r => Ret (c_id r)
  | None => Throw (null_property "id")
  end.

Definition bind_content (c : Bindable) : Prog (option string) :=
  match c with
  | js_undefined => Throw undefined_bound
  | js_null => Ret None
  | js_string s => Ret (Some s)
  end.

(** The block under "Save interactive response if applicable". *)
Definition save_interactive_response (message : IncomingMessage)
  (result : option MessageRecord) : Prog unit :=
  if (im_type message =? "interactive")%string then
    match im_interactive message, result with
    | Some i, Some saved =>
        match selected_response i with
        | Some (rid, rtitle, rdescription) =>
            await (InsertInteractiveResponse (m_id saved) (ir_type i)
                     rid rtitle rdescription)
        | None => Ret tt
        end
    | _, _ => Ret tt
    end
  else Ret tt.

(** [saveIncomingMessage(message, contact)] *)
Definition saveIncomingMessage (message : IncomingMessage)
  (contact : option WebhookContact) : Prog (option MessageRecord) :=
  contactRecord <-
    findOrCreateContact (im_from message)
      (chain contact (fun c => profile_name (wc_profile c))) ;;
  let x := extract message in
  timestamp <- iso_timestamp (im_timestamp message) ;;
  contactId <- contact_id_of contactRecord ;;
  boundContent <- bind_content (content x) ;;
  result <-
    await (InsertIncomingMessage
             {| iv_wa_message_id := im_id message;
                iv_contact_id := contactId;
                iv_type := im_type message;
                iv_content := boundContent;
                iv_media_id := mediaId x;
                iv_media_mime_type := mediaMimeType x;
                iv_media_filename := mediaFilename x;
                iv_caption := caption x;
                iv_latitude := latitude x;
                iv_longitude := longitude x;
                iv_location_name := locationName x;
                iv_location_address := locationAddress x;
                iv_reply_to_message_id :=
                  or_null_string (chain (im_context message) ctx_id);
                iv_timestamp := timestamp |}) ;;
  save_interactive_response message result ;;;
  Ret result.

End Engine.

(** The [options] argument of [saveOutgoingMessage]. *)
Record OutgoingOptions := {
  oo_mediaId : option string;
  oo_caption : option string;
  oo_filename : option string;
  oo_latitude : option number;
  oo_longitude : option number;
  oo_locationName : option string;
  oo_locationAddress : option string;
  oo_replyToMessageId : option string
}.

(** [saveOutgoingMessage(waMessageId, to, type, content, options?)] *)
Definition saveOutgoingMessage (waMessageId to type : string)
  (content : option string) (options : option OutgoingOptions)
  : Prog (option MessageRecord) :=
  contactRecord <- findOrCreateContact to None ;;
  contactId <- contact_id_of contactRecord ;;
  result <-
    await (InsertOutgoingMessage
             {| ov_wa_message_id := waMessageId;
                ov_contact_id := contactId;
                ov_type := type;
                ov_content := content;
                ov_media_id := or_null_string (chain_opt options oo_mediaId);
                ov_caption := or_null_string (chain_opt options oo_caption);
                ov_latitude :=
                  or_null_number (chain_opt options oo_latitude);
                ov_longitude :=
                  or_null_number (chain_opt options oo_longitude);
                ov_location_name :=
                  or_null_string (chain_opt options oo_locationName);
                ov_location_address :=
                  or_null_string (chain_opt options oo_locationAddress);
                ov_reply_to_message_id :=
                  or_null_string (chain_opt options oo_replyToMessageId) |}) ;;
  Ret result.

(** [status.errors?.[0]] *)
Definition first_error (status : MessageStatus) : option WebhookError :=
  chain_opt (ms_errors status) (@hd_error WebhookError).

(** [updateMessageStatus(status)] *)
Definition updateMessageStatus (status : MessageStatus) : Prog unit :=
  timestamp <- iso_timestamp (ms_timestamp status) ;;
  await (UpdateMessageStatus (ms_status status) (ms_id status)) ;;;
  let errorCode := or_null_int (chain (first_error status) we_code) in
  let errorMessage := or_null_string (chain (first_error status) we_message) in
  await (InsertMessageStatus (ms_id status) (ms_status status) timestamp
           errorCode errorMessage) ;;;
  match ms_conversation status with
  | Some conversation =>
      contact <- await (SelectContactOfMessage (ms_id status)) ;;
      match contact with
      | Some contactId =>
          await (InsertConversationOrIgnore (conv_id conversation) contactId
                   (origin_type (conv_origin conversation))
                   (or_null_string (conv_expiration_timestamp conversation)))
      | None => Ret tt
      end
  | None => Ret tt
  end.

End DatabaseService.

(* ===================================================================== *)
(** ** The webhook route ([src/routes/webhook.ts]) *)
(* ===================================================================== *)

Module Webhook.

Import Js Wire Schema D1 Async DatabaseService.
Import Async.Notations.
Local Open Scope prog_scope.

Inductive Body :=
| text (s : string)
| json_error (message : string).

Record Response := { status : Z; body : Body }.

Definition ok_response : Response := {| status := 200; body := text "OK" |}.

Definition invalid_object_response : Response :=
  {| status := 400; body := json_error "Invalid webhook object" |}.

(** [handleStatusUpdate(status, db)] *)
Definition handleStatusUpdate (status : MessageStatus) : Prog unit :=
  console (log_status_update (ms_id status) (ms_status status)
             (ms_recipient_id status)) ;;;
  try_catch
    (updateMessageStatus status ;;;
     console (log_status_updated (ms_status status)))
    (fun error => console (error_updating_status error)) ;;;
  match ms_status status, ms_errors status with
  | st_failed, Some errors =>
      for_of errors
        (fun error =>
           console (error_delivery_failed (we_code error) (we_title error)
                      (we_message error)))
  | _, _ => Ret tt
  end.

(** The inner [switch] of [handleIncomingMessage], which only logs. *)
Definition log_content (message : IncomingMessage) : Prog unit :=
  let type := im_type message in
  if (type =? "text")%string then
    console (log_text (chain (im_text message) text_body))
  else if (type =? "image")%string then
    console (log_image_received (chain (im_image message) media_id))
  else if (type =? "video")%string then
    console (log_video_received (chain (im_video message) media_id))
  else if (type =? "audio")%string then
    console (log_audio_received (chain (im_audio message) media_id))
  else if (type =? "document")%string then
    console (log_document (chain_opt (im_document message) doc_filename))
  else if (type =? "location")%string then
    console (log_location (im_location message))
  else if (type =? "interactive")%string then
    match im_interactive message with
    | Some i =>
        match ir_type i with
        | button_reply =>
            console (log_button_clicked (chain (ir_button_reply i) br_title))
        | list_reply =>
            console (log_list_selected (chain (ir_list_reply i) lr_title))
        end
    | None => Ret tt
    end
  else console (log_message_type type).

(** [webhookValue.contacts?.find((c) => c.wa_id === message.from)] *)
Definition sender_of (message : IncomingMessage) (webhookValue : WebhookValue)
  : option WebhookContact :=
  chain_opt (wv_contacts webhookValue)
    (find (fun c => String.eqb (wc_wa_id c) (im_from message))).

Section Engine.

Variable Number_toString : number -> string.

(** [handleIncomingMessage(message, webhookValue, db)] *)
Definition handleIncomingMessage (message : IncomingMessage)
  (webhookValue : WebhookValue) : Prog unit :=
  let contact := sender_of message webhookValue in
  let senderName :=
    match or_null_string
            (chain contact (fun c => profile_name (wc_profile c))) with
    | Some n => n
    | None => "Unknown"
    end in
  console (log_message_received senderName (im_from message)
             (im_id message) (im_type message)) ;;;
  try_catch
    (savedMessage <- saveIncomingMessage Number_toString message contact ;;
     match savedMessage with
     | Some saved => console (log_message_saved (m_id saved))
     | None => Throw (null_property "id")
     end ;;;
     log_content message)
    (fun error => console (error_saving_message error)).

(** [if (xs && xs.length > 0) { for (const x of xs) ... }] *)
Definition each_present {A} (xs : option (list A)) (body : A -> Prog unit)
  : Prog unit :=
  match xs with
  | Some l => for_of l body
  | None => Ret tt
  end.

(** [processMessagesChange(value, db)] *)
Definition processMessagesChange (value : WebhookValue) : Prog unit :=
  console (log_webhook_received
             (md_display_phone_number (wv_metadata value))) ;;;
  each_present (wv_messages value)
    (fun message => handleIncomingMessage message value) ;;;
  each_present (wv_statuses value) handleStatusUpdate ;;;
  each_present (wv_errors value)
    (fun error =>
       console (error_webhook (we_code error) (we_title error)
                  (we_message error)
                  (chain (we_error_data error) ed_details))).

Definition processChange (change : WebhookChange) : Prog unit :=
  if (wch_field change =? "messages")%string
  then processMessagesChange (wch_value change)
  else Ret tt.

(** [await c.req.json()]: [None] is a body that does not parse. *)
Definition request_json (parsed : option WebhookPayload)
  : Prog WebhookPayload :=
  match parsed with
  | Some payload => Ret payload
  | None => Throw (SyntaxError "Unexpected token in JSON")
  end.

(** [webhook.post('/', ...)] *)
Definition post (parsed : option WebhookPayload) : Prog Response :=
  try_catch
    (payload <- request_json parsed ;;
     if negb (wp_object payload =? "whatsapp_business_account")%string
     then Ret invalid_object_response
     else
       for_of (wp_entry payload)
         (fun entry => for_of (we_changes entry) processChange) ;;;
       Ret ok_response)
    (fun error =>
       console (error_webhook_processing error) ;;; Ret ok_response).

End Engine.

End Webhook.

(* ===================================================================== *)
(** ** The store's read statements *)
(* ===================================================================== *)

Module Queries.

Import Js Wire Schema D1.

(** [interface MessageWithContact extends MessageRecord] *)
Record MessageWithContact := {
  mc_message : MessageRecord;
  mc_contact_name : option string;
  mc_contact_wa_id : string
}.

(** A row of [SELECT type, COUNT( * ) as count ... GROUP BY type]. *)
Record TypeCount := { tc_type : string; tc_count : Z }.

(** The [AND ...] clauses [getMessages] appends to its query, each with the
    parameter it pushes. *)
Inductive Condition :=
| contact_is (waId : string)
| direction_is (direction : Direction)
| type_is (type : string)
| timestamp_from (startDate : string)
| timestamp_until (endDate : string).

(** One constructor per [SELECT] text of [database.ts], indexed by what
    [.first()] or [.all().results] hands back. *)
Inductive Select : Type -> Type :=
| SelectContact (waId : string) : Select (option ContactRecord)
| SelectContactsPage (limit offset : Z) : Select (list ContactRecord)
| SelectMessages (conditions : list Condition) (limit offset : Z)
  : Select (list MessageWithContact)
| SelectMessage (waMessageId : string) : Select (option MessageWithContact)
| SelectConversation (contactWaId : string) (limit : Z)
  : Select (list MessageWithContact)
| CountContacts : Select (option Z)
| CountMessages : Select (option Z)
| CountIncoming : Select (option Z)
| CountOutgoing : Select (option Z)
| CountByType : Select (list TypeCount).

(** [ORDER BY key DESC]: [le a b] says the key of [a] is at most that of
    [b].  Rows with equal keys stay in the order they had; SQL leaves their
    order open. *)
Fixpoint insert_desc {A} (le : A -> A -> bool) (x : A) (l : list A) : list A :=
  match l with
  | [] => [x]
  | y :: r => if le y x then x :: y :: r else y :: insert_desc le x r
  end.

Definition order_by_desc {A} (le : A -> A -> bool) (l : list A) : list A :=
  fold_right (insert_desc le) [] l.

(** [LIMIT ? OFFSET ?] with integer parameters: a negative offset counts as
    zero and a negative limit as no limit. *)
Definition page {A} (limit offset : Z) (rows : list A) : list A :=
  let rest := skipn (Z.to_nat offset) rows in
  if limit <? 0 then rest else firstn (Z.to_nat limit) rest.

Definition with_contact (m : MessageRecord) (c : ContactRecord)
  : MessageWithContact :=
  {| mc_message := m;
     mc_contact_name := c_name c;
     mc_contact_wa_id := c_wa_id c |}.

(** [FROM messages m JOIN contacts c ON m.contact_id = c.id] *)
Definition messages_with_contacts (st : Store) : list MessageWithContact :=
  flat_map
    (fun m =>
       map (with_contact m)
         (filter (fun c => c_id c =? m_contact_id m) (contacts st)))
    (messages st).

Definition direction_eqb (a b : Direction) : bool :=
  match a, b with
  | incoming, incoming => true
  | outgoing, outgoing => true
  | _, _ => false
  end.

Definition by_count (a b : TypeCount) : bool := tc_count a <=? tc_count b.

Definition count_rows {A} (rows : list A) : Z := Z.of_nat (List.length rows).

Definition is_direction (d : Direction) (m : MessageRecord) : bool :=
  direction_eqb (m_direction m) d.

(** [GROUP BY type]: one row per type that occurs, with the number of its
    messages. *)
Definition count_by_type (rows : list MessageRecord) : list TypeCount :=
  map (fun t => {| tc_type := t;
                   tc_count := Z.of_nat (count_key m_type t rows) |})
    (nodup string_dec (map m_type rows)).

(** A read-only [async] method: it returns, throws, or awaits a [SELECT] and
    goes on with what it settled to. *)
Inductive Read (A : Type) : Type :=
| Yield (a : A)
| Raise (e : Exn)
| Ask {B : Type} (q : Select B) (k : Result B -> Read A).

Arguments Yield {A} a.
Arguments Raise {A} e.
Arguments Ask {A B} q k.

Fixpoint and_then {A B} (p : Read A) (f : A -> Read B) : Read B :=
  match p with
  | Yield a => f a
  | Raise e => Raise e
  | Ask q k => Ask q (fun r => and_then (k r) f)
  end.

(** [try { p } catch (error) { handler error }] *)
Fixpoint catching {A} (p : Read A) (handler : Exn -> Read A) : Read A :=
  match p with
  | Yield a => Yield a
  | Raise e => handler e
  | Ask q k => Ask q (fun r => catching (k r) handler)
  end.

Definition ask {B} (q : Select B) : Read B :=
  Ask q (fun r => match r with Ok b => Yield b | Err e => Raise e end).

(** A store as a reader sees it: something that settles each [SELECT]. *)
Definition Oracle : Type := forall B : Type, Select B -> Result B.

Fixpoint answer {A} (o : Oracle) (p : Read A) : Result A :=
  match p with
  | Yield a => Ok a
  | Raise e => Err e
  | Ask q k => answer o (k (o _ q))
  end.

(** [timestamp] and [last_message_at] are [TEXT] columns: they compare byte
    by byte, a proper prefix coming first. *)
Definition satisfies (r : MessageWithContact) (c : Condition) : bool :=
  match c with
  | contact_is waId => String.eqb (mc_contact_wa_id r) waId
  | direction_is d => direction_eqb (m_direction (mc_message r)) d
  | type_is t => String.eqb (m_type (mc_message r)) t
  | timestamp_from startDate =>
      String.leb startDate (m_timestamp (mc_message r))
  | timestamp_until endDate =>
      String.leb (m_timestamp (mc_message r)) endDate
  end.

Definition satisfies_all (conditions : list Condition)
  (r : MessageWithContact) : bool :=
  forallb (satisfies r) conditions.

Definition by_timestamp (a b : MessageWithContact) : bool :=
  String.leb (m_timestamp (mc_message a)) (m_timestamp (mc_message b)).

Definition by_last_message (a b : ContactRecord) : bool :=
  String.leb (c_last_message_at a) (c_last_message_at b).

(** What a [SELECT] returns from a given state of the store; none of them
    can violate a constraint. *)
Definition select {B} (q : Select B) (st : Store) : B :=
  match q in Select T return T with
  | SelectContact waId => find (has_key c_wa_id waId) (contacts st)
  | SelectContactsPage limit offset =>
      page limit offset (order_by_desc by_last_message (contacts st))
  | SelectMessages conditions limit offset =>
      page limit offset
        (order_by_desc by_timestamp
           (filter (satisfies_all conditions) (messages_with_contacts st)))
  | SelectMessage waMessageId =>
      hd_error
        (filter (fun r => has_key m_wa_message_id waMessageId (mc_message r))
           (messages_with_contacts st))
  | SelectConversation contactWaId limit =>
      page limit 0
        (order_by_desc by_timestamp
           (filter (fun r => String.eqb (mc_contact_wa_id r) contactWaId)
              (messages_with_contacts st)))
  | CountContacts => Some (count_rows (contacts st))
  | CountMessages => Some (count_rows (messages st))
  | CountIncoming =>
      Some (count_rows (filter (is_direction incoming) (messages st)))
  | CountOutgoing =>
      Some (count_rows (filter (is_direction outgoing) (messages st)))
  | CountByType => order_by_desc by_count (count_by_type (messages st))
  end.

(** The store the schema describes, in state [st]. *)
Definition d1_at (st : Store) : Oracle := fun B q => Ok (select q st).

End Queries.

(* ===================================================================== *)
(** ** [class DatabaseService]: the read methods *)
(* ===================================================================== *)

Module DatabaseQueries.

Import Js Wire Schema D1 Queries.

(** A parameter with a default value: the default applies when the argument
    is [undefined]. *)
Definition defaulting (d : Z) (x : option Z) : Z :=
  match x with
  | Some n => n
  | None => d
  end.

(** [getContact(waId)] *)
Definition getContact (waId : string) : Read (option ContactRecord) :=
  ask (SelectContact waId).

(** [getAllContacts(limit = 50, offset = 0)], for integer arguments. *)
Definition getAllContacts (limit offset : option Z)
  : Read (list ContactRecord) :=
  ask (SelectContactsPage (defaulting 50 limit) (defaulting 0 offset)).

(** The [options] argument of [getMessages]. *)
Record MessageOptions := {
  mo_contactWaId : option string;
  mo_direction : option Direction;
  mo_type : option string;
  mo_limit : option Z;
  mo_offset : option Z;
  mo_startDate : option string;
  mo_endDate : option string
}.

Definition no_options : MessageOptions :=
  {| mo_contactWaId := None; mo_direction := None; mo_type := None;
     mo_limit := None; mo_offset := None; mo_startDate := None;
     mo_endDate := None |}.

(** [if (x) { query += ' AND ...'; params.push(x) }] for a string [x]. *)
Definition clause (make : string -> Condition) (x : option string)
  : list Condition :=
  match or_null_string x with
  | Some s => [make s]
  | None => []
  end.

Definition direction_clause (x : option Direction) : list Condition :=
  match x with
  | Some d => [direction_is d]
  | None => []
  end.

(** The clauses in the order the method appends them. *)
Definition conditions_of (options : MessageOptions) : list Condition :=
  clause contact_is (mo_contactWaId options)
    ++ direction_clause (mo_direction options)
    ++ clause type_is (mo_type options)
    ++ clause timestamp_from (mo_startDate options)
    ++ clause timestamp_until (mo_endDate options).

(** [getMessages(options = {})], for integer [limit] and [offset]. *)
Definition getMessages (options : option MessageOptions)
  : Read (list MessageWithContact) :=
  let o := match options with Some o => o | None => no_options end in
  ask (SelectMessages (conditions_of o)
         (defaulting 50 (mo_limit o)) (defaulting 0 (mo_offset o))).

(** [getMessage(waMessageId)] *)
Definition getMessage (waMessageId : string)
  : Read (option MessageWithContact) :=
  ask (SelectMessage waMessageId).

(** [getConversation(contactWaId, limit = 50)], for an integer [limit]. *)
Definition getConversation (contactWaId : string) (limit : option Z)
  : Read (list MessageWithContact) :=
  ask (SelectConversation contactWaId (defaulting 50 limit)).

Record Stats := {
  totalContacts : Z;
  totalMessages : Z;
  incomingMessages : Z;
  outgoingMessages : Z;
  messagesByType : list TypeCount
}.

(** [row?.count || 0] *)
Definition count_or_zero (row : option Z) : Z :=
  match or_null_int row with
  | Some n => n
  | None => 0
  end.

(** [getStats()].  The five statements of the [Promise.all] are sent in this
    order; none of them writes. *)
Definition getStats : Read Stats :=
  and_then (ask CountContacts) (fun contacts =>
  and_then (ask CountMessages) (fun messages =>
  and_then (ask CountIncoming) (fun incoming =>
  and_then (ask CountOutgoing) (fun outgoing =>
  and_then (ask CountByType) (fun byType =>
  Yield {| totalContacts := count_or_zero contacts;
           totalMessages := count_or_zero messages;
           incomingMessages := count_or_zero incoming;
           outgoingMessages := count_or_zero outgoing;
           messagesByType := byType |}))))).

End DatabaseQueries.

(* ===================================================================== *)
(** ** The data routes ([src/routes/data.ts]) *)
(* ===================================================================== *)

Module DataRoutes.

Import Js Wire Schema D1 Queries DatabaseQueries.

(** [c.json({ success: true, data })] with status 200, or
    [c.json({ success: false, error }, status)]. *)
Inductive Reply (A : Type) : Type :=
| success (data : A)
| failure (status : Z) (error : string).

Arguments success {A} data.
Arguments failure {A} status error.

Definition status_of {A} (r : Reply A) : Z :=
  match r with
  | success _ => 200
  | failure status _ => status
  end.

(** [error.message]; everything the model throws is an [Error]. *)
Definition message_of (e : Exn) : string :=
  match e with
  | RangeError m => m
  | TypeError m => m
  | SyntaxError m => m
  | D1_TYPE_ERROR m => m
  | D1_ERROR m => m
  end.

(** The [catch] block every route ends with. *)
Definition internal_error {A} (error : Exn) : Read (Reply A) :=
  Yield (failure 500 (message_of error)).

(** [data.get('/stats', ...)] *)
Definition get_stats : Read (Reply Stats) :=
  catching
    (and_then getStats (fun stats => Yield (success stats)))
    internal_error.

(** [data.get('/contacts/:waId', ...)] *)
Definition get_contact (waId : string) : Read (Reply ContactRecord) :=
  catching
    (and_then (getContact waId) (fun contact =>
       match contact with
       | None => Yield (failure 404 "Contact not found")
       | Some found => Yield (success found)
       end))
    internal_error.

(** [data.get('/messages/:waMessageId', ...)] *)
Definition get_message (waMessageId : string)
  : Read (Reply MessageWithContact) :=
  catching
    (and_then (getMessage waMessageId) (fun message =>
       match message with
       | None => Yield (failure 404 "Message not found")
       | Some found => Yield (success found)
       end))
    internal_error.

End DataRoutes.

(* ===================================================================== *)
(** ** The verification handshake ([webhook.get] in [webhook.ts]) *)
(* ===================================================================== *)

Module Verification.

Import Js Webhook.

Inductive VerificationLog :=
| log_missing_parameters
| log_verified
| log_invalid_token.

(** [!x] for a query parameter, which is a string or [undefined]. *)
Definition absent (x : option string) : bool :=
  match or_null_string x with
  | Some _ => false
  | None => true
  end.

Definition text_of (x : option string) : string :=
  match x with
  | Some s => s
  | None => EmptyString
  end.

(** [webhook.get('/', ...)]: the line it logs and the response. *)
Definition get (mode token challenge : option string)
  (WHATSAPP_VERIFY_TOKEN : string) : VerificationLog * Response :=
  if absent mode || absent token || absent challenge
  then (log_missing_parameters,
        {| status := 400; body := text "Missing parameters" |})
  else if (text_of mode =? "subscribe")%string
          && (text_of token =? WHATSAPP_VERIFY_TOKEN)%string
  then (log_verified, {| status := 200; body := text (text_of challenge) |})
  else (log_invalid_token, {| status := 403; body := text "Forbidden" |}).

End Verification.

(* ===================================================================== *)
(** ** The middleware in front of the data routes ([middleware/auth.ts]) *)
(* ===================================================================== *)

Module Auth.

(** Here the code looks inside strings ([length], [TextEncoder]), so a
    string is what JavaScript has: a sequence of UTF-16 code units. *)
Definition jsstring : Type := list Z.

(** A literal of the source, all ASCII. *)
Definition literal (s : string) : jsstring :=
  map Js.code (list_ascii_of_string s).

Definition is_high_surrogate (u : Z) : bool := (55296 <=? u) && (u <=? 56319).

Definition is_low_surrogate (u : Z) : bool := (56320 <=? u) && (u <=? 57343).

(** U+FFFD, which stands in for a surrogate without its partner. *)
Definition replacement : list Z := [239; 191; 189].

Definition three_bytes (u : Z) : list Z :=
  [224 + u / 4096; 128 + (u / 64) mod 64; 128 + u mod 64].

Definition four_bytes (cp : Z) : list Z :=
  [240 + cp / 262144; 128 + (cp / 4096) mod 64; 128 + (cp / 64) mod 64;
   128 + cp mod 64].

(** [new TextEncoder().encode(s)]: UTF-8. *)
Fixpoint encode (s : jsstring) : list Z :=
  match s with
  | [] => []
  | u :: rest =>
      if u <? 128 then u :: encode rest
      else if u <? 2048 then (192 + u / 64) :: (128 + u mod 64) :: encode rest
      else if is_high_surrogate u then
        match rest with
        | v :: rest' =>
            if is_low_surrogate v
            then four_bytes (65536 + (u - 55296) * 1024 + (v - 56320))
                   ++ encode rest'
            else replacement ++ encode rest
        | [] => replacement
        end
      else if is_low_surrogate u then replacement ++ encode rest
      else three_bytes u ++ encode rest
  end.

(** The loop of [timingSafeEqual]: [i] runs over the bytes of [a]; a byte
    [b] does not have reads as [undefined], which [^] takes for 0. *)
Fixpoint accumulate (aBytes bBytes : list Z) (i : nat) (result : Z) : Z :=
  match aBytes with
  | [] => result
  | x :: rest =>
      accumulate rest bBytes (S i) (Z.lor result (Z.lxor x (nth i bBytes 0)))
  end.

(** [timingSafeEqual(a, b)] *)
Definition timingSafeEqual (a b : jsstring) : bool :=
  if negb (List.length a =? List.length b)%nat then false
  else accumulate (encode a) (encode b) 0 0 =? 0.

Fixpoint units_eqb (a b : jsstring) : bool :=
  match a, b with
  | [], [] => true
  | x :: a', y :: b' => (x =? y) && units_eqb a' b'
  | _, _ => false
  end.

(** [s] without the prefix [p], when it starts with it. *)
Fixpoint strip_prefix (p s : jsstring) : option jsstring :=
  match p with
  | [] => Some s
  | x :: p' =>
      match s with
      | y :: s' => if x =? y then strip_prefix p' s' else None
      | [] => None
      end
  end.

(** [s.replace(p, '')] for a string pattern: the first occurrence goes. *)
Fixpoint remove_first (p s : jsstring) : jsstring :=
  match strip_prefix p s with
  | Some rest => rest
  | None =>
      match s with
      | [] => []
      | u :: s' => u :: remove_first p s'
      end
  end.

(** [x || y] and [!x] on strings that may be [undefined]. *)
Definition present (x : option jsstring) : option jsstring :=
  match x with
  | Some (u :: s) => Some (u :: s)
  | _ => None
  end.

Definition or_else (x y : option jsstring) : option jsstring :=
  match present x with
  | Some s => Some s
  | None => y
  end.

Inductive Verdict :=
| next
| unauthorized (message : string).

(** The key a request presents:
    [header('X-API-Key') || header('Authorization')?.replace('Bearer ', '')] *)
Definition presented_key (xApiKey authorization : option jsstring)
  : option jsstring :=
  or_else xApiKey
    (option_map (remove_first (literal "Bearer ")) authorization).

(** [apiKeyAuth(c, next)]: [next] stands for handing the request on, any
    [unauthorized] for the 401 response with that message. *)
Definition apiKeyAuth (API_KEY xApiKey authorization : option jsstring)
  : Verdict :=
  match present API_KEY with
  | None => next
  | Some key =>
      match present (presented_key xApiKey authorization) with
      | None =>
          unauthorized
            "API key is required. Provide it via X-API-Key header or Authorization: Bearer <key>"
      | Some apiKey =>
          if negb (timingSafeEqual apiKey key)
          then unauthorized "Invalid API key"
          else next
      end
  end.

(** *** [rateLimit] *)

(** An entry of [requestCounts]. *)
Record Window := { count : Z; resetTime : Z }.

(** [requestCounts], the [Map] every limiter of the module shares. *)
Definition Counters : Type := jsstring -> option Window.

Definition no_counters : Counters := fun _ => None.

Definition set (clientId : jsstring) (w : Window) (m : Counters) : Counters :=
  fun k => if units_eqb k clientId then Some w else m k.

(** [s.split(',')[0]] *)
Fixpoint first_segment (s : jsstring) : jsstring :=
  match s with
  | [] => []
  | u :: rest => if u =? 44 then [] else u :: first_segment rest
  end.

(** The client a request is counted against. *)
Definition client_of (xApiKey cfConnectingIp xForwardedFor : option jsstring)
  : jsstring :=
  match or_else xApiKey
          (or_else cfConnectingIp
             (present (option_map first_segment xForwardedFor))) with
  | Some s => s
  | None => literal "unknown"
  end.

(** [options.x || d] for an integer option. *)
Definition setting (d : Z) (x : option Z) : Z :=
  match Js.or_null_int x with
  | Some n => n
  | None => d
  end.

(** What the limiter answers: the request goes on with the three
    [X-RateLimit-*] headers set, or it is turned away with 429,
    [Retry-After] and a remaining count of 0. *)
Inductive Limited :=
| allowed (limit remaining reset : Z)
| too_many_requests (retryAfter limit reset : Z).

Definition passes (l : Limited) : bool :=
  match l with
  | allowed _ _ _ => true
  | too_many_requests _ _ _ => false
  end.

(** [Math.ceil(x / 1000)] for an integer [x]. *)
Definition ceil_seconds (x : Z) : Z := - ((- x) / 1000).

(** The middleware [rateLimit(options)] returns, run for the client
    [clientId] at [Date.now() = now]; times are integers of milliseconds. *)
Definition rateLimit (windowMs maxRequests : option Z) (clientId : jsstring)
  (now : Z) (requestCounts : Counters) : Limited * Counters :=
  let windowMs := setting 60000 windowMs in
  let maxRequests := setting 100 maxRequests in
  let fresh := {| count := 1; resetTime := now + windowMs |} in
  let let_through (current : Window) (m : Counters) :=
    (allowed maxRequests (Z.max 0 (maxRequests - count current))
       (resetTime current), m) in
  match requestCounts clientId with
  | None => let_through fresh (set clientId fresh requestCounts)
  | Some clientData =>
      if resetTime clientData <? now
      then let_through fresh (set clientId fresh requestCounts)
      else if maxRequests <=? count clientData
      then (too_many_requests (ceil_seconds (resetTime clientData - now))
              maxRequests (resetTime clientData), requestCounts)
      else
        let bumped := {| count := count clientData + 1;
                         resetTime := resetTime clientData |} in
        let_through bumped (set clientId bumped requestCounts)
  end.

(** A run of requests through one limiter, oldest first. *)
Fixpoint serve (windowMs maxRequests : option Z)
  (requests : list (jsstring * Z)) (m : Counters)
  : list Limited * Counters :=
  match requests with
  | [] => ([], m)
  | (clientId, now) :: rest =>
      let (verdict, m') := rateLimit windowMs maxRequests clientId now m in
      let (verdicts, m'') := serve windowMs maxRequests rest m' in
      (verdict :: verdicts, m'')
  end.

End Auth.

(* ===================================================================== *)
(** ** Vocabulary of the properties *)
(* ===================================================================== *)

Import Js Wire Schema D1 Async DatabaseService Webhook.

(** A timestamp the conversion accepts: it starts, after optional white
    space and sign, with digits that give a number of seconds inside the
    range of [Date]. *)
Definition epoch_seconds (ts : string) : bool :=
  match unix_to_iso ts with
  | Some _ => true
  | None => false
  end.


(** What the schema promises of every state of the database: the three
    [UNIQUE] columns hold no value twice, and the three foreign keys point
    at rows that exist. *)
Record consistent (st : Store) : Prop := {
  unique_wa_id : NoDup (map c_wa_id (contacts st));
  unique_wa_message_id : NoDup (map m_wa_message_id (messages st));
  unique_wa_conversation_id :
    NoDup (map cv_wa_conversation_id (conversations st));
  messages_contact_fk :
    forall m, In m (messages st) ->
              has_id c_id (m_contact_id m) (contacts st) = true;
  conversations_contact_fk :
    forall c, In c (conversations st) ->
              has_id c_id (cv_contact_id c) (contacts st) = true;
  interactive_message_fk :
    forall r, In r (interactive_responses st) ->
              has_id m_id (r_message_id r) (messages st) = true
}.

(** The row [updateMessageStatus] appends to the history. *)
Definition history_row (st : Store) (status : MessageStatus) (t : string)
  : StatusRow :=
  {| s_id := next_id s_id (message_statuses st);
     s_wa_message_id := ms_id status;
     s_status := ms_status status;
     s_timestamp := t;
     s_error_code := or_null_int (chain (first_error status) we_code);
     s_error_message := or_null_string (chain (first_error status) we_message);
     s_created_at := now st |}.

(** Status callbacks applied one after the other, each at its own wall-clock
    time; the results of the calls are collected in order. *)
Fixpoint apply_statuses (events : list (string * MessageStatus)) (st : Store)
  : list (Result unit) * Store :=
  match events with
  | [] => ([], st)
  | (clock, status) :: rest =>
      let r := run d1 (updateMessageStatus status) (set_now clock st) [] in
      let (results, st') := apply_statuses rest (store_of r) in
      (result_of r :: results, st')
  end.

(** The items of a notification, in the order the route meets them: entry by
    entry, change by change (those of the [messages] field), the messages of
    a change before its statuses. *)
Inductive Item :=
| item_message (message : IncomingMessage) (value : WebhookValue)
| item_status (status : MessageStatus).

Definition list_of {A} (xs : option (list A)) : list A :=
  match xs with
  | Some l => l
  | None => []
  end.

Definition items_of_value (value : WebhookValue) : list Item :=
  map (fun m => item_message m value) (list_of (wv_messages value))
    ++ map item_status (list_of (wv_statuses value)).

Definition items_of_change (change : WebhookChange) : list Item :=
  if (wch_field change =? "messages")%string
  then items_of_value (wch_value change)
  else [].

Definition items_of (payload : WebhookPayload) : list Item :=
  flat_map (fun entry => flat_map items_of_change (we_changes entry))
    (wp_entry payload).

(** The store after the service call an item stands for, whether the call
    returned or threw. *)
Definition persist {W} (h : Handler W) (Number_toString : number -> string)
  (w : W) (item : Item) : W :=
  match item with
  | item_message message value =>
      after h
        (saveIncomingMessage Number_toString message (sender_of message value))
        w
  | item_status status => after h (updateMessageStatus status) w
  end.

(** A call that upserts the contact [waId]: the upsert itself, or the save
    of a message sent from that address. *)
Inductive upserts (waId : string) : Thread -> Prop :=
| upserts_contact :
    forall name, upserts waId (thread (findOrCreateContact waId name))
| upserts_message :
    forall Number_toString message contact,
      im_from message = waId ->
      upserts waId
        (thread (saveIncomingMessage Number_toString message contact)).

(** What is known of a call that started as [t0] and has become [t]: if it
    started as an upsert of [waId], the row is there or the call still has
    to secure it. *)
Definition covered (waId : string) (st : Store) (t0 t : Thread) : Prop :=
  upserts waId t0 ->
  existsb (has_key c_wa_id waId) (contacts st) = true \/ thread_secures waId t.

(** The primary keys: no id occurs twice in its table. *)
Record keyed (st : Store) : Prop := {
  contact_ids : NoDup (map c_id (contacts st));
  message_ids : NoDup (map m_id (messages st));
  status_ids : NoDup (map s_id (message_statuses st));
  conversation_ids : NoDup (map cv_id (conversations st));
  interactive_ids : NoDup (map r_id (interactive_responses st))
}.

(** [name || stored]: the name a contact has after an upsert that supplied
    [name]. *)
Definition name_after (name stored : option string) : option string :=
  or_else_string name stored.

(** The rows the block under "Save interactive response if applicable" adds
    for a message that has just been saved as [saved]. *)
Definition selection_rows (st : Store) (message : IncomingMessage)
  (saved : MessageRecord) : list InteractiveRow :=
  if (im_type message =? "interactive")%string then
    match chain_opt (im_interactive message)
            (fun i => option_map (fun s => (i, s)) (selected_response i)) with
    | Some (i, (rid, rtitle, rdescription)) =>
        [{| r_id := next_id r_id (interactive_responses st);
            r_message_id := m_id saved;
            r_response_type := ir_type i;
            r_response_id := rid;
            r_response_title := rtitle;
            r_response_description := rdescription;
            r_created_at := now st |}]
    | None => []
    end
  else [].

(** The profile name a webhook contact carries. *)
Definition profile_of (contact : option WebhookContact) : option string :=
  chain contact (fun c => profile_name (wc_profile c)).

(** A list in the order [ORDER BY key DESC] asks for: no row is followed by
    one with a greater key. *)
Definition descending {A} (le : A -> A -> bool) : list A -> Prop :=
  Sorted (fun a b => le b a = true).

(** The counts of a [GROUP BY], added up. *)
Definition sum_counts (rows : list Queries.TypeCount) : Z :=
  fold_right Z.add 0 (map Queries.tc_count rows).

(** The options of [getMessages] that only name a contact and a limit. *)
Definition only_contact (waId : string) (limit : option Z)
  : DatabaseQueries.MessageOptions :=
  {| DatabaseQueries.mo_contactWaId := Some waId;
     DatabaseQueries.mo_direction := None;
     DatabaseQueries.mo_type := None;
     DatabaseQueries.mo_limit := limit;
     DatabaseQueries.mo_offset := None;
     DatabaseQueries.mo_startDate := None;
     DatabaseQueries.mo_endDate := None |}.

(* ===================================================================== *)
(** ** Scenarios *)
(* ===================================================================== *)

(** No scenario below serialises a number, so any rendering of numbers
    serves to run them. *)
Definition scenario_toString (x : number) : string := EmptyString.

Definition plain_message (from id timestamp type : string)
  (text : option TextContent) : IncomingMessage :=
  {| im_from := from; im_id := id; im_timestamp := timestamp;
     im_type := type; im_text := text; im_image := None; im_video := None;
     im_audio := None; im_document := None; im_sticker := None;
     im_location := None; im_contacts := None; im_interactive := None;
     im_button := None; im_context := None; im_referral := None;
     im_extra := [] |}.

(** Scenario A of the specification: an inbound text from 1555. *)
Definition message_A : IncomingMessage :=
  plain_message "1555" "wamid.A" "1700000000" "text"
    (Some {| text_body := "hi" |}).

(** The same id delivered again with another body (scenario E). *)
Definition message_A_again : IncomingMessage :=
  plain_message "1555" "wamid.A" "1700000000" "text"
    (Some {| text_body := "hello" |}).

Definition contact_1555 : WebhookContact :=
  {| wc_profile := {| profile_name := "Ada" |}; wc_wa_id := "1555" |}.

Definition store_0 : Store := empty_store "2023-11-14 22:13:21".

(** The store once scenario A has been ingested. *)
Definition store_A : Store :=
  after d1 (saveIncomingMessage scenario_toString message_A
              (Some contact_1555)) store_0.

(** A reaction, a kind the [switch] has no [case] for; its payload sits in
    a property the interface does not declare. *)
Definition message_reaction : IncomingMessage :=
  {| im_from := "1555"; im_id := "wamid.R"; im_timestamp := "1700000060";
     im_type := "reaction"; im_text := None; im_image := None;
     im_video := None; im_audio := None; im_document := None;
     im_sticker := None; im_location := None; im_contacts := None;
     im_interactive := None; im_button := None; im_context := None;
     im_referral := None;
     im_extra :=
       [("reaction",
         JObj [("message_id", JStr "wamid.A"); ("emoji", JStr "+1")])] |}.



Definition status_event (id : string) (status : DeliveryStatus)
  (timestamp : string) (conversation : option Conversation) : MessageStatus :=
  {| ms_id := id; ms_status := status; ms_timestamp := timestamp;
     ms_recipient_id := "1555"; ms_conversation := conversation;
     ms_pricing := None; ms_errors := None |}.

Definition window_1 : Conversation :=
  {| conv_id := "conv.1";
     conv_origin := {| origin_type := user_initiated |};
     conv_expiration_timestamp := Some "1700086400" |}.

(** Scenario D: a status for an id that was never stored. *)
Definition status_unknown : MessageStatus :=
  status_event "wamid.ZZZ" st_delivered "1700000000" (Some window_1).

(** A store that is down: every statement is rejected. *)
Definition unavailable : Handler unit :=
  fun B _ w => (Err (D1_ERROR "D1_ERROR: Network connection lost."), w).

Definition value_of (messages : list IncomingMessage)
  (statuses : list MessageStatus) : WebhookValue :=
  {| wv_messaging_product := "whatsapp";
     wv_metadata := {| md_display_phone_number := "15550001111";
                       md_phone_number_id := "100200300" |};
     wv_contacts := Some [contact_1555];
     wv_messages := Some messages;
     wv_statuses := Some statuses;
     wv_errors := None |}.

Definition notification (object : string) (values : list WebhookValue)
  : WebhookPayload :=
  {| wp_object := object;
     wp_entry :=
       [{| we_id := "entry.1";
           we_changes :=
             map (fun v => {| wch_value := v; wch_field := "messages" |})
               values |}] |}.

(** One notification, two changes: scenario A, the same id once more, a
    status for an unknown id carrying a date that does not parse, then a
    reaction and a status for scenario A's message. *)
Definition batch : WebhookPayload :=
  notification "whatsapp_business_account"
    [value_of [message_A; message_A_again]
       [status_event "wamid.ZZZ" st_sent "yesterday" None];
     value_of [message_reaction]
       [status_event "wamid.A" st_read "1700000180" (Some window_1)]].

Definition page_event : WebhookPayload :=
  notification "page" [value_of [message_A] []].

(** Two webhook calls in flight for the same new sender.  Each call takes
    one turn, then each a second one: both look the contact up before either
    inserts it. *)
Definition race : Machine :=
  schedule [0; 1; 0; 1]%nat
    {| disk := store_0; stdout := [];
       calls := [thread (findOrCreateContact "1555" (Some "Ada"));
                 thread (findOrCreateContact "1555" None)] |}.


(** After scenario A, a reaction and a read receipt in flight together, the
    two calls taking turns. *)
Definition busy : Machine :=
  schedule [0; 1; 0; 1; 0; 1; 0; 1]%nat
    {| disk := store_A; stdout := [];
       calls := [thread (saveIncomingMessage scenario_toString
                           message_reaction None);
                 thread (updateMessageStatus
                           (status_event "wamid.A" st_read "1700000100"
                              None))] |}.

(** Three requests from one address, each under another key. *)
Definition rotating_keys
  : list (Auth.jsstring * option Auth.jsstring * option Auth.jsstring * Z) :=
  [(Auth.literal "k1", Some (Auth.literal "10.0.0.1"), None, 0);
   (Auth.literal "k2", Some (Auth.literal "10.0.0.1"), None, 1);
   (Auth.literal "k3", Some (Auth.literal "10.0.0.1"), None, 2)].

(** A first message from 1777 whose timestamp is not a number. *)
Definition message_undated : IncomingMessage :=
  plain_message "1777" "wamid.U" "soon" "text"
    (Some {| text_body := "hello" |}).

(** A notification that holds nothing but that message. *)
Definition undated_event : WebhookPayload :=
  notification "whatsapp_business_account" [value_of [message_undated] []].




(** An outbound document, with every option set. *)
Definition document_options : OutgoingOptions :=
  {| oo_mediaId := Some "media.7"; oo_caption := Some "Invoice";
     oo_filename := Some "invoice.pdf"; oo_latitude := None;
     oo_longitude := None; oo_locationName := None;
     oo_locationAddress := None; oo_replyToMessageId := Some "wamid.A" |}.

(* ===================================================================== *)
(** ** Lists and keys *)
(* ===================================================================== *)

Local Open Scope list_scope.

Lemma find_none_existsb {A} (f : A -> bool) (l : list A) :
  find f l = None -> existsb f l = false.
Proof.
  induction l as [|x l IH]; simpl; [reflexivity|].
  destruct (f x); [discriminate | exact IH].
Qed.

Lemma find_some_existsb {A} (f : A -> bool) (l : list A) (x : A) :
  find f l = Some x -> existsb f l = true.
Proof.
  intros H. apply find_some in H. apply existsb_exists.
  exists x. exact H.
Qed.

Lemma has_key_true {A} (key : A -> string) (k : string) (r : A) :
  has_key key k r = true <-> key r = k.
Proof. unfold has_key. apply String.eqb_eq. Qed.

Lemma has_key_false {A} (key : A -> string) (k : string) (r : A) :
  has_key key k r = false <-> key r <> k.
Proof. unfold has_key. apply String.eqb_neq. Qed.

Lemma existsb_has_key_in {A} (key : A -> string) (k : string) (l : list A) :
  existsb (has_key key k) l = true <-> In k (map key l).
Proof.
  rewrite existsb_exists, in_map_iff. split.
  - intros [x [Hin Hk]]. exists x. split; [|exact Hin].
    apply has_key_true. exact Hk.
  - intros [x [Hk Hin]]. exists x. split; [exact Hin|].
    apply has_key_true. exact Hk.
Qed.

Lemma existsb_has_key_not_in {A} (key : A -> string) (k : string)
  (l : list A) :
  existsb (has_key key k) l = false <-> ~ In k (map key l).
Proof.
  rewrite <- existsb_has_key_in.
  destruct (existsb (has_key key k) l); split; intros H;
    try reflexivity; try discriminate; try (intros X; discriminate).
  exfalso. apply H. reflexivity.
Qed.

Lemma count_key_app {A} (key : A -> string) (k : string) (l1 l2 : list A) :
  count_key key k (l1 ++ l2) = (count_key key k l1 + count_key key k l2)%nat.
Proof. unfold count_key. rewrite filter_app, length_app. reflexivity. Qed.

Lemma count_key_absent {A} (key : A -> string) (k : string) (l : list A) :
  existsb (has_key key k) l = false -> count_key key k l = 0%nat.
Proof.
  unfold count_key. induction l as [|x l IH]; simpl; [reflexivity|].
  destruct (has_key key k x); simpl; [discriminate | exact IH].
Qed.

(** A value of a [UNIQUE] column selects exactly one row once it is there. *)
Lemma count_key_unique {A} (key : A -> string) (k : string) (l : list A) :
  NoDup (map key l) ->
  existsb (has_key key k) l = true ->
  count_key key k l = 1%nat.
Proof.
  unfold count_key. induction l as [|x l IH]; simpl; [discriminate|].
  intros Hnd Hex. inversion Hnd as [|? ? Hnotin Hnd']; subst.
  destruct (has_key key k x) eqn:Hx; simpl.
  - apply has_key_true in Hx. subst k.
    apply existsb_has_key_not_in in Hnotin.
    apply count_key_absent in Hnotin. unfold count_key in Hnotin.
    rewrite Hnotin. reflexivity.
  - simpl in Hex. apply IH; assumption.
Qed.

Lemma count_key_all {A} (key : A -> string) (k : string) (l : list A) :
  Forall (fun r => key r = k) l -> count_key key k l = List.length l.
Proof.
  unfold count_key. induction 1 as [|x l Hx _ IH]; simpl; [reflexivity|].
  apply has_key_true in Hx. rewrite Hx. simpl. rewrite IH. reflexivity.
Qed.

Lemma has_id_app {A} (id : A -> Z) (k : Z) (l1 l2 : list A) :
  has_id id k l1 = true -> has_id id k (l1 ++ l2) = true.
Proof.
  unfold has_id. rewrite existsb_app. intros ->. reflexivity.
Qed.

Lemma has_id_in {A} (id : A -> Z) (r : A) (l : list A) :
  In r l -> has_id id (id r) l = true.
Proof.
  intros Hin. unfold has_id. apply existsb_exists.
  exists r. split; [exact Hin | apply Z.eqb_refl].
Qed.

Lemma has_id_last {A} (id : A -> Z) (r : A) (l : list A) :
  has_id id (id r) (l ++ [r]) = true.
Proof. apply has_id_in. apply in_or_app. right. left. reflexivity. Qed.

Lemma has_id_map {A} (id : A -> Z) (f : A -> A) (k : Z) (l : list A) :
  (forall r, id (f r) = id r) ->
  has_id id k (map f l) = has_id id k l.
Proof.
  intros Hf. unfold has_id. induction l as [|x l IH]; simpl; [reflexivity|].
  rewrite Hf, IH. reflexivity.
Qed.

Lemma map_key_update_where {A B} (key : A -> string) (g : A -> B)
  (k : string) (f : A -> A) (l : list A) :
  (forall r, g (f r) = g r) ->
  map g (update_where key k f l) = map g l.
Proof.
  intros Hf. unfold update_where. rewrite map_map. apply map_ext.
  intros r. destruct (has_key key k r); [apply Hf | reflexivity].
Qed.

Lemma has_id_update_where {A} (key : A -> string) (id : A -> Z) (k : string)
  (f : A -> A) (n : Z) (l : list A) :
  (forall r, id (f r) = id r) ->
  has_id id n (update_where key k f l) = has_id id n l.
Proof.
  intros Hf. unfold update_where. apply has_id_map.
  intros r. destruct (has_key key k r); [apply Hf | reflexivity].
Qed.

Lemma existsb_update_where {A} (key : A -> string) (k k' : string)
  (f : A -> A) (l : list A) :
  (forall r, key (f r) = key r) ->
  existsb (has_key key k') (update_where key k f l)
  = existsb (has_key key k') l.
Proof.
  intros Hf. unfold update_where. induction l as [|x l IH]; simpl;
    [reflexivity|].
  rewrite IH. f_equal. unfold has_key at 1 3.
  destruct (has_key key k x); [rewrite Hf|]; reflexivity.
Qed.

Lemma update_where_absent {A} (key : A -> string) (k : string) (f : A -> A)
  (l : list A) :
  existsb (has_key key k) l = false -> update_where key k f l = l.
Proof.
  unfold update_where. induction l as [|x l IH]; simpl; [reflexivity|].
  destruct (has_key key k x); simpl; [discriminate|].
  intros H. rewrite IH by exact H. reflexivity.
Qed.

Lemma update_where_twice {A} (key : A -> string) (k : string) (f g : A -> A)
  (l : list A) :
  (forall r, key (f r) = key r) ->
  (forall r, g (f r) = g r) ->
  update_where key k g (update_where key k f l) = update_where key k g l.
Proof.
  intros Hkey Hgf. unfold update_where. rewrite map_map. apply map_ext.
  intros r. destruct (has_key key k r) eqn:Hr.
  - unfold has_key in *. rewrite Hkey, Hr. apply Hgf.
  - rewrite Hr. reflexivity.
Qed.

(* ===================================================================== *)
(** ** Running programs *)
(* ===================================================================== *)

Section Running.

Context {W : Type} (h : Handler W).

Lemma run_bind {A B} (p : Prog A) (f : A -> Prog B) (w : W)
  (out : list ConsoleLine) :
  run h (bind p f) w out =
  match run h p w out with
  | (Ok a, w', out') => run h (f a) w' out'
  | (Err e, w', out') => (Err e, w', out')
  end.
Proof.
  revert w out. induction p as [a|e|T q k IH|l k IH]; simpl; intros w out.
  - reflexivity.
  - reflexivity.
  - destruct (h T q w) as [r w']. apply IH.
  - apply IH.
Qed.

Lemma run_try_catch {A} (p : Prog A) (g : Exn -> Prog A) (w : W)
  (out : list ConsoleLine) :
  run h (try_catch p g) w out =
  match run h p w out with
  | (Ok a, w', out') => (Ok a, w', out')
  | (Err e, w', out') => run h (g e) w' out'
  end.
Proof.
  revert w out. induction p as [a|e|T q k IH|l k IH]; simpl; intros w out.
  - reflexivity.
  - reflexivity.
  - destruct (h T q w) as [r w']. apply IH.
  - apply IH.
Qed.

Lemma run_await {B} (q : Stmt B) (w : W) (out : list ConsoleLine) :
  run h (await q) w out = (fst (h B q w), snd (h B q w), out).
Proof.
  unfold await. simpl. destruct (h B q w) as [[b|e] w']; reflexivity.
Qed.

Lemma run_console (l : ConsoleLine) (w : W) (out : list ConsoleLine) :
  run h (console l) w out = (Ok tt, w, out ++ [l]).
Proof. reflexivity. Qed.

(** The console is write-only: what is already on it changes neither the
    result nor the store, and it only grows. *)
Lemma run_console_frame {A} (p : Prog A) (w : W) (out : list ConsoleLine) :
  run h p w out =
  (result_of (run h p w []), store_of (run h p w []),
   out ++ console_of (run h p w [])).
Proof.
  revert w out. induction p as [a|e|T q k IH|l k IH]; simpl; intros w out.
  - rewrite app_nil_r. reflexivity.
  - rewrite app_nil_r. reflexivity.
  - destruct (h T q w) as [r w']. apply IH.
  - rewrite (IH w (out ++ [l])), (IH w [l]).
    unfold result_of, store_of, console_of. simpl.
    rewrite <- app_assoc. reflexivity.
Qed.

Lemma store_of_run {A} (p : Prog A) (w : W) (out : list ConsoleLine) :
  store_of (run h p w out) = after h p w.
Proof. rewrite run_console_frame. reflexivity. Qed.

(** A loop whose body never throws visits every element, threading the
    store through the bodies in order. *)
Lemma run_for_of {A} (xs : list A) (body : A -> Prog unit) :
  (forall x w out, result_of (run h (body x) w out) = Ok tt) ->
  forall w out,
    result_of (run h (for_of xs body) w out) = Ok tt
    /\ store_of (run h (for_of xs body) w out)
       = fold_left (fun w' x => after h (body x) w') xs w.
Proof.
  intros Hbody. induction xs as [|x xs IH]; intros w out; simpl.
  - split; reflexivity.
  - rewrite run_bind.
    pose proof (Hbody x w out) as Hx.
    pose proof (store_of_run (body x) w out) as Hs.
    destruct (run h (body x) w out) as [[r w'] out'].
    unfold result_of, store_of in Hx, Hs. simpl in Hx, Hs. subst r w'.
    apply IH.
Qed.

End Running.

(* ===================================================================== *)
(** ** The schema's constraints hold after every statement *)
(* ===================================================================== *)

Lemma NoDup_snoc {A} (l : list A) (x : A) :
  NoDup l -> ~ In x l -> NoDup (l ++ [x]).
Proof.
  induction l as [|y l IH]; simpl; intros Hnd Hnot.
  - constructor; [intros [] | constructor].
  - inversion Hnd as [|? ? Hy Hl]; subst. constructor.
    + intros Hin. apply in_app_or in Hin. destruct Hin as [Hin|[Heq|[]]].
      * apply Hy. exact Hin.
      * apply Hnot. left. symmetry. exact Heq.
    + apply IH; [exact Hl|]. intros Hin. apply Hnot. right. exact Hin.
Qed.

Lemma NoDup_key_snoc {A} (key : A -> string) (l : list A) (r : A) :
  NoDup (map key l) ->
  existsb (has_key key (key r)) l = false ->
  NoDup (map key (l ++ [r])).
Proof.
  intros Hnd Hex. rewrite map_app. simpl. apply NoDup_snoc; [exact Hnd|].
  apply existsb_has_key_not_in. exact Hex.
Qed.

Lemma touch_contact_id name clock c :
  c_id (touch_contact name clock c) = c_id c.
Proof. reflexivity. Qed.

Lemma touch_contact_wa_id name clock c :
  c_wa_id (touch_contact name clock c) = c_wa_id c.
Proof. reflexivity. Qed.

Lemma set_status_id s m : m_id (set_status s m) = m_id m.
Proof. reflexivity. Qed.

Lemma set_status_wa_message_id s m :
  m_wa_message_id (set_status s m) = m_wa_message_id m.
Proof. reflexivity. Qed.

Lemma set_status_contact_id s m :
  m_contact_id (set_status s m) = m_contact_id m.
Proof. reflexivity. Qed.

Lemma in_update_where {A} (key : A -> string) (k : string) (f : A -> A)
  (l : list A) (r : A) :
  In r (update_where key k f l) -> exists r0, In r0 l /\ (r = r0 \/ r = f r0).
Proof.
  unfold update_where. rewrite in_map_iff. intros [r0 [Heq Hin]].
  exists r0. split; [exact Hin|].
  destruct (has_key key k r0); [right | left]; symmetry; exact Heq.
Qed.

Lemma insert_message_consistent st waMessageId contactId row :
  m_wa_message_id row = waMessageId ->
  m_contact_id row = contactId ->
  consistent st ->
  consistent (snd (insert_message st waMessageId contactId row)).
Proof.
  intros Hk Hc Hst. unfold insert_message.
  destruct (existsb (has_key m_wa_message_id waMessageId) (messages st))
    eqn:Hdup; [exact Hst|].
  destruct (has_id c_id contactId (contacts st)) eqn:Hfk; simpl;
    [|exact Hst].
  destruct Hst as [H1 H2 H3 H4 H5 H6]. constructor; simpl; auto.
  - apply NoDup_key_snoc; [exact H2|]. rewrite Hk. exact Hdup.
  - intros m Hin. apply in_app_or in Hin. destruct Hin as [Hin|[<-|[]]].
    + apply H4. exact Hin.
    + rewrite Hc. exact Hfk.
  - intros r Hin. apply has_id_app. apply H6. exact Hin.
Qed.

Lemma exec_consistent {B} (q : Stmt B) (st : Store) :
  consistent st -> consistent (snd (exec q st)).
Proof.
  intros Hst. destruct q; simpl; try exact Hst.
  - (* UPDATE contacts *)
    destruct Hst as [H1 H2 H3 H4 H5 H6]. constructor; simpl; auto.
    + rewrite map_key_update_where; [exact H1 | reflexivity].
    + intros m Hin. rewrite has_id_update_where; [auto | reflexivity].
    + intros c Hin. rewrite has_id_update_where; [auto | reflexivity].
  - (* INSERT INTO contacts *)
    destruct (existsb (has_key c_wa_id waId) (contacts st)) eqn:Hdup;
      [exact Hst|].
    destruct Hst as [H1 H2 H3 H4 H5 H6]. constructor; simpl; auto.
    + apply NoDup_key_snoc; [exact H1 | exact Hdup].
    + intros m Hin. apply has_id_app. auto.
    + intros c Hin. apply has_id_app. auto.
  - (* INSERT INTO messages, incoming *)
    apply insert_message_consistent; [reflexivity | reflexivity | exact Hst].
  - (* INSERT INTO messages, outgoing *)
    apply insert_message_consistent; [reflexivity | reflexivity | exact Hst].
  - (* UPDATE messages *)
    destruct Hst as [H1 H2 H3 H4 H5 H6]. constructor; simpl; auto.
    + rewrite map_key_update_where; [exact H2 | reflexivity].
    + intros m Hin. apply in_update_where in Hin.
      destruct Hin as [m0 [Hin [->| ->]]]; [|rewrite set_status_contact_id];
        auto.
    + intros r Hin. rewrite has_id_update_where; [auto | reflexivity].
  - (* INSERT INTO message_statuses *)
    destruct Hst as [H1 H2 H3 H4 H5 H6]. constructor; simpl; auto.
  - (* INSERT OR IGNORE INTO conversations *)
    destruct (existsb (has_key cv_wa_conversation_id waConversationId)
                (conversations st)) eqn:Hdup; [exact Hst|].
    destruct (has_id c_id contactId (contacts st)) eqn:Hfk; simpl;
      [|exact Hst].
    destruct Hst as [H1 H2 H3 H4 H5 H6]. constructor; simpl; auto.
    + apply NoDup_key_snoc; [exact H3 | exact Hdup].
    + intros c Hin. apply in_app_or in Hin. destruct Hin as [Hin|[<-|[]]].
      * auto.
      * exact Hfk.
  - (* INSERT INTO interactive_responses *)
    destruct (has_id m_id messageId (messages st)) eqn:Hfk; simpl;
      [|exact Hst].
    destruct Hst as [H1 H2 H3 H4 H5 H6]. constructor; simpl; auto.
    intros r Hin. apply in_app_or in Hin. destruct Hin as [Hin|[<-|[]]].
    + auto.
    + exact Hfk.
Qed.

Lemma set_now_consistent clock st :
  consistent st -> consistent (set_now clock st).
Proof. intros [H1 H2 H3 H4 H5 H6]. constructor; simpl; auto. Qed.

Lemma empty_store_consistent clock : consistent (empty_store clock).
Proof.
  constructor; simpl; try constructor; intros ? [].
Qed.

(** A call run on its own keeps the constraints. *)
Lemma run_consistent {A} (p : Prog A) (st : Store) (out : list ConsoleLine) :
  consistent st -> consistent (store_of (run d1 p st out)).
Proof.
  revert st out. induction p as [a|e|T q k IH|l k IH]; simpl; intros st out Hst.
  - exact Hst.
  - exact Hst.
  - unfold d1. pose proof (exec_consistent q st Hst) as Hq.
    destruct (exec q st) as [r st']. apply IH. exact Hq.
  - apply IH. exact Hst.
Qed.

Lemma after_consistent {A} (p : Prog A) (st : Store) :
  consistent st -> consistent (after d1 p st).
Proof. apply run_consistent. Qed.

(** So does every interleaving of calls. *)
Lemma step_consistent m1 m2 :
  step m1 m2 -> consistent (disk m1) -> consistent (disk m2).
Proof.
  intros Hstep. destruct Hstep; simpl; intros Hst.
  - apply exec_consistent. exact Hst.
  - exact Hst.
  - apply set_now_consistent. exact Hst.
Qed.

Lemma steps_consistent m1 m2 :
  steps m1 m2 -> consistent (disk m1) -> consistent (disk m2).
Proof.
  induction 1 as [m|m1 m2 m3 Hstep _ IH]; intros Hst; [exact Hst|].
  apply IH. apply (step_consistent m1 m2 Hstep Hst).
Qed.

(* ===================================================================== *)
(** ** The service methods, run against the store *)
(* ===================================================================== *)

(** The two ways through [findOrCreateContact]. *)
Lemma findOrCreateContact_run (waId : string) (name : option string)
  (st : Store) (out : list ConsoleLine) :
  run d1 (findOrCreateContact waId name) st out =
  match find (has_key c_wa_id waId) (contacts st) with
  | Some found =>
      (Ok (Some (with_name (or_else_string name (c_name found)) found)),
       set_contacts
         (update_where c_wa_id waId
            (touch_contact (or_null_string name) (now st)) (contacts st)) st,
       out)
  | None =>
      (Ok (Some (new_contact st waId (or_null_string name) waId)),
       set_contacts
         (contacts st ++ [new_contact st waId (or_null_string name) waId]) st,
       out)
  end.
Proof.
  unfold findOrCreateContact. simpl.
  destruct (find (has_key c_wa_id waId) (contacts st)) as [found|] eqn:Hfind;
    simpl.
  - reflexivity.
  - rewrite (find_none_existsb _ _ Hfind). reflexivity.
Qed.

(** What the upsert leaves behind: only [contacts] changes, the address has
    a row, and the record handed back names a row of the table. *)
Lemma findOrCreateContact_spec (waId : string) (name : option string)
  (st : Store) (out : list ConsoleLine) :
  exists c st',
    run d1 (findOrCreateContact waId name) st out = (Ok (Some c), st', out)
    /\ st' = set_contacts (contacts st') st
    /\ has_id c_id (c_id c) (contacts st') = true
    /\ existsb (has_key c_wa_id waId) (contacts st') = true.
Proof.
  rewrite findOrCreateContact_run.
  destruct (find (has_key c_wa_id waId) (contacts st)) as [found|] eqn:Hfind.
  - eexists. eexists. split; [reflexivity|]. simpl. repeat split.
    + rewrite has_id_update_where by reflexivity.
      apply has_id_in. apply find_some in Hfind. apply Hfind.
    + rewrite existsb_update_where by reflexivity.
      apply (find_some_existsb _ _ _ Hfind).
  - eexists. eexists. split; [reflexivity|]. simpl. repeat split.
    + apply (has_id_last c_id
               (new_contact st waId (or_null_string name) waId)).
    + rewrite existsb_app. simpl. unfold has_key at 2. simpl.
      rewrite String.eqb_refl. apply orb_true_r.
Qed.


(** A message whose id is already stored: the [INSERT] is rejected, after
    the contact has been upserted. *)
Lemma saveIncomingMessage_duplicate nts message contact st out :
  existsb (has_key m_wa_message_id (im_id message)) (messages st) = true ->
  exists e st',
    run d1 (saveIncomingMessage nts message contact) st out = (Err e, st', out)
    /\ st' = set_contacts (contacts st') st
    /\ existsb (has_key c_wa_id (im_from message)) (contacts st') = true
    /\ (epoch_seconds (im_timestamp message) = true ->
        content (extract nts message) <> js_undefined ->
        e = unique_failed "messages.wa_message_id").
Proof.
  intros Hdup. unfold saveIncomingMessage. rewrite run_bind.
  destruct (findOrCreateContact_spec (im_from message)
              (chain contact (fun c => profile_name (wc_profile c))) st out)
    as [c [st1 [Hrun [Hst1 [_ Hrow]]]]].
  rewrite Hrun. clear Hrun.
  remember (extract nts message) as x eqn:Hx.
  unfold epoch_seconds, iso_timestamp.
  destruct (unix_to_iso (im_timestamp message)) as [t|].
  2:{ simpl. eexists. eexists. split; [reflexivity|].
      split; [exact Hst1|]. split; [exact Hrow | discriminate]. }
  cbn [bind contact_id_of].
  assert (Hm1 : messages st1 = messages st) by (rewrite Hst1; reflexivity).
  destruct (content x) eqn:Hc; cbn [bind bind_content].
  - eexists. eexists. split; [reflexivity|]. split; [exact Hst1|].
    split; [exact Hrow|]. intros _ H. contradiction.
  - rewrite run_bind, run_await. unfold d1. cbn [exec]. unfold insert_message.
    cbn [iv_wa_message_id]. rewrite Hm1, Hdup. cbn [fst snd].
    eexists. eexists. split; [reflexivity|]. split; [exact Hst1|].
    split; [exact Hrow | reflexivity].
  - rewrite run_bind, run_await. unfold d1. cbn [exec]. unfold insert_message.
    cbn [iv_wa_message_id]. rewrite Hm1, Hdup. cbn [fst snd].
    eexists. eexists. split; [reflexivity|]. split; [exact Hst1|].
    split; [exact Hrow | reflexivity].
Qed.


(** *** The join behind the conversation insert *)

Lemma flat_map_update_where {A B} (key : A -> string) (k : string)
  (f : A -> A) (g : A -> list B) (l : list A) :
  (forall r, g (f r) = g r) ->
  flat_map g (update_where key k f l) = flat_map g l.
Proof.
  intros Hg. unfold update_where. induction l as [|x l IH]; simpl;
    [reflexivity|].
  rewrite IH. f_equal. destruct (has_key key k x); [apply Hg | reflexivity].
Qed.

Lemma join_after_status_update st k s l waMessageId :
  join_contact_of_message
    (set_message_statuses l
       (set_messages (update_where m_wa_message_id k (set_status s)
                        (messages st)) st))
    waMessageId
  = join_contact_of_message st waMessageId.
Proof.
  unfold join_contact_of_message. simpl. apply flat_map_ext. intros c.
  apply flat_map_update_where. intros m. reflexivity.
Qed.

Lemma join_has_id st waMessageId cid :
  hd_error (join_contact_of_message st waMessageId) = Some cid ->
  has_id c_id cid (contacts st) = true.
Proof.
  intros Hhd.
  assert (Hin : In cid (join_contact_of_message st waMessageId)).
  { destruct (join_contact_of_message st waMessageId); [discriminate|].
    injection Hhd as ->. left. reflexivity. }
  unfold join_contact_of_message in Hin. apply in_flat_map in Hin.
  destruct Hin as [c [Hc Hin]]. apply in_flat_map in Hin.
  destruct Hin as [m [Hm Hin]].
  destruct ((m_contact_id m =? c_id c)
            && has_key m_wa_message_id waMessageId m);
    [|destruct Hin].
  destruct Hin as [<-|[]]. apply has_id_in. exact Hc.
Qed.

Lemma join_nonempty st waMessageId :
  existsb (has_key m_wa_message_id waMessageId) (messages st) = true ->
  (forall m, In m (messages st) ->
             has_id c_id (m_contact_id m) (contacts st) = true) ->
  exists cid, hd_error (join_contact_of_message st waMessageId) = Some cid.
Proof.
  intros Hex Hfk. apply existsb_exists in Hex. destruct Hex as [m [Hm Hkey]].
  pose proof (Hfk m Hm) as Hc. unfold has_id in Hc.
  apply existsb_exists in Hc. destruct Hc as [c [Hc Hid]].
  assert (Hin : In (c_id c) (join_contact_of_message st waMessageId)).
  { unfold join_contact_of_message. apply in_flat_map. exists c.
    split; [exact Hc|]. apply in_flat_map. exists m. split; [exact Hm|].
    apply Z.eqb_eq in Hid. rewrite Hid, Z.eqb_refl, Hkey. left. reflexivity. }
  destruct (join_contact_of_message st waMessageId) as [|x l];
    [destruct Hin|]. exists x. reflexivity.
Qed.

Lemma join_empty st waMessageId :
  existsb (has_key m_wa_message_id waMessageId) (messages st) = false ->
  join_contact_of_message st waMessageId = [].
Proof.
  intros Hex. unfold join_contact_of_message.
  induction (contacts st) as [|c cs IHc]; simpl; [reflexivity|].
  rewrite IHc, app_nil_r. clear IHc.
  induction (messages st) as [|m ms IHm]; simpl; [reflexivity|].
  simpl in Hex. apply orb_false_elim in Hex. destruct Hex as [Hm Hms].
  rewrite Hm, andb_false_r. simpl. apply IHm. exact Hms.
Qed.

(** [updateMessageStatus] with a timestamp that converts: it returns, the
    status column is overwritten where the id matches, one history row is
    appended, and a conversation row is added only when the payload names a
    conversation that is not stored and the message can be joined to its
    contact. *)
Lemma updateMessageStatus_run status st out t :
  unix_to_iso (ms_timestamp status) = Some t ->
  exists st',
    run d1 (updateMessageStatus status) st out = (Ok tt, st', out)
    /\ contacts st' = contacts st
    /\ messages st'
       = update_where m_wa_message_id (ms_id status)
           (set_status (status_of_delivery (ms_status status))) (messages st)
    /\ message_statuses st' = message_statuses st ++ [history_row st status t]
    /\ interactive_responses st' = interactive_responses st
    /\ now st' = now st
    /\ match ms_conversation status,
             hd_error (join_contact_of_message st (ms_id status)) with
       | Some conversation, Some cid =>
           existsb (has_key cv_wa_conversation_id (conv_id conversation))
             (conversations st') = true
           /\ (conversations st' = conversations st
               \/ exists row,
                    conversations st' = conversations st ++ [row]
                    /\ cv_wa_conversation_id row = conv_id conversation)
       | _, _ => conversations st' = conversations st
       end.
Proof.
  intros Hts. unfold updateMessageStatus, iso_timestamp. rewrite Hts.
  cbn [bind]. rewrite run_bind, run_await. unfold d1. cbn [exec fst snd].
  rewrite run_bind, run_await. cbn [exec fst snd].
  fold (history_row st status t).
  destruct (ms_conversation status) as [conversation|].
  2:{ eexists. split; [reflexivity|]. simpl. repeat split. }
  rewrite run_bind, run_await. cbn [exec fst snd].
  rewrite join_after_status_update.
  destruct (hd_error (join_contact_of_message st (ms_id status)))
    as [cid|] eqn:Hjoin.
  2:{ eexists. split; [reflexivity|]. simpl. repeat split. }
  apply join_has_id in Hjoin.
  rewrite run_await. cbn [exec]. cbn [conversations set_message_statuses
    set_messages contacts].
  rewrite Hjoin. cbn [negb].
  destruct (existsb (has_key cv_wa_conversation_id (conv_id conversation))
              (conversations st)) eqn:Hex; cbn [fst snd].
  - eexists. split; [reflexivity|]. simpl. repeat split.
    + exact Hex.
    + left. reflexivity.
  - eexists. split; [reflexivity|]. simpl. repeat split.
    + rewrite existsb_app. simpl. unfold has_key at 2. simpl.
      rewrite String.eqb_refl. apply orb_true_r.
    + right. eexists. split; reflexivity.
Qed.

(* ===================================================================== *)
(** ** Contact registry *)
(* ===================================================================== *)

Lemma existsb_find {A} (f : A -> bool) (l : list A) :
  existsb f l = true -> exists x, find f l = Some x.
Proof.
  induction l as [|y l IH]; simpl; [discriminate|].
  destruct (f y); [intros _; exists y; reflexivity | exact IH].
Qed.

(** C5. When [findOrCreateContact] is called for an address that already has
    a row, the call returns, the table keeps its rows in place, every row of
    another address is untouched, and a row of that address gets
    [last_message_at = datetime('now')] while its name is replaced only by a
    non-empty supplied name: with no name or an empty one the stored name,
    whatever it is, stays. *)
Theorem C5_name_replaced_only_by_nonempty :
  forall (st : Store) (waId : string) (name : option string),
    existsb (has_key c_wa_id waId) (contacts st) = true ->
    let r := run d1 (findOrCreateContact waId name) st [] in
    is_ok (result_of r) = true
    /\ List.length (contacts (store_of r)) = List.length (contacts st)
    /\ forall i c,
         nth_error (contacts st) i = Some c ->
         exists c',
           nth_error (contacts (store_of r)) i = Some c'
           /\ c_id c' = c_id c
           /\ c_wa_id c' = c_wa_id c
           /\ (c_wa_id c <> waId -> c' = c)
           /\ (c_wa_id c = waId ->
               c_last_message_at c' = now st
               /\ (name = None \/ name = Some EmptyString ->
                   c_name c' = c_name c)
               /\ (forall n, name = Some n -> n <> EmptyString ->
                             c_name c' = Some n)).
Proof.
  intros st waId name Hex r. subst r. rewrite findOrCreateContact_run.
  destruct (existsb_find _ _ Hex) as [found Hfind]. rewrite Hfind.
  unfold result_of, store_of. simpl. split; [reflexivity|]. split.
  - unfold update_where. apply length_map.
  - intros i c Hi. unfold update_where. rewrite nth_error_map, Hi. simpl.
    destruct (has_key c_wa_id waId c) eqn:Hc.
    + apply has_key_true in Hc.
      eexists. split; [reflexivity|]. simpl.
      split; [reflexivity|]. split; [reflexivity|].
      split; [intros Hne; contradiction|]. intros _.
      split; [reflexivity|]. split.
      * intros [->| ->]; reflexivity.
      * intros n -> Hn. simpl. destruct n; [contradiction | reflexivity].
    + apply has_key_false in Hc.
      exists c. split; [reflexivity|]. split; [reflexivity|].
      split; [reflexivity|]. split; [reflexivity|].
      intros Heq. contradiction.
Qed.

(** A second message from 1555 that carries no profile: the name learned in
    scenario A stays. *)
Lemma C5_witness :
  existsb (has_key c_wa_id "1555") (contacts store_A) = true
  /\ exists c',
       nth_error
         (contacts (store_of (run d1 (findOrCreateContact "1555" None)
                                store_A []))) 0
       = Some c'
       /\ c_name c' = Some "Ada"
       /\ c_last_message_at c' = now store_A.
Proof.
  split; [reflexivity|].
  destruct (C5_name_replaced_only_by_nonempty store_A "1555" None
              eq_refl) as [_ [_ H]].
  destruct (H 0%nat _ eq_refl) as [c' [Hnth [_ [_ [_ Hrow]]]]].
  destruct (Hrow eq_refl) as [Hseen [Hkeep _]].
  exists c'. split; [exact Hnth|]. split; [|exact Hseen].
  rewrite Hkeep by (left; reflexivity). reflexivity.
Defined.

(* ===================================================================== *)
(** ** Message store *)
(* ===================================================================== *)

(** Delivering scenario A a second time: the message table holds one row
    for the id, and the call throws instead of returning that row. *)
Lemma C1_second_delivery_throws :
  count_key m_wa_message_id (im_id message_A) (messages store_A) = 1%nat
  /\ result_of (run d1 (saveIncomingMessage scenario_toString message_A
                          (Some contact_1555)) store_A [])
     = Err (unique_failed "messages.wa_message_id").
Proof. split; reflexivity. Qed.

(** C1, as the code has it.  When the message id is already stored,
    [saveIncomingMessage] throws and returns no row; with a timestamp that
    converts and a content that can be bound, what it throws is the store's
    [UNIQUE] violation on [messages.wa_message_id].  The message table is
    left exactly as it was, so it still holds one row for that id, and the
    history, conversation and interactive-response tables are untouched.
    The sender's contact has been upserted all the same. *)
Theorem C1_duplicate_id_rejected_table_unchanged :
  forall (Number_toString : number -> string) (st : Store)
         (message : IncomingMessage) (contact : option WebhookContact),
    consistent st ->
    existsb (has_key m_wa_message_id (im_id message)) (messages st) = true ->
    let r := run d1 (saveIncomingMessage Number_toString message contact)
               st [] in
    (exists e,
        result_of r = Err e
        /\ (epoch_seconds (im_timestamp message) = true ->
            content (extract Number_toString message) <> js_undefined ->
            e = unique_failed "messages.wa_message_id"))
    /\ messages (store_of r) = messages st
    /\ count_key m_wa_message_id (im_id message) (messages (store_of r))
       = 1%nat
    /\ interactive_responses (store_of r) = interactive_responses st
    /\ message_statuses (store_of r) = message_statuses st
    /\ conversations (store_of r) = conversations st
    /\ count_key c_wa_id (im_from message) (contacts (store_of r)) = 1%nat.
Proof.
  intros nts st message contact Hst Hdup r.
  pose proof (run_consistent (saveIncomingMessage nts message contact) st []
                Hst) as Hafter.
  subst r.
  destruct (saveIncomingMessage_duplicate nts message contact st [] Hdup)
    as [e [st' [Hrun [Hst' [Hrow He]]]]].
  rewrite Hrun in *. unfold result_of, store_of in *. simpl in *.
  assert (Hm : messages st' = messages st) by (rewrite Hst'; reflexivity).
  split; [exists e; split; [reflexivity | exact He]|].
  split; [exact Hm|]. split.
  - rewrite Hm. apply count_key_unique; [apply Hst | exact Hdup].
  - rewrite Hst' at 1 2 3. simpl. repeat split.
    apply count_key_unique; [apply Hafter | exact Hrow].
Qed.

(** The same id delivered again with another body (scenario E): rejected,
    and the stored content is still the first one. *)
Lemma C1_witness :
  consistent store_A
  /\ existsb (has_key m_wa_message_id (im_id message_A_again))
       (messages store_A) = true
  /\ map m_content
       (messages (store_of (run d1 (saveIncomingMessage scenario_toString
                                      message_A_again None) store_A [])))
     = [Some "hi"].
Proof.
  assert (Hst : consistent store_A)
    by (apply after_consistent; apply empty_store_consistent).
  split; [exact Hst|]. split; [reflexivity|].
  destruct (C1_duplicate_id_rejected_table_unchanged scenario_toString
              store_A message_A_again None Hst eq_refl)
    as [_ [Hsame _]].
  rewrite Hsame. reflexivity.
Defined.







(* ===================================================================== *)
(** ** Status reconciler *)
(* ===================================================================== *)

(** C2. For a status event whose timestamp converts, [updateMessageStatus]
    returns without throwing and appends exactly one history row carrying
    the event's message id and status, whether or not a message has that
    id.  When no message has it, the message table, the contacts and the
    conversations are left as they were. *)
Theorem C2_unknown_id_still_recorded :
  forall (st : Store) (status : MessageStatus),
    epoch_seconds (ms_timestamp status) = true ->
    let r := run d1 (updateMessageStatus status) st [] in
    result_of r = Ok tt
    /\ (exists row,
           message_statuses (store_of r) = message_statuses st ++ [row]
           /\ s_wa_message_id row = ms_id status
           /\ s_status row = ms_status status)
    /\ (existsb (has_key m_wa_message_id (ms_id status)) (messages st)
        = false ->
        messages (store_of r) = messages st
        /\ contacts (store_of r) = contacts st
        /\ conversations (store_of r) = conversations st).
Proof.
  intros st status Hts r. subst r. unfold epoch_seconds in Hts.
  destruct (unix_to_iso (ms_timestamp status)) as [t|] eqn:Ht;
    [|discriminate].
  destruct (updateMessageStatus_run status st [] t Ht)
    as [st' [Hrun [Hc [Hm [Hs [_ [_ Hcv]]]]]]].
  rewrite Hrun. unfold result_of, store_of. simpl.
  split; [reflexivity|]. split.
  - exists (history_row st status t). split; [exact Hs|].
    split; reflexivity.
  - intros Hmiss. split; [|split; [exact Hc|]].
    + rewrite Hm. apply update_where_absent. exact Hmiss.
    + rewrite (join_empty st (ms_id status) Hmiss) in Hcv. simpl in Hcv.
      destruct (ms_conversation status); exact Hcv.
Qed.

(** Scenario D: the status for the unknown id is recorded and nothing else
    changes. *)
Lemma C2_witness :
  result_of (run d1 (updateMessageStatus status_unknown) store_A []) = Ok tt
  /\ messages (store_of (run d1 (updateMessageStatus status_unknown)
                           store_A []))
     = messages store_A
  /\ conversations (store_of (run d1 (updateMessageStatus status_unknown)
                                store_A []))
     = [].
Proof.
  destruct (C2_unknown_id_still_recorded store_A status_unknown eq_refl)
    as [Hres [_ Hmiss]].
  destruct (Hmiss eq_refl) as [Hm [_ Hcv]].
  split; [exact Hres|]. split; [exact Hm | exact Hcv].
Defined.

Lemma in_update_where_status k s l m :
  In m (update_where m_wa_message_id k (set_status s) l) ->
  m_wa_message_id m = k -> m_status m = s.
Proof.
  unfold update_where. rewrite in_map_iff. intros [m0 [Heq Hin]] Hk.
  destruct (has_key m_wa_message_id k m0) eqn:H0.
  - subst m. reflexivity.
  - subst m. apply has_key_false in H0. contradiction.
Qed.

Lemma apply_statuses_consistent (events : list (string * MessageStatus)) :
  forall st, consistent st -> consistent (snd (apply_statuses events st)).
Proof.
  induction events as [|[clock status] rest IH]; intros st Hst; [exact Hst|].
  cbn [apply_statuses].
  specialize (IH (store_of (run d1 (updateMessageStatus status)
                              (set_now clock st) []))).
  destruct (apply_statuses rest _) as [results st']. cbn [snd] in *.
  apply IH. apply run_consistent. apply set_now_consistent. exact Hst.
Qed.

(** Status events for one id, applied in order: every call returns, the
    history grows by one row per event, and the status column ends at the
    last event's value. *)
Lemma apply_statuses_spec (events : list (string * MessageStatus)) :
  forall (st : Store) (waMessageId : string),
    Forall (fun e => ms_id (snd e) = waMessageId
                     /\ epoch_seconds (ms_timestamp (snd e)) = true) events ->
    Forall (fun r => r = Ok tt) (fst (apply_statuses events st))
    /\ (exists rows,
           message_statuses (snd (apply_statuses events st))
           = message_statuses st ++ rows
           /\ map s_status rows = map (fun e => ms_status (snd e)) events
           /\ Forall (fun r => s_wa_message_id r = waMessageId) rows)
    /\ (forall e0, events <> [] ->
          messages (snd (apply_statuses events st))
          = update_where m_wa_message_id waMessageId
              (set_status
                 (status_of_delivery (ms_status (snd (last events e0)))))
              (messages st)).
Proof.
  induction events as [|[clock status] rest IH]; intros st wid Hall.
  - simpl. split; [constructor|]. split.
    + exists []. rewrite app_nil_r. repeat split. constructor.
    + intros e0 H. contradiction.
  - apply Forall_cons_iff in Hall. destruct Hall as [[Hid Hts] Hrest].
    simpl in Hid, Hts. subst wid.
    unfold epoch_seconds in Hts.
    destruct (unix_to_iso (ms_timestamp status)) as [t|] eqn:Ht;
      [|discriminate].
    destruct (updateMessageStatus_run status (set_now clock st) [] t Ht)
      as [st1 [Hrun [_ [Hm [Hs _]]]]].
    cbn [apply_statuses]. rewrite Hrun.
    unfold result_of, store_of. cbn [fst snd].
    specialize (IH st1 (ms_id status) Hrest).
    destruct (apply_statuses rest st1) as [results st'] eqn:Hrec.
    cbn [fst snd] in *.
    destruct IH as [IHres [[rows [IHs [IHmap IHall]]] IHm]].
    split; [constructor; [reflexivity | exact IHres]|]. split.
    + exists (history_row (set_now clock st) status t :: rows).
      rewrite IHs, Hs. simpl. rewrite <- app_assoc. simpl.
      split; [reflexivity|]. split; [rewrite IHmap; reflexivity|].
      constructor; [reflexivity | exact IHall].
    + intros e0 _. destruct rest as [|e rest'].
      * simpl in Hrec. injection Hrec as _ <-. simpl. exact Hm.
      * rewrite (IHm e0) by discriminate. rewrite Hm. simpl messages.
        rewrite update_where_twice; [reflexivity | reflexivity | reflexivity].
Qed.

(** C8. Let K status events for one message id, each with a timestamp that
    converts, be applied in order.  Every call returns; the history table
    afterwards is the old table followed by K new rows for that id, one per
    event and in the order of the events, so the id has K more rows than
    before and no earlier row has changed; the message table keeps its rows
    and ids; and, when K is at least one, every message with that id has the
    status of the K-th event, whatever the statuses were before. *)
Theorem C8_history_grows_status_overwritten :
  forall (events : list (string * MessageStatus)) (st : Store)
         (waMessageId : string),
    Forall (fun e => ms_id (snd e) = waMessageId
                     /\ epoch_seconds (ms_timestamp (snd e)) = true) events ->
    let results := fst (apply_statuses events st) in
    let st' := snd (apply_statuses events st) in
    Forall (fun r => r = Ok tt) results
    /\ (exists rows,
           message_statuses st' = message_statuses st ++ rows
           /\ List.length rows = List.length events
           /\ map s_status rows = map (fun e => ms_status (snd e)) events
           /\ Forall (fun r => s_wa_message_id r = waMessageId) rows)
    /\ count_key s_wa_message_id waMessageId (message_statuses st')
       = (count_key s_wa_message_id waMessageId (message_statuses st)
          + List.length events)%nat
    /\ (forall e0 m,
          events <> [] ->
          map m_wa_message_id (messages st')
          = map m_wa_message_id (messages st)
          /\ (In m (messages st') ->
              m_wa_message_id m = waMessageId ->
              m_status m
              = status_of_delivery (ms_status (snd (last events e0))))).
Proof.
  intros events st wid Hall results st'. subst results st'.
  destruct (apply_statuses_spec events st wid Hall)
    as [Hres [[rows [Hs [Hmap Hrows]]] Hm]].
  assert (Hlen : List.length rows = List.length events).
  { rewrite <- (length_map s_status rows), Hmap. apply length_map. }
  split; [exact Hres|]. split; [|split].
  - exists rows. repeat split; assumption.
  - rewrite Hs, count_key_app, (count_key_all _ _ _ Hrows), Hlen.
    reflexivity.
  - intros e0 m Hne. rewrite (Hm e0 Hne). split.
    + apply map_key_update_where. reflexivity.
    + apply in_update_where_status.
Qed.

(** Delivered, then read, then delivered again for scenario A's message:
    three history rows, and the status ends at the late [delivered]. *)
Lemma C8_witness :
  let events :=
    [("2023-11-14 22:14:00",
      status_event "wamid.A" st_delivered "1700000001" None);
     ("2023-11-14 22:15:00",
      status_event "wamid.A" st_read "1700000002" None);
     ("2023-11-14 22:16:00",
      status_event "wamid.A" st_delivered "1700000001" None)] in
  count_key s_wa_message_id "wamid.A"
    (message_statuses (snd (apply_statuses events store_A))) = 3%nat
  /\ map m_status (messages (snd (apply_statuses events store_A)))
     = [delivered].
Proof.
  intros events.
  assert (Hall : Forall (fun e => ms_id (snd e) = "wamid.A"%string
                                  /\ epoch_seconds (ms_timestamp (snd e))
                                     = true) events).
  { repeat constructor. }
  destruct (C8_history_grows_status_overwritten events store_A "wamid.A"
              Hall) as [_ [_ [Hcount _]]].
  split; [exact Hcount | reflexivity].
Defined.

(** C4. Two status events that name the same conversation id, each for a
    message that is stored and each with a timestamp that converts, are
    applied one after the other to a store that satisfies its constraints.
    Both calls return, and the conversation table then holds exactly one row
    for that conversation id. *)
Theorem C4_one_conversation_row_per_id :
  forall (st : Store) (clock1 clock2 : string) (s1 s2 : MessageStatus)
         (c1 c2 : Conversation),
    consistent st ->
    epoch_seconds (ms_timestamp s1) = true ->
    epoch_seconds (ms_timestamp s2) = true ->
    ms_conversation s1 = Some c1 ->
    ms_conversation s2 = Some c2 ->
    conv_id c1 = conv_id c2 ->
    existsb (has_key m_wa_message_id (ms_id s1)) (messages st) = true ->
    existsb (has_key m_wa_message_id (ms_id s2)) (messages st) = true ->
    let outcome := apply_statuses [(clock1, s1); (clock2, s2)] st in
    fst outcome = [Ok tt; Ok tt]
    /\ count_key cv_wa_conversation_id (conv_id c1)
         (conversations (snd outcome)) = 1%nat.
Proof.
  intros st clock1 clock2 s1 s2 c1 c2 Hst Hts1 Hts2 Hc1 Hc2 Hsame Hm1 Hm2
    outcome.
  assert (Hcons : consistent (snd outcome))
    by (apply apply_statuses_consistent; exact Hst).
  subst outcome. cbn [apply_statuses] in *.
  unfold epoch_seconds in Hts1, Hts2.
  destruct (unix_to_iso (ms_timestamp s1)) as [t1|] eqn:Ht1; [|discriminate].
  destruct (unix_to_iso (ms_timestamp s2)) as [t2|] eqn:Ht2; [|discriminate].
  destruct (updateMessageStatus_run s1 (set_now clock1 st) [] t1 Ht1)
    as [st1 [Hrun1 [_ [_ [_ [_ [_ Hcv1]]]]]]].
  rewrite Hrun1 in *. unfold result_of, store_of in *. cbn [fst snd] in *.
  destruct (updateMessageStatus_run s2 (set_now clock2 st1) [] t2 Ht2)
    as [st2 [Hrun2 [_ [_ [_ [_ [_ Hcv2]]]]]]].
  rewrite Hrun2 in *. cbn [fst snd] in *.
  split; [reflexivity|].
  apply count_key_unique; [apply Hcons|].
  (* the first event leaves a row for the id *)
  assert (H1 : existsb (has_key cv_wa_conversation_id (conv_id c1))
                 (conversations st1) = true).
  { rewrite Hc1 in Hcv1.
    destruct (join_nonempty (set_now clock1 st) (ms_id s1) Hm1) as [cid Hj].
    - intros m Hin. apply (messages_contact_fk st Hst m Hin).
    - rewrite Hj in Hcv1. apply Hcv1. }
  (* the second one keeps it *)
  rewrite Hc2 in Hcv2. rewrite Hsame in *.
  destruct (hd_error (join_contact_of_message (set_now clock2 st1) (ms_id s2))).
  - apply Hcv2.
  - rewrite Hcv2. exact H1.
Qed.

(** Delivered and then read inside one conversation window, for scenario
    A's message: one conversation row. *)
Lemma C4_witness :
  let outcome :=
    apply_statuses
      [("2023-11-14 22:14:00",
        status_event "wamid.A" st_delivered "1700000001" (Some window_1));
       ("2023-11-14 22:15:00",
        status_event "wamid.A" st_read "1700000002" (Some window_1))]
      store_A in
  fst outcome = [Ok tt; Ok tt]
  /\ count_key cv_wa_conversation_id "conv.1" (conversations (snd outcome))
     = 1%nat.
Proof.
  apply (C4_one_conversation_row_per_id store_A _ _ _ _ window_1 window_1).
  - apply after_consistent. apply empty_store_consistent.
  - reflexivity.
  - reflexivity.
  - reflexivity.
  - reflexivity.
  - reflexivity.
  - reflexivity.
  - reflexivity.
Defined.

(* ===================================================================== *)
(** ** The webhook route over any store *)
(* ===================================================================== *)

Lemma fold_left_ext_map {A B S} (f : S -> A -> S) (g : S -> B -> S)
  (k : A -> B) (l : list A) (s : S) :
  (forall s x, f s x = g s (k x)) ->
  fold_left f l s = fold_left g (map k l) s.
Proof.
  intros H. revert s. induction l as [|x l IH]; intros s; simpl;
    [reflexivity|]. rewrite H. apply IH.
Qed.

Lemma fold_left_pointwise {A S} (f g : S -> A -> S) (l : list A) (s : S) :
  (forall s x, f s x = g s x) ->
  fold_left f l s = fold_left g l s.
Proof.
  intros H. revert s. induction l as [|x l IH]; intros s; simpl;
    [reflexivity|]. rewrite H. apply IH.
Qed.

Lemma fold_left_flat_map {A B S} (f : S -> B -> S) (g : A -> list B)
  (l : list A) (s : S) :
  fold_left f (flat_map g l) s
  = fold_left (fun s' x => fold_left f (g x) s') l s.
Proof.
  revert s. induction l as [|x l IH]; intros s; simpl; [reflexivity|].
  rewrite fold_left_app. apply IH.
Qed.

Section AnyStore.

Context {W : Type} (h : Handler W) (Number_toString : number -> string).

Lemma log_content_run message w out :
  exists out', run h (log_content message) w out = (Ok tt, w, out').
Proof.
  unfold log_content. cbv zeta.
  repeat match goal with
         | |- context [if ?b then _ else _] => destruct b
         end;
    try (eexists; reflexivity).
  destruct (im_interactive message) as [i|]; [destruct (ir_type i)|];
    eexists; reflexivity.
Qed.

Lemma for_of_console_run {A} (xs : list A) (line : A -> ConsoleLine) w out :
  run h (for_of xs (fun x => console (line x))) w out
  = (Ok tt, w, out ++ map line xs).
Proof.
  revert out. induction xs as [|x xs IH]; intros out; simpl.
  - rewrite app_nil_r. reflexivity.
  - rewrite IH, <- app_assoc. reflexivity.
Qed.

Lemma handleIncomingMessage_run message value w out :
  result_of (run h (handleIncomingMessage Number_toString message value) w out)
  = Ok tt
  /\ store_of (run h (handleIncomingMessage Number_toString message value)
                 w out)
     = persist h Number_toString w (item_message message value).
Proof.
  unfold handleIncomingMessage, persist. cbv zeta.
  rewrite run_bind, run_console, run_try_catch, run_bind.
  match goal with
  | |- context [run h (saveIncomingMessage ?n ?m ?c) w ?o] =>
      pose proof (store_of_run h (saveIncomingMessage n m c) w o) as Hs;
      destruct (run h (saveIncomingMessage n m c) w o) as [[r w'] out']
  end.
  unfold store_of in Hs. simpl in Hs. subst w'.
  destruct r as [[saved|]|e].
  - rewrite run_bind, run_console.
    destruct (log_content_run message
                (after h (saveIncomingMessage Number_toString message
                            (sender_of message value)) w)
                (out' ++ [log_message_saved (m_id saved)])) as [out'' Hl].
    rewrite Hl. split; reflexivity.
  - simpl. split; reflexivity.
  - simpl. split; reflexivity.
Qed.

Lemma handleStatusUpdate_run status w out :
  result_of (run h (handleStatusUpdate status) w out) = Ok tt
  /\ store_of (run h (handleStatusUpdate status) w out)
     = persist h Number_toString w (item_status status).
Proof.
  unfold handleStatusUpdate, persist.
  rewrite run_bind, run_console, run_bind, run_try_catch, run_bind.
  match goal with
  | |- context [run h (updateMessageStatus status) w ?o] =>
      pose proof (store_of_run h (updateMessageStatus status) w o) as Hs;
      destruct (run h (updateMessageStatus status) w o) as [[r w'] out']
  end.
  unfold store_of in Hs. simpl in Hs. subst w'.
  destruct r as [[]|e]; rewrite run_console;
    (destruct (ms_status status); destruct (ms_errors status) as [errors|];
     try (split; reflexivity);
     rewrite for_of_console_run; split; reflexivity).
Qed.
Lemma each_present_for_of {A} (xs : option (list A)) (body : A -> Prog unit) :
  each_present xs body = for_of (list_of xs) body.
Proof. destruct xs; reflexivity. Qed.

Lemma processMessagesChange_run value w out :
  result_of (run h (processMessagesChange Number_toString value) w out)
  = Ok tt
  /\ store_of (run h (processMessagesChange Number_toString value) w out)
     = fold_left (persist h Number_toString) (items_of_value value) w.
Proof.
  unfold processMessagesChange, items_of_value.
  rewrite !each_present_for_of, fold_left_app.
  rewrite run_bind, run_console, run_bind.
  match goal with
  | |- context [run h (for_of ?xs ?body) w ?o] =>
      destruct (run_for_of h xs body
                  (fun x w' o' =>
                     proj1 (handleIncomingMessage_run x value w' o')) w o)
        as [Hr Hs];
      destruct (run h (for_of xs body) w o) as [[r w1] out1]
  end.
  unfold result_of, store_of in Hr, Hs. simpl in Hr, Hs. subst r w1.
  rewrite run_bind.
  match goal with
  | |- context [run h (for_of ?xs handleStatusUpdate) ?w0 ?o] =>
      destruct (run_for_of h xs handleStatusUpdate
                  (fun x w' o' => proj1 (handleStatusUpdate_run x w' o'))
                  w0 o) as [Hr Hs];
      destruct (run h (for_of xs handleStatusUpdate) w0 o) as [[r w2] out2]
  end.
  unfold result_of, store_of in Hr, Hs. simpl in Hr, Hs. subst r w2.
  rewrite for_of_console_run. unfold result_of, store_of. simpl.
  split; [reflexivity|].
  rewrite <- (fold_left_ext_map
                (fun w' x => after h (handleStatusUpdate x) w')
                (persist h Number_toString) item_status).
  2:{ intros s x.
      apply (proj2 (handleStatusUpdate_run x s [])). }
  f_equal.
  rewrite <- (fold_left_ext_map
                (fun w' x =>
                   after h (handleIncomingMessage Number_toString x value) w')
                (persist h Number_toString)
                (fun m => item_message m value)).
  - reflexivity.
  - intros s x. apply (proj2 (handleIncomingMessage_run x value s [])).
Qed.

Lemma processChange_run change w out :
  result_of (run h (processChange Number_toString change) w out) = Ok tt
  /\ store_of (run h (processChange Number_toString change) w out)
     = fold_left (persist h Number_toString) (items_of_change change) w.
Proof.
  unfold processChange, items_of_change.
  destruct (wch_field change =? "messages")%string.
  - apply processMessagesChange_run.
  - split; reflexivity.
Qed.

(** The two nested loops of the handler: no item stops them. *)
Lemma entries_run entries w out :
  result_of
    (run h (for_of entries
              (fun entry =>
                 for_of (we_changes entry) (processChange Number_toString)))
       w out) = Ok tt
  /\ store_of
       (run h (for_of entries
                 (fun entry =>
                    for_of (we_changes entry) (processChange Number_toString)))
          w out)
     = fold_left (persist h Number_toString)
         (flat_map (fun entry => flat_map items_of_change (we_changes entry))
            entries) w.
Proof.
  assert (Hchanges :
            forall changes w' o',
              result_of (run h (for_of changes (processChange Number_toString))
                           w' o') = Ok tt
              /\ store_of (run h (for_of changes
                                    (processChange Number_toString)) w' o')
                 = fold_left (persist h Number_toString)
                     (flat_map items_of_change changes) w').
  { intros changes w' o'.
    destruct (run_for_of h changes (processChange Number_toString)
                (fun x w1 o1 => proj1 (processChange_run x w1 o1)) w' o')
      as [Hr Hs].
    split; [exact Hr|]. rewrite Hs, fold_left_flat_map.
    apply fold_left_pointwise. intros s x.
    apply (proj2 (processChange_run x s [])). }
  destruct (run_for_of h entries
              (fun entry =>
                 for_of (we_changes entry) (processChange Number_toString))
              (fun x w1 o1 => proj1 (Hchanges (we_changes x) w1 o1)) w out)
    as [Hr Hs].
  split; [exact Hr|]. rewrite Hs, fold_left_flat_map.
  apply fold_left_pointwise. intros s x.
  apply (proj2 (Hchanges (we_changes x) s [])).
Qed.

End AnyStore.

(** C6. Whatever the store does with the statements it is sent: a parsed
    payload whose [object] is not ['whatsapp_business_account'] is answered
    with status 400 before a single statement or console line is issued
    (the handler is then just that [return]), and a payload with the right
    [object] is answered with 200 and the text OK, whether the statements
    succeed, fail in part, or all fail. *)
Theorem C6_wrong_object_rejected_valid_acknowledged :
  forall (W : Type) (h : Handler W) (Number_toString : number -> string)
         (payload : WebhookPayload) (w : W) (out : list ConsoleLine),
    (wp_object payload <> "whatsapp_business_account"%string ->
     post Number_toString (Some payload) = Ret invalid_object_response
     /\ run h (post Number_toString (Some payload)) w out
        = (Ok invalid_object_response, w, out)
     /\ status invalid_object_response = 400)
    /\ (wp_object payload = "whatsapp_business_account"%string ->
        result_of (run h (post Number_toString (Some payload)) w out)
        = Ok ok_response
        /\ status ok_response = 200).
Proof.
  intros W h nts payload w out. split.
  - intros Hne. apply String.eqb_neq in Hne.
    assert (Hpost : post nts (Some payload) = Ret invalid_object_response).
    { unfold post. simpl. rewrite Hne. reflexivity. }
    rewrite Hpost. repeat split.
  - intros Heq. apply String.eqb_eq in Heq. split; [|reflexivity].
    unfold post. rewrite run_try_catch. simpl request_json. cbn [bind].
    rewrite Heq. cbn [negb]. rewrite run_bind.
    destruct (entries_run h nts (wp_entry payload) w out) as [Hr _].
    destruct (run h (for_of (wp_entry payload) _) w out) as [[r w'] out'].
    unfold result_of in Hr. simpl in Hr. subst r. reflexivity.
Qed.

(** A page event is turned away with 400; the batch is acknowledged with 200
    by a store that rejects every statement. *)
Lemma C6_witness :
  run unavailable (post scenario_toString (Some page_event)) tt []
  = (Ok invalid_object_response, tt, [])
  /\ result_of (run unavailable (post scenario_toString (Some batch)) tt [])
     = Ok ok_response.
Proof.
  destruct (C6_wrong_object_rejected_valid_acknowledged unit unavailable
              scenario_toString page_event tt []) as [Hbad _].
  destruct (C6_wrong_object_rejected_valid_acknowledged unit unavailable
              scenario_toString batch tt []) as [_ Hgood].
  split.
  - apply Hbad. discriminate.
  - apply Hgood. reflexivity.
Defined.

(** C7. Whatever the store does with the statements it is sent, the handler
    of a payload with the right [object] answers OK and leaves the store in
    the state reached by making the service call of every item, one after
    the other in the order of the payload (entries, then changes of the
    [messages] field, then the messages of a change before its statuses),
    each call starting from the state the previous one left, whether that
    one returned or threw. *)
Theorem C7_every_item_processed_in_order :
  forall (W : Type) (h : Handler W) (Number_toString : number -> string)
         (payload : WebhookPayload) (w : W) (out : list ConsoleLine),
    wp_object payload = "whatsapp_business_account"%string ->
    let r := run h (post Number_toString (Some payload)) w out in
    result_of r = Ok ok_response
    /\ store_of r
       = fold_left (persist h Number_toString) (items_of payload) w.
Proof.
  intros W h nts payload w out Heq r. subst r.
  apply String.eqb_eq in Heq.
  unfold post, items_of. rewrite run_try_catch. simpl request_json.
  cbn [bind]. rewrite Heq. cbn [negb]. rewrite run_bind.
  destruct (entries_run h nts (wp_entry payload) w out) as [Hr Hs].
  destruct (run h (for_of (wp_entry payload) _) w out) as [[r w'] out'].
  unfold result_of, store_of in *. simpl in *. subst r w'.
  split; reflexivity.
Qed.

(** In the batch the second message is rejected as a duplicate and the first
    status throws on its date; the reaction after them is stored and the
    last status is applied. *)
Lemma C7_witness :
  let final := store_of (run d1 (post scenario_toString (Some batch))
                           store_0 []) in
  map m_wa_message_id (messages final) = ["wamid.A"; "wamid.R"]%string
  /\ map m_status (messages final) = [read; received]
  /\ map s_wa_message_id (message_statuses final) = ["wamid.A"]%string.
Proof.
  intros final. subst final.
  destruct (C7_every_item_processed_in_order Store d1 scenario_toString
              batch store_0 [] eq_refl) as [_ Hstore].
  rewrite Hstore. repeat split.
Defined.

(* ===================================================================== *)
(** ** Calls in flight together *)
(* ===================================================================== *)

Lemma steps_trans m1 m2 m3 : steps m1 m2 -> steps m2 m3 -> steps m1 m3.
Proof.
  induction 1 as [m|a b c Hab _ IH]; intros H; [exact H|].
  apply (steps_cons a b m3 Hab). apply IH. exact H.
Qed.

Lemma turn_steps (pool : list Thread) :
  forall i st out before,
    steps {| disk := st; stdout := out; calls := before ++ pool |}
          {| disk := disk (turn i st out pool);
             stdout := stdout (turn i st out pool);
             calls := before ++ calls (turn i st out pool) |}.
Proof.
  induction pool as [|t rest IH]; intros i st out before.
  - simpl. apply steps_refl.
  - destruct i as [|j].
    + destruct t as [A p]. destruct p as [a|e|B q k|l k]; simpl.
      * apply steps_refl.
      * apply steps_refl.
      * eapply steps_cons; [apply step_await | apply steps_refl].
      * eapply steps_cons; [apply step_console | apply steps_refl].
    + simpl. specialize (IH j st out (before ++ [t])).
      rewrite <- !app_assoc in IH. exact IH.
Qed.

(** Every schedule is an interleaving. *)
Lemma schedule_steps (order : list nat) :
  forall m, steps m (schedule order m).
Proof.
  induction order as [|i order IH]; intros m; [apply steps_refl|].
  unfold schedule. simpl. eapply steps_trans; [|apply IH].
  destruct m as [st out pool]. simpl.
  pose proof (turn_steps pool i st out []) as H. simpl in H.
  destruct (turn i st out pool). exact H.
Qed.

Lemma count_key_at_most_one {A} (key : A -> string) (k : string)
  (l : list A) :
  NoDup (map key l) -> (count_key key k l <= 1)%nat.
Proof.
  intros Hnd. destruct (existsb (has_key key k) l) eqn:Hex.
  - rewrite (count_key_unique key k l Hnd Hex). apply le_n.
  - rewrite (count_key_absent key k l Hex). apply Nat.le_0_l.
Qed.

(** Rows are never deleted: a contact that has a row keeps it. *)
Lemma exec_keeps_contact {B} (q : Stmt B) (st : Store) (waId : string) :
  existsb (has_key c_wa_id waId) (contacts st) = true ->
  existsb (has_key c_wa_id waId) (contacts (snd (exec q st))) = true.
Proof.
  intros Hex. destruct q; simpl; try exact Hex.
  - rewrite existsb_update_where; [exact Hex | reflexivity].
  - destruct (existsb (has_key c_wa_id waId0) (contacts st)); simpl;
      [exact Hex|]. rewrite existsb_app, Hex. reflexivity.
  - unfold insert_message.
    destruct (existsb _ (messages st)); [exact Hex|].
    destruct (has_id c_id (iv_contact_id v) (contacts st)); exact Hex.
  - unfold insert_message.
    destruct (existsb _ (messages st)); [exact Hex|].
    destruct (has_id c_id (ov_contact_id v) (contacts st)); exact Hex.
  - destruct (existsb _ (conversations st)); [exact Hex|].
    destruct (has_id c_id contactId (contacts st)); exact Hex.
  - destruct (has_id m_id messageId (messages st)); exact Hex.
Qed.

Lemma secures_bind (waId : string) {A B} (p : Prog A) (f : A -> Prog B) :
  secures waId p -> secures waId (bind p f).
Proof.
  induction p as [a|e|T q k IH|l k IH]; simpl.
  - intros [].
  - intros [].
  - intros H st. destruct (H st) as [Hex|Hk]; [left; exact Hex|].
    right. apply IH. exact Hk.
  - exact IH.
Qed.

(** The upsert reaches no [return] and no [throw] without a row for the
    address: the [SELECT] found one, or the [INSERT] added one, or the
    [INSERT] was refused because one was there. *)
Lemma findOrCreateContact_secures (waId : string) (name : option string) :
  secures waId (findOrCreateContact waId name).
Proof.
  unfold findOrCreateContact. simpl. intros st.
  destruct (find (has_key c_wa_id waId) (contacts st)) as [found|] eqn:Hfind.
  - left. apply (find_some_existsb _ _ _ Hfind).
  - right. simpl. intros st2. left.
    destruct (existsb (has_key c_wa_id waId) (contacts st2)) eqn:Hex; simpl.
    + exact Hex.
    + rewrite existsb_app. simpl. unfold has_key at 2. simpl.
      rewrite String.eqb_refl. apply orb_true_r.
Qed.

Lemma upserts_secures (waId : string) (t : Thread) :
  upserts waId t -> thread_secures waId t.
Proof.
  intros [name|nts message contact <-]; unfold thread_secures.
  - apply findOrCreateContact_secures.
  - unfold saveIncomingMessage. apply secures_bind.
    apply findOrCreateContact_secures.
Qed.

Lemma covered_start (waId : string) (st : Store) (pool : list Thread) :
  Forall2 (covered waId st) pool pool.
Proof.
  induction pool as [|t pool IH]; constructor; [|exact IH].
  intros Hup. right. apply upserts_secures. exact Hup.
Qed.

Lemma covered_later (waId : string) (st st' : Store) (p0 p : list Thread) :
  (existsb (has_key c_wa_id waId) (contacts st) = true ->
   existsb (has_key c_wa_id waId) (contacts st') = true) ->
  Forall2 (covered waId st) p0 p -> Forall2 (covered waId st') p0 p.
Proof.
  intros Hmono. apply Forall2_impl. intros t0 t H Hup.
  destruct (H Hup) as [Hex|Hs];
    [left; apply Hmono; exact Hex | right; exact Hs].
Qed.

Lemma step_covered (waId : string) (p0 : list Thread) m1 m2 :
  step m1 m2 ->
  Forall2 (covered waId (disk m1)) p0 (calls m1) ->
  Forall2 (covered waId (disk m2)) p0 (calls m2).
Proof.
  intros Hstep. destruct Hstep as [st out before behind A B q k
                                  |st out before behind A l k
                                  |st out pool clock]; simpl; intros H.
  - apply Forall2_app_inv_r in H.
    destruct H as [b0 [rest0 [Hb [Hrest ->]]]].
    inversion Hrest as [|t0 t r0 r Ht Hbehind]; subst.
    apply Forall2_app.
    + apply (covered_later waId st); [apply exec_keeps_contact | exact Hb].
    + constructor.
      * intros Hup. destruct (Ht Hup) as [Hex|Hs].
        -- left. apply exec_keeps_contact. exact Hex.
        -- simpl in Hs. destruct (Hs st) as [Hex|Hk];
             [left; exact Hex | right; exact Hk].
      * apply (covered_later waId st);
          [apply exec_keeps_contact | exact Hbehind].
  - apply Forall2_app_inv_r in H.
    destruct H as [b0 [rest0 [Hb [Hrest ->]]]].
    inversion Hrest as [|t0 t r0 r Ht Hbehind]; subst.
    apply Forall2_app; [exact Hb|]. constructor; [|exact Hbehind].
    intros Hup. destruct (Ht Hup) as [Hex|Hs]; [left; exact Hex|].
    right. exact Hs.
  - apply (covered_later waId st); [intros Hex; exact Hex | exact H].
Qed.

Lemma steps_covered (waId : string) (p0 : list Thread) m1 m2 :
  steps m1 m2 ->
  Forall2 (covered waId (disk m1)) p0 (calls m1) ->
  Forall2 (covered waId (disk m2)) p0 (calls m2).
Proof.
  induction 1 as [m|a b c Hab _ IH]; intros H; [exact H|].
  apply IH. apply (step_covered waId p0 a b Hab H).
Qed.

Lemma covered_finished (waId : string) (st : Store) (p0 p : list Thread) :
  Forall2 (covered waId st) p0 p ->
  forallb finished p = true ->
  Exists (upserts waId) p0 ->
  existsb (has_key c_wa_id waId) (contacts st) = true.
Proof.
  induction 1 as [|t0 t r0 r Ht _ IH]; simpl; intros Hfin Hex.
  - inversion Hex.
  - apply andb_prop in Hfin. destruct Hfin as [Ht_fin Hr_fin].
    inversion Hex as [? ? Hup|? ? Hlater]; subst.
    + destruct (Ht Hup) as [Hrow|Hs]; [exact Hrow|].
      destruct t as [A p]. destruct p; simpl in *;
        try contradiction; discriminate.
    + apply IH; assumption.
Qed.

(** C3. Any number of calls are in flight on a store that satisfies its
    constraints, their statements interleaved in any order.  At every point
    of every interleaving no address has two contact rows and no message id
    has two message rows, because the statements themselves refuse or skip
    the second row.  And once all the calls have settled, every address that
    one of them upserted (directly, or by saving a message from it) has
    exactly one contact row. *)
Theorem C3_no_duplicate_rows_under_interleaving :
  forall (pool : list Thread) (st : Store) (out : list ConsoleLine)
         (m : Machine),
    consistent st ->
    steps {| disk := st; stdout := out; calls := pool |} m ->
    (forall waId,
        (count_key c_wa_id waId (contacts (disk m)) <= 1)%nat)
    /\ (forall waMessageId,
           (count_key m_wa_message_id waMessageId (messages (disk m))
            <= 1)%nat)
    /\ (forallb finished (calls m) = true ->
        forall waId,
          Exists (upserts waId) pool ->
          count_key c_wa_id waId (contacts (disk m)) = 1%nat).
Proof.
  intros pool st out m Hst Hsteps.
  pose proof (steps_consistent _ _ Hsteps Hst) as Hm.
  split; [|split].
  - intros waId. apply count_key_at_most_one. apply Hm.
  - intros waMessageId. apply count_key_at_most_one. apply Hm.
  - intros Hfin waId Hup. apply count_key_unique; [apply Hm|].
    apply (covered_finished waId (disk m) pool (calls m)); try assumption.
    apply (steps_covered waId pool _ m Hsteps). simpl.
    apply covered_start.
Qed.

(** The race: the call that inserts second is refused by the [UNIQUE]
    constraint and throws, and one row is all there is. *)
Lemma C3_witness :
  calls race
  = [thread (Ret (Some (new_contact store_0 "1555" (Some "Ada"%string)
                          "1555")));
     thread (@Throw (option ContactRecord) (unique_failed "contacts.wa_id"))]
  /\ count_key c_wa_id "1555" (contacts (disk race)) = 1%nat
  /\ map c_name (contacts (disk race)) = [Some "Ada"%string].
Proof.
  split; [reflexivity|]. split; [|reflexivity].
  refine (proj2 (proj2 (C3_no_duplicate_rows_under_interleaving _ store_0 []
                          race (empty_store_consistent _)
                          (schedule_steps [0; 1; 0; 1]%nat _)))
            eq_refl "1555"%string _).
  apply Exists_cons_hd. apply upserts_contact.
Defined.

(* ===================================================================== *)
(** ** The scenarios of the specification, run *)
(* ===================================================================== *)

(** Scenario A: one contact for 1555 and one incoming text message. *)
Example scenario_A :
  map (fun c => (c_wa_id c, c_name c)) (contacts store_A)
  = [("1555"%string, Some "Ada"%string)]
  /\ map (fun m => (m_wa_message_id m, m_direction m, m_type m, m_content m,
                    m_status m, m_timestamp m))
       (messages store_A)
     = [("wamid.A"%string, incoming, "text"%string, Some "hi"%string,
         received, "2023-11-14T22:13:20.000Z"%string)].
Proof. split; reflexivity. Qed.

(** Scenario C: a delivered status after scenario A. *)
Example scenario_C :
  let st :=
    after d1 (updateMessageStatus
                (status_event "wamid.A" st_delivered "1700000000" None))
      store_A in
  map m_status (messages st) = [delivered]
  /\ map (fun r => (s_wa_message_id r, s_status r, s_timestamp r))
       (message_statuses st)
     = [("wamid.A"%string, st_delivered, "2023-11-14T22:13:20.000Z"%string)].
Proof. split; reflexivity. Qed.

(** A status whose timestamp is not a number: the conversion throws before
    anything is written. *)
Example status_with_bad_timestamp :
  run d1 (updateMessageStatus (status_event "wamid.A" st_read "soon" None))
    store_A []
  = (Err invalid_time, store_A, []).
Proof. reflexivity. Qed.

(** The webhook handler on the batch, against the real store: what it
    writes on the console. *)
Example batch_console :
  console_of (run d1 (post scenario_toString (Some batch)) store_0 [])
  = [log_webhook_received "15550001111";
     log_message_received "Ada" "1555" "wamid.A" "text";
     log_message_saved 1;
     log_text (Some "hi"%string);
     log_message_received "Ada" "1555" "wamid.A" "text";
     error_saving_message (unique_failed "messages.wa_message_id");
     log_status_update "wamid.ZZZ" st_sent "1555";
     error_updating_status invalid_time;
     log_webhook_received "15550001111";
     log_message_received "Ada" "1555" "wamid.R" "reaction";
     log_message_saved 2;
     log_message_type "reaction";
     log_status_update "wamid.A" st_read "1555";
     log_status_updated st_read].
Proof. reflexivity. Qed.

(* ===================================================================== *)
(** ** Primary keys *)
(* ===================================================================== *)

Lemma id_below_next {A} (id : A -> Z) (rows : list A) (r : A) :
  In r rows -> id r < next_id id rows.
Proof.
  unfold next_id. induction rows as [|x rows IH]; cbn [map fold_right In];
    [intros []|].
  intros [->|Hin]; [lia|]. specialize (IH Hin). lia.
Qed.

Lemma next_id_fresh {A} (id : A -> Z) (rows : list A) :
  ~ In (next_id id rows) (map id rows).
Proof.
  intros Hin. apply in_map_iff in Hin. destruct Hin as [r [Heq Hin]].
  pose proof (id_below_next id rows r Hin). lia.
Qed.

Lemma NoDup_id_snoc {A} (id : A -> Z) (rows : list A) (r : A) :
  NoDup (map id rows) -> id r = next_id id rows ->
  NoDup (map id (rows ++ [r])).
Proof.
  intros Hnd Hid. rewrite map_app. simpl. apply NoDup_snoc; [exact Hnd|].
  rewrite Hid. apply next_id_fresh.
Qed.

Lemma exec_keyed {B} (q : Stmt B) (st : Store) :
  keyed st -> keyed (snd (exec q st)).
Proof.
  intros Hst. destruct q; simpl; try exact Hst.
  - destruct Hst as [H1 H2 H3 H4 H5]. constructor; simpl; auto.
    rewrite map_key_update_where; [exact H1 | reflexivity].
  - destruct (existsb (has_key c_wa_id waId) (contacts st)); [exact Hst|].
    destruct Hst as [H1 H2 H3 H4 H5]. constructor; simpl; auto.
    apply NoDup_id_snoc; [exact H1 | reflexivity].
  - unfold insert_message.
    destruct (existsb _ (messages st)); [exact Hst|].
    destruct (has_id c_id (iv_contact_id v) (contacts st)); simpl;
      [|exact Hst].
    destruct Hst as [H1 H2 H3 H4 H5]. constructor; simpl; auto.
    apply NoDup_id_snoc; [exact H2 | reflexivity].
  - unfold insert_message.
    destruct (existsb _ (messages st)); [exact Hst|].
    destruct (has_id c_id (ov_contact_id v) (contacts st)); simpl;
      [|exact Hst].
    destruct Hst as [H1 H2 H3 H4 H5]. constructor; simpl; auto.
    apply NoDup_id_snoc; [exact H2 | reflexivity].
  - destruct Hst as [H1 H2 H3 H4 H5]. constructor; simpl; auto.
    rewrite map_key_update_where; [exact H2 | reflexivity].
  - destruct Hst as [H1 H2 H3 H4 H5]. constructor; simpl; auto.
    apply NoDup_id_snoc; [exact H3 | reflexivity].
  - destruct (existsb _ (conversations st)); [exact Hst|].
    destruct (has_id c_id contactId (contacts st)); simpl; [|exact Hst].
    destruct Hst as [H1 H2 H3 H4 H5]. constructor; simpl; auto.
    apply NoDup_id_snoc; [exact H4 | reflexivity].
  - destruct (has_id m_id messageId (messages st)); simpl; [|exact Hst].
    destruct Hst as [H1 H2 H3 H4 H5]. constructor; simpl; auto.
    apply NoDup_id_snoc; [exact H5 | reflexivity].
Qed.

Lemma run_keyed {A} (p : Prog A) (st : Store) (out : list ConsoleLine) :
  keyed st -> keyed (store_of (run d1 p st out)).
Proof.
  revert st out. induction p as [a|e|T q k IH|l k IH]; simpl; intros st out Hst.
  - exact Hst.
  - exact Hst.
  - unfold d1. pose proof (exec_keyed q st Hst) as Hq.
    destruct (exec q st) as [r st']. apply IH. exact Hq.
  - apply IH. exact Hst.
Qed.

Lemma empty_store_keyed clock : keyed (empty_store clock).
Proof. constructor; simpl; constructor. Qed.

(** X1. Ids are never handed out twice.  If no table of the store holds an
    id twice, the same is true after any interleaving of any calls: a new
    row takes an id above every id of its table, and no statement changes
    the id of a row. *)
Theorem X1_primary_keys_stay_unique :
  forall (pool : list Thread) (st : Store) (out : list ConsoleLine)
         (m : Machine),
    keyed st ->
    steps {| disk := st; stdout := out; calls := pool |} m ->
    keyed (disk m).
Proof.
  intros pool st out m Hst Hsteps.
  remember {| disk := st; stdout := out; calls := pool |} as m0 eqn:Hm0.
  assert (H0 : keyed (disk m0)) by (subst m0; exact Hst).
  clear Hm0 Hst. induction Hsteps as [m|m1 m2 m3 Hstep _ IH]; [exact H0|].
  apply IH. destruct Hstep; simpl in *.
  - apply exec_keyed. exact H0.
  - exact H0.
  - destruct H0 as [H1 H2 H3 H4 H5]. constructor; simpl; auto.
Qed.

(** The store the race of two upserts ends in. *)
Lemma X1_witness : keyed (disk race).
Proof.
  apply (X1_primary_keys_stay_unique
           [thread (findOrCreateContact "1555" (Some "Ada"%string));
            thread (findOrCreateContact "1555" None)]
           store_0 [] race).
  - apply empty_store_keyed.
  - apply (schedule_steps [0; 1; 0; 1]%nat).
Defined.

(* ===================================================================== *)
(** ** Contacts: creation and lookup *)
(* ===================================================================== *)

Import Queries DatabaseQueries DataRoutes.

Lemma answer_ask {B} (q : Select B) (st : Store) :
  answer (d1_at st) (ask q) = Ok (select q st).
Proof. reflexivity. Qed.

Lemma find_update_where {A} (key : A -> string) (k : string) (f : A -> A)
  (l : list A) :
  (forall r, key (f r) = key r) ->
  find (has_key key k) (update_where key k f l)
  = option_map f (find (has_key key k) l).
Proof.
  intros Hf. unfold update_where. induction l as [|x l IH]; simpl;
    [reflexivity|].
  destruct (has_key key k x) eqn:Hx.
  - unfold has_key in *. rewrite Hf, Hx. reflexivity.
  - rewrite Hx. exact IH.
Qed.

Lemma find_snoc_absent {A} (f : A -> bool) (l : list A) (x : A) :
  find f l = None -> f x = true -> find f (l ++ [x]) = Some x.
Proof.
  intros Hnone Hx. induction l as [|y l IH]; simpl in *.
  - rewrite Hx. reflexivity.
  - destruct (f y); [discriminate | apply IH; exact Hnone].
Qed.

(** X2. An address with no contact row gets one: [findOrCreateContact]
    appends a single row and returns it.  The row carries the address as
    [wa_id] and as [phone_number], the supplied name if it is non-empty and
    [NULL] otherwise, the current time in all four time columns, and an id
    no contact had before; the rows that were there and the other tables
    are untouched. *)
Theorem X2_unknown_address_creates_contact :
  forall (st : Store) (waId : string) (name : option string),
    existsb (has_key c_wa_id waId) (contacts st) = false ->
    let r := run d1 (findOrCreateContact waId name) st [] in
    exists row,
      result_of r = Ok (Some row)
      /\ store_of r = set_contacts (contacts st ++ [row]) st
      /\ c_wa_id row = waId
      /\ c_phone_number row = Some waId
      /\ c_name row = or_null_string name
      /\ c_first_seen_at row = now st
      /\ c_last_message_at row = now st
      /\ c_created_at row = now st
      /\ c_updated_at row = now st
      /\ ~ In (c_id row) (map c_id (contacts st)).
Proof.
  intros st waId name Hnew r. subst r. rewrite findOrCreateContact_run.
  destruct (find (has_key c_wa_id waId) (contacts st)) as [found|] eqn:Hfind.
  - apply find_some_existsb in Hfind. congruence.
  - exists (new_contact st waId (or_null_string name) waId).
    repeat split. simpl. apply next_id_fresh.
Qed.

(** The first contact of an empty store. *)
Lemma X2_witness :
  exists row,
    result_of (run d1 (findOrCreateContact "1555" (Some EmptyString))
                 store_0 [])
    = Ok (Some row)
    /\ c_name row = None
    /\ c_phone_number row = Some "1555"%string.
Proof.
  destruct (X2_unknown_address_creates_contact store_0 "1555"
              (Some EmptyString) eq_refl)
    as [row [Hres [_ [_ [Hphone [Hname _]]]]]].
  exists row. split; [exact Hres|]. split; [exact Hname | exact Hphone].
Defined.


(* ===================================================================== *)
(** ** Saving an inbound message, step by step *)
(* ===================================================================== *)

Lemma save_interactive_response_rows message row st out :
  has_id m_id (m_id row) (messages st) = true ->
  run d1 (save_interactive_response message (Some row)) st out
  = (Ok tt,
     set_interactive_responses
       (interactive_responses st ++ selection_rows st message row) st,
     out).
Proof.
  intros Hfk. unfold save_interactive_response, selection_rows.
  destruct (im_type message =? "interactive")%string;
    [destruct (im_interactive message) as [i|]; cbn [chain_opt];
     [destruct (selected_response i) as [[[rid rtitle] rdesc]|];
      cbn [option_map]|]|].
  2-4: rewrite app_nil_r; destruct st; reflexivity.
  rewrite run_await. unfold d1. cbn [exec]. rewrite Hfk. reflexivity.
Qed.

(** The record the upsert returns names a row of the table it leaves, with
    the same id, address and name. *)
Lemma findOrCreateContact_row (waId : string) (name : option string)
  (st : Store) (out : list ConsoleLine) :
  exists c st1 stored,
    run d1 (findOrCreateContact waId name) st out = (Ok (Some c), st1, out)
    /\ st1 = set_contacts (contacts st1) st
    /\ In stored (contacts st1)
    /\ c_id stored = c_id c
    /\ c_wa_id stored = waId
    /\ c_name stored = c_name c
    /\ c_name c
       = name_after name
           (chain_opt (find (has_key c_wa_id waId) (contacts st)) c_name).
Proof.
  rewrite findOrCreateContact_run.
  destruct (find (has_key c_wa_id waId) (contacts st)) as [found|] eqn:Hfind.
  - pose proof (find_some _ _ Hfind) as [Hin Hkey].
    apply has_key_true in Hkey.
    eexists. eexists.
    exists (touch_contact (or_null_string name) (now st) found).
    split; [reflexivity|]. cbn [contacts set_contacts].
    split; [reflexivity|]. split.
    { unfold update_where. apply in_map_iff. exists found.
      split; [|exact Hin].
      assert (Hk : has_key c_wa_id waId found = true)
        by (apply has_key_true; exact Hkey).
      rewrite Hk. reflexivity. }
    split; [reflexivity|]. split; [exact Hkey|]. split.
    { simpl. unfold or_else_string.
      destruct (or_null_string name); reflexivity. }
    reflexivity.
  - eexists. eexists.
    exists (new_contact st waId (or_null_string name) waId).
    split; [reflexivity|]. cbn [contacts set_contacts].
    split; [reflexivity|]. split.
    { apply in_or_app. right. left. reflexivity. }
    split; [reflexivity|]. split; [reflexivity|]. split; [reflexivity|].
    simpl. unfold name_after, or_else_string.
    destruct (or_null_string name); reflexivity.
Qed.

(** What [saveIncomingMessage] does once the contact is upserted. *)
Lemma saveIncomingMessage_unfold nts message contact st out :
  exists c st1 stored,
    run d1 (findOrCreateContact (im_from message) (profile_of contact)) st out
    = (Ok (Some c), st1, out)
    /\ st1 = set_contacts (contacts st1) st
    /\ In stored (contacts st1)
    /\ c_id stored = c_id c
    /\ c_wa_id stored = im_from message
    /\ c_name stored
       = name_after (profile_of contact)
           (chain_opt (find (has_key c_wa_id (im_from message))
                         (contacts st)) c_name)
    /\ run d1 (saveIncomingMessage nts message contact) st out
       = match unix_to_iso (im_timestamp message) with
         | None => (Err invalid_time, st1, out)
         | Some t =>
             match content (extract nts message) with
             | js_undefined => (Err undefined_bound, st1, out)
             | bound =>
                 if existsb (has_key m_wa_message_id (im_id message))
                      (messages st)
                 then (Err (unique_failed "messages.wa_message_id"), st1, out)
                 else
                   let x := extract nts message in
                   let row :=
                     new_incoming st1
                       {| iv_wa_message_id := im_id message;
                          iv_contact_id := c_id c;
                          iv_type := im_type message;
                          iv_content :=
                            match bound with
                            | js_string s => Some s
                            | _ => None
                            end;
                          iv_media_id := mediaId x;
                          iv_media_mime_type := mediaMimeType x;
                          iv_media_filename := mediaFilename x;
                          iv_caption := caption x;
                          iv_latitude := latitude x;
                          iv_longitude := longitude x;
                          iv_location_name := locationName x;
                          iv_location_address := locationAddress x;
                          iv_reply_to_message_id :=
                            or_null_string (chain (im_context message) ctx_id);
                          iv_timestamp := t |} in
                   (Ok (Some row),
                    set_interactive_responses
                      (interactive_responses st
                         ++ selection_rows st message row)
                      (set_messages (messages st ++ [row]) st1),
                    out)
             end
         end.
Proof.
  unfold profile_of.
  destruct (findOrCreateContact_row (im_from message)
              (chain contact (fun c => profile_name (wc_profile c))) st out)
    as [c [st1 [stored [Hrun [Hst1 [Hin [Hid [Hwa [Hname Hc]]]]]]]]].
  exists c, st1, stored. split; [exact Hrun|]. split; [exact Hst1|].
  split; [exact Hin|]. split; [exact Hid|]. split; [exact Hwa|].
  split; [rewrite Hname; exact Hc|].
  assert (Hfk : has_id c_id (c_id c) (contacts st1) = true)
    by (rewrite <- Hid; apply has_id_in; exact Hin).
  unfold saveIncomingMessage. rewrite run_bind, Hrun.
  unfold iso_timestamp.
  destruct (unix_to_iso (im_timestamp message)) as [t|]; [|reflexivity].
  cbn [bind contact_id_of].
  assert (Hm1 : messages st1 = messages st) by (rewrite Hst1; reflexivity).
  assert (Hi1 : interactive_responses st1 = interactive_responses st)
    by (rewrite Hst1; reflexivity).
  assert (Hn1 : now st1 = now st) by (rewrite Hst1; reflexivity).
  destruct (content (extract nts message)) as [| |s] eqn:Hcontent;
    cbn [bind bind_content]; [reflexivity| |].
  all: rewrite run_bind, run_await; unfold d1; cbn [exec];
    unfold insert_message; cbn [iv_wa_message_id iv_contact_id];
    rewrite Hm1;
    destruct (existsb (has_key m_wa_message_id (im_id message)) (messages st));
    [reflexivity|]; rewrite Hfk; cbn [negb fst snd]; rewrite run_bind;
    fold d1; rewrite save_interactive_response_rows
      by (apply (has_id_last m_id)); cbn [run];
    unfold selection_rows; cbn [interactive_responses set_messages now];
    rewrite Hi1, Hn1; reflexivity.
Qed.

Lemma contact_row_present (waId : string) (stored : ContactRecord)
  (rows : list ContactRecord) :
  In stored rows -> c_wa_id stored = waId ->
  existsb (has_key c_wa_id waId) rows = true.
Proof.
  intros Hin Hwa. apply existsb_exists. exists stored.
  split; [exact Hin | apply has_key_true; exact Hwa].
Qed.

(** X4. A message whose timestamp does not convert is not saved, but its
    sender is: [saveIncomingMessage] throws the [RangeError] of
    [toISOString] after the contact upsert has been written, and nothing
    undoes that write.  The message and interactive-response tables are as
    before, while the contacts are as the upsert left them, so the sender
    has a row even if this was its first message. *)
Theorem X4_bad_timestamp_after_contact_upsert :
  forall (Number_toString : number -> string) (st : Store)
         (message : IncomingMessage) (contact : option WebhookContact),
    epoch_seconds (im_timestamp message) = false ->
    let r := run d1 (saveIncomingMessage Number_toString message contact)
               st [] in
    result_of r = Err invalid_time
    /\ store_of r
       = after d1 (findOrCreateContact (im_from message) (profile_of contact))
           st
    /\ messages (store_of r) = messages st
    /\ interactive_responses (store_of r) = interactive_responses st
    /\ existsb (has_key c_wa_id (im_from message)) (contacts (store_of r))
       = true.
Proof.
  intros nts st message contact Hts r. subst r.
  destruct (saveIncomingMessage_unfold nts message contact st [])
    as [c [st1 [stored [Hup [Hst1 [Hin [_ [Hwa [_ Hrun]]]]]]]]].
  rewrite Hrun. unfold after. rewrite Hup. unfold epoch_seconds in Hts.
  destruct (unix_to_iso (im_timestamp message)); [discriminate|].
  unfold result_of, store_of. simpl.
  split; [reflexivity|]. split; [reflexivity|].
  split; [rewrite Hst1; reflexivity|].
  split; [rewrite Hst1; reflexivity|].
  apply (contact_row_present _ stored); assumption.
Qed.

(** A first message from 1777 with a bad date: no message row, one contact
    row more. *)
Lemma X4_witness :
  let r := run d1 (saveIncomingMessage scenario_toString message_undated None)
             store_A [] in
  existsb (has_key c_wa_id "1777") (contacts store_A) = false
  /\ result_of r = Err invalid_time
  /\ messages (store_of r) = messages store_A
  /\ map c_wa_id (contacts (store_of r)) = ["1555"; "1777"]%string.
Proof.
  destruct (X4_bad_timestamp_after_contact_upsert scenario_toString store_A
              message_undated None eq_refl) as [Hres [_ [Hm _]]].
  split; [reflexivity|]. split; [exact Hres|]. split; [exact Hm|].
  reflexivity.
Defined.






(* ===================================================================== *)
(** ** Looking a message up *)
(* ===================================================================== *)


(** With unique contact ids, the join gives a message the one contact that
    has its [contact_id]. *)
Lemma contact_of_id (rows : list ContactRecord) (stored : ContactRecord) :
  NoDup (map c_id rows) -> In stored rows ->
  filter (fun c => c_id c =? c_id stored) rows = [stored].
Proof.
  intros Hnd Hin. induction rows as [|c rows IH]; [destruct Hin|].
  inversion Hnd as [|? ? Hc Hrows]; subst. simpl.
  destruct Hin as [->|Hin].
  - rewrite Z.eqb_refl. f_equal.
    assert (Hnone : forall l, (forall x, In x l -> c_id x <> c_id stored) ->
                              filter (fun c => c_id c =? c_id stored) l = []).
    { induction l as [|x l IHl]; intros H; [reflexivity|]. simpl.
      destruct (c_id x =? c_id stored) eqn:Hx.
      - apply Z.eqb_eq in Hx. exfalso. apply (H x); [left; reflexivity|].
        exact Hx.
      - apply IHl. intros y Hy. apply H. right. exact Hy. }
    apply Hnone. intros x Hx Heq. apply Hc. rewrite <- Heq.
    apply in_map. exact Hx.
  - destruct (c_id c =? c_id stored) eqn:Hcs.
    + apply Z.eqb_eq in Hcs. exfalso. apply Hc. rewrite Hcs.
      apply in_map. exact Hin.
    + apply IH; assumption.
Qed.

Lemma no_message_with_id (st : Store) (waMessageId : string)
  (rows : list MessageRecord) :
  existsb (has_key m_wa_message_id waMessageId) rows = false ->
  filter (fun r => has_key m_wa_message_id waMessageId (mc_message r))
    (flat_map
       (fun m =>
          map (with_contact m)
            (filter (fun c => c_id c =? m_contact_id m) (contacts st)))
       rows)
  = [].
Proof.
  induction rows as [|m rows IH]; simpl; [reflexivity|].
  intros H. apply orb_false_elim in H. destruct H as [Hm Hrows].
  rewrite filter_app, (IH Hrows), app_nil_r.
  induction (filter (fun c => c_id c =? m_contact_id m) (contacts st))
    as [|c cs IHc]; simpl; [reflexivity|].
  rewrite Hm. exact IHc.
Qed.

(** X7. Save, then look up.  On a store whose contact ids are unique, a
    message saved under a new id is found again by [getMessage] with that
    id: the row it returns is the row [saveIncomingMessage] returned, joined
    with the sender's address and with the name the sender's contact now
    has. *)
Theorem X7_save_then_getMessage :
  forall (Number_toString : number -> string) (st : Store)
         (message : IncomingMessage) (contact : option WebhookContact),
    keyed st ->
    epoch_seconds (im_timestamp message) = true ->
    content (extract Number_toString message) <> js_undefined ->
    existsb (has_key m_wa_message_id (im_id message)) (messages st) = false ->
    let r := run d1 (saveIncomingMessage Number_toString message contact)
               st [] in
    exists saved,
      result_of r = Ok (Some saved)
      /\ answer (d1_at (store_of r))
           (getMessage (im_id message))
         = Ok (Some
                 {| mc_message := saved;
                    mc_contact_name :=
                      name_after (profile_of contact)
                        (chain_opt
                           (find (has_key c_wa_id (im_from message))
                              (contacts st)) c_name);
                    mc_contact_wa_id := im_from message |}).
Proof.
  intros nts st message contact Hkeys Hts Hdef Hfresh r. subst r.
  destruct (saveIncomingMessage_unfold nts message contact st [])
    as [c [st1 [stored [Hup [Hst1 [Hin [Hid [Hwa [Hname Hrun]]]]]]]]].
  assert (Hk1 : keyed st1).
  { pose proof (run_keyed (findOrCreateContact (im_from message)
                             (profile_of contact)) st [] Hkeys) as H.
    rewrite Hup in H. exact H. }
  rewrite Hrun, Hfresh. unfold epoch_seconds in Hts.
  destruct (unix_to_iso (im_timestamp message)) as [t|]; [|discriminate].
  assert (Hgoal :
            forall row st2,
              m_wa_message_id row = im_id message ->
              m_contact_id row = c_id c ->
              messages st2 = messages st ++ [row] ->
              contacts st2 = contacts st1 ->
              answer (d1_at st2) (getMessage (im_id message))
              = Ok (Some {| mc_message := row;
                            mc_contact_name := c_name stored;
                            mc_contact_wa_id := im_from message |})).
  { intros row st2 Hrid Hcid Hm Hc. unfold getMessage. rewrite answer_ask.
    cbn [select]. unfold messages_with_contacts. rewrite Hm, Hc.
    rewrite flat_map_app, filter_app.
    pose proof (no_message_with_id st1 (im_id message) (messages st) Hfresh)
      as Hold.
    cbv beta in Hold. rewrite Hold. cbn [app flat_map]. rewrite app_nil_r.
    rewrite Hcid, <- Hid.
    rewrite (contact_of_id (contacts st1) stored (contact_ids st1 Hk1) Hin).
    cbn [map filter]. unfold has_key at 1. cbn [mc_message with_contact].
    rewrite Hrid, String.eqb_refl. cbn [hd_error].
    unfold with_contact. rewrite Hwa. reflexivity. }
  destruct (content (extract nts message)) as [| |s] eqn:Hc;
    [contradiction| |].
  all: cbv zeta; eexists; unfold result_of, store_of; cbn [fst snd];
    (split; [reflexivity|]); rewrite <- Hname; apply Hgoal; reflexivity.
Qed.

(** The reaction of the scenarios, saved and looked up. *)
Lemma X7_witness :
  let r := run d1 (saveIncomingMessage scenario_toString message_reaction
                     None) store_A [] in
  exists found,
    answer (d1_at (store_of r)) (getMessage "wamid.R")
    = Ok (Some found)
    /\ Ok (Some (mc_message found)) = result_of r
    /\ mc_contact_name found = Some "Ada"%string
    /\ mc_contact_wa_id found = "1555"%string.
Proof.
  assert (Hkeys : keyed store_A)
    by (apply run_keyed; apply empty_store_keyed).
  assert (Hdef : content (extract scenario_toString message_reaction)
                 <> js_undefined) by discriminate.
  destruct (X7_save_then_getMessage scenario_toString store_A
              message_reaction None Hkeys eq_refl Hdef eq_refl)
    as [saved [Hres Hget]].
  eexists. split; [exact Hget|]. split; [symmetry; exact Hres|].
  split; reflexivity.
Defined.

(* ===================================================================== *)
(** ** Outbound messages *)
(* ===================================================================== *)

Lemma saveOutgoingMessage_unfold waMessageId to type content options st out :
  exists c st1 stored,
    run d1 (findOrCreateContact to None) st out = (Ok (Some c), st1, out)
    /\ st1 = set_contacts (contacts st1) st
    /\ In stored (contacts st1)
    /\ c_wa_id stored = to
    /\ c_id stored = c_id c
    /\ c_name stored
       = chain_opt (find (has_key c_wa_id to) (contacts st)) c_name
    /\ run d1 (saveOutgoingMessage waMessageId to type content options) st out
       = if existsb (has_key m_wa_message_id waMessageId) (messages st)
         then (Err (unique_failed "messages.wa_message_id"), st1, out)
         else
           let row :=
             new_outgoing st1
               {| ov_wa_message_id := waMessageId;
                  ov_contact_id := c_id c;
                  ov_type := type;
                  ov_content := content;
                  ov_media_id :=
                    or_null_string (chain_opt options oo_mediaId);
                  ov_caption := or_null_string (chain_opt options oo_caption);
                  ov_latitude :=
                    or_null_number (chain_opt options oo_latitude);
                  ov_longitude :=
                    or_null_number (chain_opt options oo_longitude);
                  ov_location_name :=
                    or_null_string (chain_opt options oo_locationName);
                  ov_location_address :=
                    or_null_string (chain_opt options oo_locationAddress);
                  ov_reply_to_message_id :=
                    or_null_string (chain_opt options oo_replyToMessageId) |}
           in
           (Ok (Some row), set_messages (messages st ++ [row]) st1, out).
Proof.
  destruct (findOrCreateContact_row to None st out)
    as [c [st1 [stored [Hrun [Hst1 [Hin [Hid [Hwa [Hname Hc]]]]]]]]].
  exists c, st1, stored. split; [exact Hrun|]. split; [exact Hst1|].
  split; [exact Hin|]. split; [exact Hwa|]. split; [exact Hid|].
  split; [rewrite Hname, Hc; reflexivity|].
  assert (Hfk : has_id c_id (c_id c) (contacts st1) = true)
    by (rewrite <- Hid; apply has_id_in; exact Hin).
  assert (Hm1 : messages st1 = messages st) by (rewrite Hst1; reflexivity).
  unfold saveOutgoingMessage. rewrite run_bind, Hrun.
  cbn [bind contact_id_of]. rewrite run_bind, run_await. unfold d1.
  cbn [exec]. unfold insert_message. cbn [ov_wa_message_id ov_contact_id].
  rewrite Hm1.
  destruct (existsb (has_key m_wa_message_id waMessageId) (messages st));
    [reflexivity|].
  rewrite Hfk. reflexivity.
Qed.

(** X8. An outbound message under a new id is stored as [outgoing] with
    status [sent], the store's current time as its timestamp, and the given
    type and content.  Of the options only the media id, the caption, the
    location and the reply target reach the row: [media_filename],
    [media_mime_type] and [media_url] are [NULL] whatever [options.filename]
    says.  The recipient gets a contact row if it had none, and keeps the
    name it had otherwise. *)
Theorem X8_outgoing_message_row :
  forall (st : Store) (waMessageId to type : string)
         (content : option string) (options : option OutgoingOptions),
    existsb (has_key m_wa_message_id waMessageId) (messages st) = false ->
    let r := run d1 (saveOutgoingMessage waMessageId to type content options)
               st [] in
    exists saved recipient,
      result_of r = Ok (Some saved)
      /\ messages (store_of r) = messages st ++ [saved]
      /\ m_wa_message_id saved = waMessageId
      /\ m_direction saved = outgoing
      /\ m_status saved = sent
      /\ m_type saved = type
      /\ m_content saved = content
      /\ m_timestamp saved = now st
      /\ m_media_filename saved = None
      /\ m_media_mime_type saved = None
      /\ m_media_url saved = None
      /\ m_media_id saved = or_null_string (chain_opt options oo_mediaId)
      /\ In recipient (contacts (store_of r))
      /\ c_wa_id recipient = to
      /\ m_contact_id saved = c_id recipient
      /\ c_name recipient
         = chain_opt (find (has_key c_wa_id to) (contacts st)) c_name.
Proof.
  intros st waMessageId to type content options Hfresh r. subst r.
  destruct (saveOutgoingMessage_unfold waMessageId to type content options
              st [])
    as [c [st1 [stored [Hup [Hst1 [Hin [Hwa [Hid [Hname Hrun]]]]]]]]].
  rewrite Hrun, Hfresh. cbv zeta. eexists. exists stored.
  unfold result_of, store_of. cbn [fst snd].
  assert (Hn : now st1 = now st) by (rewrite Hst1; reflexivity).
  split; [reflexivity|]. split; [reflexivity|].
  split; [reflexivity|]. split; [reflexivity|]. split; [reflexivity|].
  split; [reflexivity|]. split; [reflexivity|]. split; [exact Hn|].
  split; [reflexivity|]. split; [reflexivity|]. split; [reflexivity|].
  split; [reflexivity|]. split; [exact Hin|]. split; [exact Hwa|].
  split; [symmetry; exact Hid | exact Hname].
Qed.

(** A document sent to 1555: the filename is not kept, the name is. *)
Lemma X8_witness :
  let r := run d1 (saveOutgoingMessage "wamid.OUT" "1555" "document" None
                     (Some document_options)) store_A [] in
  exists saved,
    result_of r = Ok (Some saved)
    /\ m_media_id saved = Some "media.7"%string
    /\ m_media_filename saved = None
    /\ map c_name (contacts (store_of r)) = [Some "Ada"%string].
Proof.
  destruct (X8_outgoing_message_row store_A "wamid.OUT" "1555" "document"
              None (Some document_options) eq_refl)
    as [saved [recipient [Hres [_ [_ [_ [_ [_ [_ [_ [Hfile [_ [_ [Hmedia _]]]]]]]]]]]]]].
  exists saved. split; [exact Hres|]. split; [exact Hmedia|].
  split; [exact Hfile | reflexivity].
Defined.

(** X9. An outbound message under an id that is already stored is refused
    like an inbound one: [saveOutgoingMessage] throws the [UNIQUE] violation
    on [messages.wa_message_id] and leaves the message table as it was; the
    recipient's contact has been upserted before. *)
Theorem X9_outgoing_duplicate_rejected :
  forall (st : Store) (waMessageId to type : string)
         (content : option string) (options : option OutgoingOptions),
    existsb (has_key m_wa_message_id waMessageId) (messages st) = true ->
    let r := run d1 (saveOutgoingMessage waMessageId to type content options)
               st [] in
    result_of r = Err (unique_failed "messages.wa_message_id")
    /\ messages (store_of r) = messages st
    /\ store_of r = after d1 (findOrCreateContact to None) st
    /\ existsb (has_key c_wa_id to) (contacts (store_of r)) = true.
Proof.
  intros st waMessageId to type content options Hdup r. subst r.
  destruct (saveOutgoingMessage_unfold waMessageId to type content options
              st [])
    as [c [st1 [stored [Hup [Hst1 [Hin [Hwa [_ [_ Hrun]]]]]]]]].
  rewrite Hrun, Hdup. unfold after. rewrite Hup.
  unfold result_of, store_of. cbn [fst snd].
  split; [reflexivity|]. split; [rewrite Hst1; reflexivity|].
  split; [reflexivity|].
  apply (contact_row_present _ stored); assumption.
Qed.

(** Sending under scenario A's id, to someone new. *)
Lemma X9_witness :
  let r := run d1 (saveOutgoingMessage "wamid.A" "1999" "text"
                     (Some "hi"%string) None) store_A [] in
  result_of r = Err (unique_failed "messages.wa_message_id")
  /\ map c_wa_id (contacts (store_of r)) = ["1555"; "1999"]%string.
Proof.
  destruct (X9_outgoing_duplicate_rejected store_A "wamid.A" "1999" "text"
              (Some "hi"%string) None eq_refl) as [Hres _].
  split; [exact Hres | reflexivity].
Defined.

(* ===================================================================== *)
(** ** Status callbacks: what is not written *)
(* ===================================================================== *)

(** X10. A status whose timestamp does not convert is dropped whole,
    whatever the store would answer: [updateMessageStatus] throws the
    [RangeError] before its first statement, so neither the status column nor
    the history is touched; [handleStatusUpdate] catches the error, reports
    it on the console and returns normally. *)
Theorem X10_status_with_bad_timestamp_writes_nothing :
  forall (W : Type) (h : Handler W) (status : MessageStatus) (w : W)
         (out : list ConsoleLine),
    epoch_seconds (ms_timestamp status) = false ->
    run h (updateMessageStatus status) w out = (Err invalid_time, w, out)
    /\ result_of (run h (handleStatusUpdate status) w out) = Ok tt
    /\ store_of (run h (handleStatusUpdate status) w out) = w
    /\ In (error_updating_status invalid_time)
         (console_of (run h (handleStatusUpdate status) w out))
    /\ ~ In (log_status_updated (ms_status status))
           (console_of (run h (handleStatusUpdate status) w [])).
Proof.
  intros W h status w out Hts.
  assert (Hthrow : forall o,
             run h (updateMessageStatus status) w o = (Err invalid_time, w, o)).
  { intros o. unfold updateMessageStatus, iso_timestamp.
    unfold epoch_seconds in Hts.
    destruct (unix_to_iso (ms_timestamp status)); [discriminate|].
    reflexivity. }
  split; [apply Hthrow|].
  assert (Hrun : forall o,
             exists tail,
               run h (handleStatusUpdate status) w o
               = (Ok tt, w,
                  (o ++ [log_status_update (ms_id status) (ms_status status)
                           (ms_recipient_id status)])
                    ++ [error_updating_status invalid_time] ++ tail)
               /\ forall l, In l tail ->
                            l <> log_status_updated (ms_status status)).
  { intros o. unfold handleStatusUpdate.
    rewrite run_bind, run_console, run_bind, run_try_catch, run_bind, Hthrow.
    rewrite run_console.
    destruct (ms_status status); destruct (ms_errors status) as [errors|];
      try (exists []; split; [reflexivity | intros l []]).
    rewrite for_of_console_run. eexists. split.
    - rewrite <- app_assoc. reflexivity.
    - intros l Hl. apply in_map_iff in Hl. destruct Hl as [e [<- _]].
      discriminate. }
  destruct (Hrun out) as [tail [Hout _]].
  destruct (Hrun []) as [tail0 [Hnil Hother]].
  rewrite Hout, Hnil. unfold result_of, store_of, console_of. cbn [fst snd].
  split; [reflexivity|]. split; [reflexivity|]. split.
  - apply in_or_app. right. left. reflexivity.
  - intros Hin. simpl in Hin.
    destruct Hin as [Hin|[Hin|Hin]]; try discriminate.
    apply (Hother _ Hin). reflexivity.
Qed.

(** The status of the batch that says "soon", against the store of
    scenario A. *)
Lemma X10_witness :
  store_of (run d1 (handleStatusUpdate
                      (status_event "wamid.A" st_read "soon" None))
              store_A [])
  = store_A.
Proof.
  destruct (X10_status_with_bad_timestamp_writes_nothing Store d1
              (status_event "wamid.A" st_read "soon" None) store_A []
              eq_refl) as [_ [_ [Hstore _]]].
  exact Hstore.
Defined.



(* ===================================================================== *)
(** ** Reading lists: filters, order, pages *)
(* ===================================================================== *)

Lemma insert_desc_permutation {A} (le : A -> A -> bool) (x : A) (l : list A) :
  Permutation (insert_desc le x l) (x :: l).
Proof.
  induction l as [|y r IH]; simpl; [apply Permutation_refl|].
  destruct (le y x); [apply Permutation_refl|].
  apply perm_trans with (y :: x :: r); [|apply perm_swap].
  apply perm_skip. exact IH.
Qed.

Lemma order_by_desc_permutation {A} (le : A -> A -> bool) (l : list A) :
  Permutation (order_by_desc le l) l.
Proof.
  induction l as [|x l IH]; simpl; [apply perm_nil|].
  eapply perm_trans; [apply insert_desc_permutation|].
  apply perm_skip. exact IH.
Qed.

Lemma order_by_desc_in {A} (le : A -> A -> bool) (l : list A) (x : A) :
  In x (order_by_desc le l) <-> In x l.
Proof.
  split; apply Permutation_in;
    [|apply Permutation_sym]; apply order_by_desc_permutation.
Qed.

Lemma insert_desc_descending {A} (le : A -> A -> bool) (x : A) (l : list A) :
  (forall a b, le a b = false -> le b a = true) ->
  descending le l -> descending le (insert_desc le x l).
Proof.
  intros Htotal. unfold descending.
  induction l as [|y r IH]; simpl; intros Hs.
  - constructor; constructor.
  - destruct (le y x) eqn:Hyx.
    + constructor; [exact Hs|]. constructor. exact Hyx.
    + inversion Hs as [|? ? Hr Hhd]; subst.
      constructor; [apply IH; exact Hr|].
      destruct r as [|z r']; simpl.
      * constructor. apply Htotal. exact Hyx.
      * destruct (le z x).
        -- constructor. apply Htotal. exact Hyx.
        -- inversion Hhd; subst. constructor. assumption.
Qed.

Lemma order_by_desc_descending {A} (le : A -> A -> bool) (l : list A) :
  (forall a b, le a b = false -> le b a = true) ->
  descending le (order_by_desc le l).
Proof.
  intros Htotal. induction l as [|x l IH]; simpl.
  - constructor.
  - apply insert_desc_descending; assumption.
Qed.

Lemma descending_skipn {A} (le : A -> A -> bool) (n : nat) (l : list A) :
  descending le l -> descending le (skipn n l).
Proof.
  unfold descending. revert l.
  induction n as [|n IH]; intros l Hs; [exact Hs|].
  destruct l as [|x l]; [exact Hs|]. simpl. apply IH.
  inversion Hs; assumption.
Qed.

Lemma descending_firstn {A} (le : A -> A -> bool) (n : nat) (l : list A) :
  descending le l -> descending le (firstn n l).
Proof.
  unfold descending. revert l.
  induction n as [|n IH]; intros l Hs; [constructor|].
  destruct l as [|x l]; [constructor|]. simpl.
  inversion Hs as [|? ? Hl Hhd]; subst.
  constructor; [apply IH; exact Hl|].
  destruct n; [constructor|].
  destruct l as [|y l]; [constructor|]. simpl.
  inversion Hhd; subst. constructor. assumption.
Qed.

Lemma page_descending {A} (le : A -> A -> bool) (limit offset : Z)
  (l : list A) :
  descending le l -> descending le (page limit offset l).
Proof.
  intros Hs. unfold page. cbv zeta.
  destruct (limit <? 0).
  - apply descending_skipn. exact Hs.
  - apply descending_firstn, descending_skipn. exact Hs.
Qed.

Lemma page_in {A} (limit offset : Z) (l : list A) (x : A) :
  In x (page limit offset l) -> In x l.
Proof.
  unfold page. cbv zeta. intros Hin.
  assert (Hskip : In x (skipn (Z.to_nat offset) l)).
  { destruct (limit <? 0); [exact Hin|].
    rewrite <- (firstn_skipn (Z.to_nat limit)). apply in_or_app. left.
    exact Hin. }
  rewrite <- (firstn_skipn (Z.to_nat offset) l). apply in_or_app. right.
  exact Hskip.
Qed.

Lemma page_length {A} (limit offset : Z) (l : list A) :
  0 <= limit -> Z.of_nat (List.length (page limit offset l)) <= limit.
Proof.
  intros Hlimit. unfold page. cbv zeta.
  destruct (limit <? 0) eqn:Hneg; [apply Z.ltb_lt in Hneg; lia|].
  rewrite length_firstn. lia.
Qed.

Lemma page_whole {A} (limit offset : Z) (l : list A) :
  offset <= 0 -> Z.of_nat (List.length l) <= limit ->
  page limit offset l = l.
Proof.
  intros Hoffset Hlimit. unfold page. cbv zeta.
  replace (Z.to_nat offset) with 0%nat by lia. cbn [skipn].
  destruct (limit <? 0); [reflexivity|].
  apply firstn_all2. lia.
Qed.

(** The join: every row pairs a stored message with the stored contact its
    [contact_id] names. *)
Lemma in_messages_with_contacts st r :
  In r (messages_with_contacts st)
  <-> exists m c,
        In m (messages st) /\ In c (contacts st)
        /\ c_id c = m_contact_id m /\ r = with_contact m c.
Proof.
  unfold messages_with_contacts. rewrite in_flat_map. split.
  - intros [m [Hm Hin]]. apply in_map_iff in Hin.
    destruct Hin as [c [<- Hc]]. apply filter_In in Hc.
    destruct Hc as [Hc Hid]. apply Z.eqb_eq in Hid.
    exists m, c. repeat split; assumption.
  - intros [m [c [Hm [Hc [Hid ->]]]]]. exists m. split; [exact Hm|].
    apply in_map. apply filter_In. split; [exact Hc|].
    apply Z.eqb_eq. exact Hid.
Qed.

Lemma clause_satisfied make x conditions r :
  forallb (satisfies r) (clause make x ++ conditions) = true ->
  (forall s, x = Some s -> s <> EmptyString -> satisfies r (make s) = true)
  /\ forallb (satisfies r) conditions = true.
Proof.
  unfold clause, or_null_string.
  destruct x as [[|a s]|]; cbn [app forallb]; intros H.
  - split; [|exact H]. intros s Hs Hne. injection Hs as <-. contradiction.
  - apply andb_prop in H. destruct H as [H1 H2]. split; [|exact H2].
    intros s' Hs _. injection Hs as <-. exact H1.
  - split; [|exact H]. intros s Hs. discriminate.
Qed.

Lemma direction_eqb_eq a b : direction_eqb a b = true <-> a = b.
Proof. destruct a, b; simpl; split; congruence. Qed.

(** X12. Every row [getMessages] returns is a stored message joined with
    the stored contact its [contact_id] names, and passes every filter that
    was given: the contact's address, the direction and the type are the ones
    asked for, and the timestamp lies between [startDate] and [endDate],
    compared as text.  A filter given as the empty string is no
    filter: nothing is promised for it. *)
Theorem X12_getMessages_rows_match_filters :
  forall (st : Store) (options : MessageOptions),
  exists rows,
    answer (d1_at st) (getMessages (Some options)) = Ok rows
    /\ forall r, In r rows ->
         (exists c,
             In (mc_message r) (messages st) /\ In c (contacts st)
             /\ c_id c = m_contact_id (mc_message r)
             /\ mc_contact_name r = c_name c
             /\ mc_contact_wa_id r = c_wa_id c)
         /\ (forall s, mo_contactWaId options = Some s -> s <> EmptyString ->
                       mc_contact_wa_id r = s)
         /\ (forall d, mo_direction options = Some d ->
                       m_direction (mc_message r) = d)
         /\ (forall t, mo_type options = Some t -> t <> EmptyString ->
                       m_type (mc_message r) = t)
         /\ (forall s, mo_startDate options = Some s -> s <> EmptyString ->
                       String.leb s (m_timestamp (mc_message r)) = true)
         /\ (forall s, mo_endDate options = Some s -> s <> EmptyString ->
                       String.leb (m_timestamp (mc_message r)) s = true).
Proof.
  intros st options. eexists. split; [reflexivity|].
  intros r Hin. cbn [select] in Hin. apply page_in in Hin.
  apply order_by_desc_in in Hin. apply filter_In in Hin.
  destruct Hin as [Hjoin Hsat].
  apply in_messages_with_contacts in Hjoin.
  destruct Hjoin as [m [c [Hm [Hc [Hid ->]]]]].
  split.
  { exists c. repeat split; assumption. }
  unfold satisfies_all, conditions_of in Hsat.
  apply clause_satisfied in Hsat. destruct Hsat as [Hcontact Hsat].
  assert (Hdir : (forall d, mo_direction options = Some d ->
                            m_direction m = d)
                 /\ forallb (satisfies (with_contact m c))
                      (clause type_is (mo_type options)
                         ++ clause timestamp_from (mo_startDate options)
                         ++ clause timestamp_until (mo_endDate options))
                    = true).
  { unfold direction_clause in Hsat.
    destruct (mo_direction options) as [d|]; cbn [app forallb] in Hsat.
    - apply andb_prop in Hsat. destruct Hsat as [Hd Hrest].
      split; [|exact Hrest]. intros d' Hd'. injection Hd' as <-.
      apply direction_eqb_eq. exact Hd.
    - split; [|exact Hsat]. intros d Hd. discriminate. }
  destruct Hdir as [Hdir Hsat'].
  apply clause_satisfied in Hsat'. destruct Hsat' as [Htype Hsat'].
  apply clause_satisfied in Hsat'. destruct Hsat' as [Hfrom Hsat'].
  rewrite <- (app_nil_r (clause timestamp_until (mo_endDate options)))
    in Hsat'.
  apply clause_satisfied in Hsat'. destruct Hsat' as [Huntil _].
  split.
  { intros s Hs Hne. apply String.eqb_eq. apply (Hcontact s Hs Hne). }
  split; [exact Hdir|]. split.
  { intros t Ht Hne. apply String.eqb_eq. apply (Htype t Ht Hne). }
  split.
  { intros s Hs Hne. apply (Hfrom s Hs Hne). }
  intros s Hs Hne. apply (Huntil s Hs Hne).
Qed.

Lemma leb_total_bool (a b : string) :
  String.leb a b = false -> String.leb b a = true.
Proof.
  intros H. destruct (String.leb_total a b) as [H'|H']; [congruence|exact H'].
Qed.

(** X13. The three list methods return their rows newest first, and never
    more of them than the limit: [getMessages] and [getConversation] by
    message timestamp, [getAllContacts] by [last_message_at]; when no limit
    is given the lists have at most 50 rows. *)
Theorem X13_lists_newest_first_and_bounded :
  forall (st : Store) (options : option MessageOptions)
         (contactWaId : string)
         (limit contactsLimit contactsOffset : option Z),
    exists found conversation people,
      answer (d1_at st) (getMessages options) = Ok found
      /\ answer (d1_at st) (getConversation contactWaId limit)
         = Ok conversation
      /\ answer (d1_at st)
           (getAllContacts contactsLimit contactsOffset) = Ok people
      /\ descending (by_timestamp) found
      /\ descending (by_timestamp) conversation
      /\ descending (by_last_message) people
      /\ (0 <= defaulting 50 (chain_opt options mo_limit) ->
          Z.of_nat (List.length found)
          <= defaulting 50 (chain_opt options mo_limit))
      /\ (0 <= defaulting 50 limit ->
          Z.of_nat (List.length conversation) <= defaulting 50 limit)
      /\ (0 <= defaulting 50 contactsLimit ->
          Z.of_nat (List.length people) <= defaulting 50 contactsLimit).
Proof.
  intros st options contactWaId limit climit coffset.
  do 3 eexists.
  split; [reflexivity|]. split; [reflexivity|]. split; [reflexivity|].
  cbn [select].
  assert (Hts : forall a b, by_timestamp a b = false ->
                            by_timestamp b a = true)
    by (intros a b; apply leb_total_bool).
  assert (Hlm : forall a b, by_last_message a b = false ->
                            by_last_message b a = true)
    by (intros a b; apply leb_total_bool).
  split; [apply page_descending, order_by_desc_descending, Hts|].
  split; [apply page_descending, order_by_desc_descending, Hts|].
  split; [apply page_descending, order_by_desc_descending, Hlm|].
  split.
  { destruct options as [o|]; cbn [chain_opt]; apply page_length. }
  split; apply page_length.
Qed.

Lemma matches_at_most_one {A} (id : A -> Z) (k : Z) (l : list A) :
  NoDup (map id l) ->
  (List.length (filter (fun c => (id c =? k)%Z) l) <= 1)%nat.
Proof.
  induction l as [|c l IH]; simpl; intros Hnd; [lia|].
  inversion Hnd as [|? ? Hc Hl]; subst.
  destruct (id c =? k) eqn:Hid; [|apply IH; exact Hl].
  apply Z.eqb_eq in Hid. simpl.
  assert (Hnone : filter (fun c0 => id c0 =? k) l = []).
  { clear IH Hl Hnd. simpl in Hc.
    induction l as [|d l IHl]; simpl; [reflexivity|].
    destruct (id d =? k) eqn:Hd.
    - exfalso. apply Hc. apply Z.eqb_eq in Hd. left. congruence.
    - apply IHl. intros Hin. apply Hc. right. exact Hin. }
  rewrite Hnone. simpl. lia.
Qed.

(** With unique contact ids the join has at most one row per message. *)
Lemma join_length st :
  NoDup (map c_id (contacts st)) ->
  (List.length (messages_with_contacts st) <= List.length (messages st))%nat.
Proof.
  intros Hnd. unfold messages_with_contacts.
  induction (messages st) as [|m ms IH]; simpl; [lia|].
  rewrite length_app, length_map.
  pose proof (matches_at_most_one c_id (m_contact_id m) (contacts st) Hnd).
  lia.
Qed.

Lemma filter_length_le {A} (f : A -> bool) (l : list A) :
  (List.length (filter f l) <= List.length l)%nat.
Proof.
  induction l as [|x l IH]; simpl; [lia|]. destruct (f x); simpl; lia.
Qed.

(** X14. [getMessages] loses no row.  When the offset is zero or omitted and
    the limit is at least the number of stored messages, every stored
    message whose contact is stored and that passes the filters of the call
    is among the rows returned, joined with that contact. *)
Theorem X14_getMessages_loses_no_row :
  forall (st : Store) (options : MessageOptions) (m : MessageRecord)
         (c : ContactRecord),
    keyed st ->
    defaulting 0 (mo_offset options) <= 0 ->
    Z.of_nat (List.length (messages st)) <= defaulting 50 (mo_limit options) ->
    In m (messages st) ->
    In c (contacts st) ->
    c_id c = m_contact_id m ->
    satisfies_all (conditions_of options) (with_contact m c)
    = true ->
    exists rows,
      answer (d1_at st) (getMessages (Some options)) = Ok rows
      /\ In (with_contact m c) rows.
Proof.
  intros st options m c Hkeys Hoffset Hlimit Hm Hc Hid Hsat.
  eexists. split; [reflexivity|]. cbn [select].
  rewrite page_whole.
  - apply order_by_desc_in. apply filter_In. split; [|exact Hsat].
    apply in_messages_with_contacts. exists m, c. repeat split; assumption.
  - exact Hoffset.
  - rewrite (Permutation_length (order_by_desc_permutation _ _)).
    pose proof (filter_length_le
                  (satisfies_all (conditions_of options))
                  (messages_with_contacts st)).
    pose proof (join_length st (contact_ids st Hkeys)). lia.
Qed.

(** The message of scenario A, asked for by direction, type and date. *)
Lemma X14_witness :
  exists rows r,
    answer (d1_at store_A)
      (getMessages
         (Some {| mo_contactWaId := None; mo_direction := Some incoming;
                  mo_type := Some "text"%string; mo_limit := Some 1;
                  mo_offset := None; mo_startDate := Some "2023"%string;
                  mo_endDate := None |})) = Ok rows
    /\ In r rows
    /\ m_wa_message_id (mc_message r) = "wamid.A"%string.
Proof.
  assert (Hkeys : keyed store_A)
    by (apply run_keyed; apply empty_store_keyed).
  assert (Hstore : exists m c,
             messages store_A = [m] /\ contacts store_A = [c]
             /\ c_id c = m_contact_id m
             /\ m_wa_message_id m = "wamid.A"%string
             /\ satisfies_all
                  (conditions_of
                     {| mo_contactWaId := None;
                        mo_direction := Some incoming;
                        mo_type := Some "text"%string; mo_limit := Some 1;
                        mo_offset := None;
                        mo_startDate := Some "2023"%string;
                        mo_endDate := None |}) (with_contact m c) = true).
  { vm_compute. do 2 eexists. repeat split. }
  destruct Hstore as [m [c [Hm [Hc [Hid [Hwa Hsat]]]]]].
  destruct (X14_getMessages_loses_no_row store_A
              {| mo_contactWaId := None; mo_direction := Some incoming;
                 mo_type := Some "text"%string; mo_limit := Some 1;
                 mo_offset := None; mo_startDate := Some "2023"%string;
                 mo_endDate := None |} m c Hkeys)
    as [rows [Hrows Hin]].
  - simpl. lia.
  - rewrite Hm. simpl. lia.
  - rewrite Hm. left. reflexivity.
  - rewrite Hc. left. reflexivity.
  - exact Hid.
  - exact Hsat.
  - exists rows, (with_contact m c). split; [exact Hrows|].
    split; [exact Hin | exact Hwa].
Defined.

(** X15. [getConversation(waId, limit)] is [getMessages] with that contact as
    the only filter, the same limit and no offset, as long as [waId] is not
    the empty string: both read the same rows in the same order. *)
Theorem X15_getConversation_is_getMessages_by_contact :
  forall (st : Store) (waId : string) (limit : option Z),
    waId <> EmptyString ->
    answer (d1_at st) (getConversation waId limit)
    = answer (d1_at st)
        (getMessages (Some (only_contact waId limit))).
Proof.
  intros st waId limit Hne. unfold getConversation, getMessages.
  rewrite !answer_ask. f_equal. cbn [select].
  unfold conditions_of, only_contact, clause, or_null_string.
  cbn [mo_contactWaId mo_direction mo_type mo_limit mo_offset mo_startDate
       mo_endDate direction_clause defaulting app].
  destruct waId as [|a s]; [contradiction|]. cbn [app].
  f_equal. f_equal. apply filter_ext. intros r.
  unfold satisfies_all. cbn [truthy_string app forallb satisfies].
  rewrite andb_true_r. reflexivity.
Qed.

Lemma X15_witness :
  answer (d1_at store_A) (getConversation "1555" (Some 10))
  = answer (d1_at store_A)
      (getMessages (Some (only_contact "1555" (Some 10)))).
Proof.
  apply (X15_getConversation_is_getMessages_by_contact store_A "1555"
           (Some 10)).
  discriminate.
Defined.

(* ===================================================================== *)
(** ** Statistics *)
(* ===================================================================== *)

Lemma count_or_zero_some (n : Z) : count_or_zero (Some n) = n.
Proof.
  unfold count_or_zero, or_null_int, truthy_int.
  destruct (n =? 0) eqn:Hn; simpl; [|reflexivity].
  apply Z.eqb_eq in Hn. congruence.
Qed.

Lemma directions_split (rows : list MessageRecord) :
  count_rows (filter (is_direction incoming) rows)
  + count_rows (filter (is_direction outgoing) rows)
  = count_rows rows.
Proof.
  assert (H : (List.length (filter (is_direction incoming) rows)
               + List.length (filter (is_direction outgoing) rows)
               = List.length rows)%nat).
  { unfold is_direction.
    induction rows as [|m rows IH]; [reflexivity|].
    cbn [filter]. destruct (m_direction m); cbn [direction_eqb List.length];
      lia. }
  unfold count_rows. lia.
Qed.

Lemma sum_counts_permutation (l l' : list TypeCount) :
  Permutation l l' -> sum_counts l = sum_counts l'.
Proof.
  unfold sum_counts. induction 1; simpl; lia.
Qed.

Lemma indicator_absent (k : string) (ts : list string) :
  ~ In k ts ->
  fold_right Z.add 0
    (map (fun t => if String.eqb k t then 1 else 0) ts) = 0.
Proof.
  induction ts as [|t ts IH]; simpl; intros Hk; [reflexivity|].
  destruct (String.eqb k t) eqn:Hkt.
  - exfalso. apply Hk. left. symmetry. apply String.eqb_eq. exact Hkt.
  - rewrite IH; [reflexivity|]. intros Hin. apply Hk. right. exact Hin.
Qed.

Lemma indicator_once (k : string) (ts : list string) :
  NoDup ts -> In k ts ->
  fold_right Z.add 0
    (map (fun t => if String.eqb k t then 1 else 0) ts) = 1.
Proof.
  induction ts as [|t ts IH]; simpl; intros Hnd Hin; [destruct Hin|].
  inversion Hnd as [|? ? Ht Hts]; subst.
  destruct (String.eqb k t) eqn:Hkt.
  - apply String.eqb_eq in Hkt. subst t.
    rewrite indicator_absent by exact Ht. reflexivity.
  - destruct Hin as [->|Hin]; [rewrite String.eqb_refl in Hkt; discriminate|].
    rewrite IH by assumption. reflexivity.
Qed.

(** Grouping loses and doubles nothing: the groups' counts add up to the
    number of rows, whatever distinct keys cover the rows. *)
Lemma groups_add_up {A} (key : A -> string) (rows : list A)
  (ts : list string) :
  NoDup ts ->
  (forall r, In r rows -> In (key r) ts) ->
  fold_right Z.add 0 (map (fun t => Z.of_nat (count_key key t rows)) ts)
  = Z.of_nat (List.length rows).
Proof.
  intros Hnd. induction rows as [|r rows IH]; intros Hcover.
  - clear Hnd Hcover. unfold count_key. simpl.
    induction ts as [|t ts IHt]; simpl; [reflexivity | exact IHt].
  - assert (Hsplit :
              forall l : list string,
                fold_right Z.add 0
                  (map (fun t => Z.of_nat (count_key key t (r :: rows))) l)
                = fold_right Z.add 0
                    (map (fun t => if String.eqb (key r) t then 1 else 0) l)
                  + fold_right Z.add 0
                      (map (fun t => Z.of_nat (count_key key t rows)) l)).
    { induction l as [|t l IHl]; [reflexivity|].
      cbn [map fold_right]. rewrite IHl. unfold count_key at 1.
      cbn [filter]. unfold has_key at 1.
      destruct (String.eqb (key r) t); cbn [List.length];
        unfold count_key; lia. }
    rewrite Hsplit, IH.
    + rewrite indicator_once; [cbn [List.length]; lia | exact Hnd |].
      apply Hcover. left. reflexivity.
    + intros r' Hr'. apply Hcover. right. exact Hr'.
Qed.

Lemma count_key_positive {A} (key : A -> string) (r : A) (rows : list A) :
  In r rows -> (1 <= count_key key (key r) rows)%nat.
Proof.
  unfold count_key. induction rows as [|x rows IH]; intros Hin;
    [destruct Hin|].
  cbn [filter]. destruct Hin as [->|Hin].
  - unfold has_key at 1. rewrite String.eqb_refl. simpl. lia.
  - destruct (has_key key (key r) x); simpl; [|apply IH; exact Hin].
    pose proof (IH Hin). lia.
Qed.

(** X16. The statistics add up.  On any store [getStats] returns; the two
    totals are the sizes of the tables; incoming and outgoing messages
    together are all messages; [messagesByType] has one entry per type that
    occurs, each with a count of at least one, largest count first, and the
    counts add up to the total. *)
Theorem X16_statistics_add_up :
  forall (st : Store),
  exists stats,
    answer (d1_at st) getStats = Ok stats
    /\ totalContacts stats = Z.of_nat (List.length (contacts st))
    /\ totalMessages stats = Z.of_nat (List.length (messages st))
    /\ incomingMessages stats + outgoingMessages stats = totalMessages stats
    /\ sum_counts (messagesByType stats) = totalMessages stats
    /\ NoDup (map tc_type (messagesByType stats))
    /\ (forall t, In t (messagesByType stats) ->
                  1 <= tc_count t
                  /\ exists m, In m (messages st) /\ m_type m = tc_type t)
    /\ (forall m, In m (messages st) ->
                  exists t, In t (messagesByType stats)
                            /\ tc_type t = m_type m)
    /\ descending by_count (messagesByType stats).
Proof.
  intros st. eexists. split; [reflexivity|].
  cbn [select totalContacts totalMessages incomingMessages outgoingMessages
       messagesByType].
  rewrite !count_or_zero_some.
  pose proof (order_by_desc_permutation by_count
                (count_by_type (messages st))) as Hperm.
  split; [reflexivity|]. split; [reflexivity|].
  split; [apply directions_split|].
  split.
  { rewrite (sum_counts_permutation _ _ Hperm).
    unfold sum_counts, count_by_type. rewrite map_map. cbn [tc_count].
    apply groups_add_up; [apply NoDup_nodup|].
    intros r Hr. apply nodup_In. apply in_map. exact Hr. }
  split.
  { apply (Permutation_NoDup (Permutation_sym (Permutation_map tc_type Hperm))).
    unfold count_by_type. rewrite map_map. cbn [tc_type]. rewrite map_id.
    apply NoDup_nodup. }
  split.
  { intros t Ht. apply (Permutation_in _ Hperm) in Ht.
    unfold count_by_type in Ht. apply in_map_iff in Ht.
    destruct Ht as [k [<- Hk]]. cbn [tc_count tc_type].
    apply nodup_In in Hk. apply in_map_iff in Hk.
    destruct Hk as [m [<- Hm]]. split.
    - pose proof (count_key_positive m_type m (messages st) Hm). lia.
    - exists m. split; [exact Hm | reflexivity]. }
  split.
  { intros m Hm.
    exists {| tc_type := m_type m;
              tc_count := Z.of_nat (count_key m_type (m_type m)
                                      (messages st)) |}.
    split; [|reflexivity].
    apply (Permutation_in _ (Permutation_sym Hperm)).
    unfold count_by_type.
    apply (in_map (fun t => {| tc_type := t;
                               tc_count := Z.of_nat (count_key m_type t
                                                       (messages st)) |})).
    apply nodup_In. apply in_map. exact Hm. }
  apply order_by_desc_descending. intros a b. unfold by_count.
  intros Hab. apply Z.leb_gt in Hab. apply Z.leb_le. lia.
Qed.

(* ===================================================================== *)
(** ** The data routes *)
(* ===================================================================== *)

(** The row [getContact] finds after the upsert of the same address. *)
Lemma find_after_upsert (waId : string) (name : option string) (st : Store) :
  exists row,
    find (has_key c_wa_id waId)
      (contacts (after d1 (findOrCreateContact waId name) st)) = Some row
    /\ c_wa_id row = waId
    /\ c_name row
       = name_after name
           (chain_opt (find (has_key c_wa_id waId) (contacts st)) c_name)
    /\ c_last_message_at row = now st.
Proof.
  unfold after. rewrite findOrCreateContact_run.
  destruct (find (has_key c_wa_id waId) (contacts st)) as [found|] eqn:Hfind.
  - pose proof (find_some _ _ Hfind) as [_ Hkey].
    apply has_key_true in Hkey.
    exists (touch_contact (or_null_string name) (now st) found).
    unfold store_of. cbn [fst snd contacts set_contacts].
    rewrite find_update_where by reflexivity. rewrite Hfind.
    split; [reflexivity|]. split; [exact Hkey|]. split; [|reflexivity].
    simpl. unfold name_after, or_else_string.
    destruct (or_null_string name); reflexivity.
  - exists (new_contact st waId (or_null_string name) waId).
    unfold store_of. cbn [fst snd contacts set_contacts].
    rewrite find_snoc_absent;
      [|exact Hfind | apply has_key_true; reflexivity].
    split; [reflexivity|]. split; [reflexivity|]. split; [|reflexivity].
    simpl. unfold name_after, or_else_string.
    destruct (or_null_string name); reflexivity.
Qed.

(** Whatever becomes of the message, the contact table after
    [saveIncomingMessage] is the one its upsert left. *)
Lemma saveIncomingMessage_contacts nts message contact st :
  contacts (after d1 (saveIncomingMessage nts message contact) st)
  = contacts (after d1 (findOrCreateContact (im_from message)
                          (profile_of contact)) st).
Proof.
  destruct (saveIncomingMessage_unfold nts message contact st [])
    as [c [st1 [stored [Hup [_ [_ [_ [_ [_ Hrun]]]]]]]]].
  unfold after. rewrite Hrun, Hup.
  destruct (unix_to_iso (im_timestamp message)); [|reflexivity].
  destruct (content (extract nts message)); try reflexivity;
    destruct (existsb (has_key m_wa_message_id (im_id message))
                (messages st)); reflexivity.
Qed.

(** X17. Whoever writes becomes visible.  After the webhook has handled an
    inbound message, [GET /data/contacts/<sender>] answers 200 with the
    sender's row, whether or not the message itself could be stored (bad
    timestamp, duplicate id, unbindable content): the row carries the
    profile name of the notification when that is non-empty, the name stored
    before otherwise, and the time of the call as [last_message_at]. *)
Theorem X17_sender_is_visible_after_webhook :
  forall (Number_toString : number -> string) (st : Store)
         (message : IncomingMessage) (value : WebhookValue),
    let st' :=
      store_of (run d1 (handleIncomingMessage Number_toString message value)
                  st []) in
    exists row,
      answer (d1_at st') (get_contact (im_from message)) = Ok (success row)
      /\ c_wa_id row = im_from message
      /\ c_name row
         = name_after (profile_of (sender_of message value))
             (chain_opt (find (has_key c_wa_id (im_from message))
                           (contacts st)) c_name)
      /\ c_last_message_at row = now st.
Proof.
  intros nts st message value st'. subst st'.
  destruct (handleIncomingMessage_run d1 nts message value st []) as [_ Hs].
  rewrite Hs. unfold persist.
  destruct (find_after_upsert (im_from message)
              (profile_of (sender_of message value)) st)
    as [row [Hfind [Hwa [Hname Hlast]]]].
  exists row. split; [|repeat split; assumption].
  unfold get_contact, getContact, ask.
  cbn [and_then catching answer d1_at select].
  rewrite saveIncomingMessage_contacts, Hfind. reflexivity.
Qed.

Lemma joined_message_found st waMessageId :
  consistent st ->
  existsb (has_key m_wa_message_id waMessageId) (messages st) = true ->
  exists found,
    select (SelectMessage waMessageId) st = Some found
    /\ m_wa_message_id (mc_message found) = waMessageId
    /\ In (mc_message found) (messages st).
Proof.
  intros Hc Hex. apply existsb_exists in Hex. destruct Hex as [m [Hm Hkey]].
  pose proof (messages_contact_fk st Hc m Hm) as Hfk.
  unfold has_id in Hfk. apply existsb_exists in Hfk.
  destruct Hfk as [c [Hcin Hid]]. apply Z.eqb_eq in Hid.
  assert (Hin : In (with_contact m c)
                  (filter (fun r => has_key m_wa_message_id waMessageId
                                      (mc_message r))
                     (messages_with_contacts st))).
  { apply filter_In. split; [|exact Hkey].
    apply in_messages_with_contacts. exists m, c.
    repeat split; try assumption. }
  cbn [select].
  destruct (filter (fun r => has_key m_wa_message_id waMessageId
                               (mc_message r))
              (messages_with_contacts st)) as [|found rest] eqn:Hf;
    [destruct Hin|].
  exists found. split; [reflexivity|].
  assert (Hfound : In found (found :: rest)) by (left; reflexivity).
  rewrite <- Hf in Hfound. apply filter_In in Hfound.
  destruct Hfound as [Hjoin Hk]. split; [apply has_key_true; exact Hk|].
  apply in_messages_with_contacts in Hjoin.
  destruct Hjoin as [m' [c' [Hm' [_ [_ ->]]]]]. exact Hm'.
Qed.

(** X18. [GET /data/messages/<id>] answers 200 exactly for the ids that are
    stored.  On a store that keeps the schema's constraints, a stored id
    gives 200 with a stored row of that id (the foreign key makes sure the
    join finds its contact), any other id gives 404 "Message not found". *)
Theorem X18_message_route_200_or_404 :
  forall (st : Store) (waMessageId : string),
    consistent st ->
    (existsb (has_key m_wa_message_id waMessageId) (messages st) = true ->
     exists found,
       answer (d1_at st) (get_message waMessageId) = Ok (success found)
       /\ m_wa_message_id (mc_message found) = waMessageId
       /\ In (mc_message found) (messages st))
    /\ (existsb (has_key m_wa_message_id waMessageId) (messages st) = false ->
        answer (d1_at st) (get_message waMessageId)
        = Ok (failure 404 "Message not found")).
Proof.
  intros st waMessageId Hc. split; intros Hex.
  - destruct (joined_message_found st waMessageId Hc Hex)
      as [found [Hsel [Hid Hin]]].
    exists found. split; [|split; assumption].
    unfold get_message, getMessage, ask.
    cbn [and_then catching answer d1_at]. rewrite Hsel. reflexivity.
  - unfold get_message, getMessage, ask.
    cbn [and_then catching answer d1_at select].
    unfold messages_with_contacts.
    rewrite (no_message_with_id st waMessageId (messages st) Hex).
    reflexivity.
Qed.

(** After scenario A: the stored id and one that is not. *)
Lemma X18_witness :
  (exists found,
      answer (d1_at store_A) (get_message "wamid.A") = Ok (success found))
  /\ answer (d1_at store_A) (get_message "wamid.ZZZ")
     = Ok (failure 404 "Message not found").
Proof.
  assert (Hc : consistent store_A).
  { apply after_consistent. apply empty_store_consistent. }
  destruct (X18_message_route_200_or_404 store_A "wamid.A" Hc)
    as [Hfound _].
  destruct (X18_message_route_200_or_404 store_A "wamid.ZZZ" Hc)
    as [_ Hmissing].
  split.
  - destruct (Hfound eq_refl) as [found [Hget _]]. exists found. exact Hget.
  - apply Hmissing. reflexivity.
Defined.

(** X19. The three routes never throw.  Whatever the store answers to their
    statements, each returns a reply, and the reply is a 500 exactly when a
    statement was rejected; [/stats] sends five statements and fails when any
    of them does. *)
Theorem X19_routes_reply_500_iff_store_rejects :
  forall (o : Oracle) (waId waMessageId : string),
    (exists reply,
        answer o (get_contact waId) = Ok reply
        /\ (status_of reply = 500
            <-> exists e, o _ (SelectContact waId) = Err e))
    /\ (exists reply,
           answer o (get_message waMessageId) = Ok reply
           /\ (status_of reply = 500
               <-> exists e, o _ (SelectMessage waMessageId) = Err e))
    /\ (exists reply,
           answer o get_stats = Ok reply
           /\ (status_of reply = 500
               <-> (exists e, o _ CountContacts = Err e)
                   \/ (exists e, o _ CountMessages = Err e)
                   \/ (exists e, o _ CountIncoming = Err e)
                   \/ (exists e, o _ CountOutgoing = Err e)
                   \/ (exists e, o _ CountByType = Err e))).
Proof.
  intros o waId waMessageId. split; [|split].
  - unfold get_contact, getContact, ask.
    cbn [and_then catching answer].
    destruct (o _ (SelectContact waId)) as [[found|]|e];
      cbn [and_then catching answer internal_error]; eexists;
      (split; [reflexivity|]); cbn [status_of]; split;
      try discriminate; try (intros [e' He']; discriminate);
      try (intros _; reflexivity).
    intros _. exists e. reflexivity.
  - unfold get_message, getMessage, ask.
    cbn [and_then catching answer].
    destruct (o _ (SelectMessage waMessageId)) as [[found|]|e];
      cbn [and_then catching answer internal_error]; eexists;
      (split; [reflexivity|]); cbn [status_of]; split;
      try discriminate; try (intros [e' He']; discriminate);
      try (intros _; reflexivity).
    intros _. exists e. reflexivity.
  - unfold get_stats, getStats, ask.
    cbn [and_then catching answer].
    destruct (o _ CountContacts) as [c|e1];
      cbn [and_then catching answer internal_error].
    2:{ eexists. split; [reflexivity|]. cbn [status_of].
        split; [intros _; left; exists e1; reflexivity | reflexivity]. }
    destruct (o _ CountMessages) as [m|e2];
      cbn [and_then catching answer internal_error].
    2:{ eexists. split; [reflexivity|]. cbn [status_of].
        split; [intros _; right; left; exists e2; reflexivity
               | reflexivity]. }
    destruct (o _ CountIncoming) as [i|e3];
      cbn [and_then catching answer internal_error].
    2:{ eexists. split; [reflexivity|]. cbn [status_of].
        split; [intros _; right; right; left; exists e3; reflexivity
               | reflexivity]. }
    destruct (o _ CountOutgoing) as [g|e4];
      cbn [and_then catching answer internal_error].
    2:{ eexists. split; [reflexivity|]. cbn [status_of].
        split; [intros _; right; right; right; left; exists e4; reflexivity
               | reflexivity]. }
    destruct (o _ CountByType) as [t|e5];
      cbn [and_then catching answer internal_error].
    2:{ eexists. split; [reflexivity|]. cbn [status_of].
        split; [intros _; right; right; right; right; exists e5; reflexivity
               | reflexivity]. }
    eexists. split; [reflexivity|]. cbn [status_of]. split; [discriminate|].
    intros [[e He]|[[e He]|[[e He]|[[e He]|[e He]]]]]; discriminate.
Qed.

(* ===================================================================== *)
(** ** The verification handshake *)
(* ===================================================================== *)

(** X20. The handshake echoes the challenge only to who knows the token.
    [GET /webhook] answers 200 exactly when the mode is [subscribe], the
    token equals [WHATSAPP_VERIFY_TOKEN] and the challenge is not empty, and
    the body is then the challenge; a missing or empty parameter gives 400,
    everything else 403.  With an empty token configured nobody can pass. *)
Theorem X20_handshake_echoes_challenge_iff_token_matches :
  forall (mode token challenge : option string) (secret : string),
    let reply := snd (Verification.get mode token challenge secret) in
    (Webhook.status reply = 200
     <-> mode = Some "subscribe"%string
         /\ token = Some secret
         /\ secret <> EmptyString
         /\ exists c, challenge = Some c /\ c <> EmptyString
                      /\ Webhook.body reply = Webhook.text c)
    /\ (Webhook.status reply = 400
        <-> Verification.absent mode = true
            \/ Verification.absent token = true
            \/ Verification.absent challenge = true)
    /\ (Webhook.status reply = 200 \/ Webhook.status reply = 400
        \/ Webhook.status reply = 403).
Proof.
  intros mode token challenge secret reply. subst reply.
  unfold Verification.get.
  destruct (Verification.absent mode) eqn:Hm.
  { cbn [orb snd Webhook.status]. split; [|split].
    - split; [discriminate|]. intros [-> _]. discriminate.
    - split; [intros _; left; reflexivity | reflexivity].
    - right. left. reflexivity. }
  destruct (Verification.absent token) eqn:Ht.
  { cbn [orb snd Webhook.status]. split; [|split].
    - split; [discriminate|]. intros [_ [-> [Hne _]]].
      unfold Verification.absent, or_null_string in Ht.
      destruct secret; [contradiction | discriminate].
    - split; [intros _; right; left; reflexivity | reflexivity].
    - right. left. reflexivity. }
  destruct (Verification.absent challenge) eqn:Hc.
  { cbn [orb snd Webhook.status]. split; [|split].
    - split; [discriminate|]. intros [_ [_ [_ [c [-> [Hne _]]]]]].
      unfold Verification.absent, or_null_string in Hc.
      destruct c; [contradiction | discriminate].
    - split; [intros _; right; right; reflexivity | reflexivity].
    - right. left. reflexivity. }
  cbn [orb].
  assert (Hmode : exists a s, mode = Some (String a s)).
  { unfold Verification.absent, or_null_string in Hm.
    destruct mode as [[|a s]|]; try discriminate. exists a, s. reflexivity. }
  assert (Htoken : exists a s, token = Some (String a s)).
  { unfold Verification.absent, or_null_string in Ht.
    destruct token as [[|a s]|]; try discriminate. exists a, s.
    reflexivity. }
  assert (Hchallenge : exists a s, challenge = Some (String a s)).
  { unfold Verification.absent, or_null_string in Hc.
    destruct challenge as [[|a s]|]; try discriminate. exists a, s.
    reflexivity. }
  destruct Hmode as [ma [ms ->]], Htoken as [ta [ts ->]],
    Hchallenge as [ca [cs ->]].
  cbn [Verification.text_of].
  destruct (String.eqb (String ma ms) "subscribe") eqn:Hsub.
  - destruct (String.eqb (String ta ts) secret) eqn:Hsec;
      cbn [andb snd Webhook.status Webhook.body].
    + apply String.eqb_eq in Hsub, Hsec. split; [|split].
      * split; [|reflexivity]. intros _. rewrite Hsub, Hsec.
        split; [reflexivity|]. split; [reflexivity|].
        split; [rewrite <- Hsec; discriminate|].
        exists (String ca cs). split; [reflexivity|].
        split; [discriminate | reflexivity].
      * split; [discriminate|]. intros [H|[H|H]]; discriminate.
      * left. reflexivity.
    + split; [|split].
      * split; [discriminate|]. intros [_ [Htok _]].
        injection Htok as Htok. rewrite Htok, String.eqb_refl in Hsec.
        discriminate.
      * split; [discriminate|]. intros [H|[H|H]]; discriminate.
      * right. right. reflexivity.
  - cbn [andb snd Webhook.status]. split; [|split].
    + split; [discriminate|]. intros [Hmo _].
      assert (Heq : String ma ms = "subscribe"%string) by congruence.
      rewrite Heq, String.eqb_refl in Hsub. discriminate.
    + split; [discriminate|]. intros [H|[H|H]]; discriminate.
    + right. right. reflexivity.
Qed.

(* ===================================================================== *)
(** ** The API key *)
(* ===================================================================== *)

(** The loop ends with 0 exactly when it started with 0 and every byte of
    [a] met an equal byte of [b]. *)
Lemma accumulate_zero (aBytes bBytes : list Z) (i : nat) (result : Z) :
  Auth.accumulate aBytes bBytes i result = 0
  <-> result = 0
      /\ forall j, (j < List.length aBytes)%nat ->
                   nth j aBytes 0 = nth (i + j) bBytes 0.
Proof.
  revert i result. induction aBytes as [|x rest IH]; intros i result.
  - simpl. split; [intros H; split; [exact H | intros j Hj; lia]|].
    intros [H _]. exact H.
  - cbn [Auth.accumulate]. rewrite IH, Z.lor_eq_0_iff, Z.lxor_eq_0_iff.
    split.
    + intros [[Hr Hx] Hrest]. split; [exact Hr|].
      intros [|j] Hj.
      * rewrite Nat.add_0_r. exact Hx.
      * cbn [nth]. rewrite Hrest by (simpl in Hj; lia).
        f_equal. lia.
    + intros [Hr Hall]. split; [split; [exact Hr|]|].
      * specialize (Hall 0%nat). rewrite Nat.add_0_r in Hall.
        apply Hall. simpl. lia.
      * intros j Hj. specialize (Hall (S j)). cbn [nth] in Hall.
        rewrite Hall by (simpl; lia). f_equal. lia.
Qed.

Lemma encode_ascii (s : Auth.jsstring) :
  (forall u, In u s -> u < 128) -> Auth.encode s = s.
Proof.
  induction s as [|u s IH]; intros Hs; [reflexivity|].
  cbn [Auth.encode].
  assert (Hu : (u <? 128) = true)
    by (apply Z.ltb_lt, Hs; left; reflexivity).
  rewrite Hu, IH; [reflexivity|]. intros v Hv. apply Hs. right. exact Hv.
Qed.

(** A unit outside ASCII is encoded with a first byte outside ASCII. *)
Lemma encode_head (u : Z) (s : Auth.jsstring) :
  128 <= u ->
  exists h t, Auth.encode (u :: s) = h :: t /\ 128 <= h.
Proof.
  intros Hu. cbn [Auth.encode].
  destruct (u <? 128) eqn:H1; [apply Z.ltb_lt in H1; lia|].
  destruct (u <? 2048) eqn:H2.
  { eexists. eexists. split; [reflexivity|].
    pose proof (Z.div_pos u 64). lia. }
  apply Z.ltb_ge in H2.
  destruct (Auth.is_high_surrogate u) eqn:Hh.
  { unfold Auth.is_high_surrogate in Hh. apply andb_prop in Hh.
    destruct Hh as [Hh1 Hh2]. apply Z.leb_le in Hh1.
    destruct s as [|v rest].
    - eexists. eexists. split; [reflexivity|]. lia.
    - destruct (Auth.is_low_surrogate v) eqn:Hl.
      + unfold Auth.is_low_surrogate in Hl. apply andb_prop in Hl.
        destruct Hl as [Hl1 _]. apply Z.leb_le in Hl1.
        unfold Auth.four_bytes. cbn [app].
        eexists. eexists. split; [reflexivity|].
        pose proof (Z.div_pos (65536 + (u - 55296) * 1024 + (v - 56320))
                      262144).
        lia.
      + unfold Auth.replacement. cbn [app].
        eexists. eexists. split; [reflexivity|]. lia. }
  destruct (Auth.is_low_surrogate u).
  { unfold Auth.replacement. cbn [app].
    eexists. eexists. split; [reflexivity|]. lia. }
  unfold Auth.three_bytes. cbn [app].
  eexists. eexists. split; [reflexivity|].
  pose proof (Z.div_pos u 4096). lia.
Qed.

Lemma bytes_match_ascii (a b : Auth.jsstring) :
  List.length a = List.length b ->
  (forall u, In u b -> u < 128) ->
  (forall j, (j < List.length (Auth.encode a))%nat ->
             nth j (Auth.encode a) 0 = nth j b 0) ->
  a = b.
Proof.
  revert b. induction a as [|u a IH]; intros [|v b] Hlen Hb Hall;
    try discriminate; [reflexivity|].
  assert (Hv : v < 128) by (apply Hb; left; reflexivity).
  destruct (Z_lt_ge_dec u 128) as [Hu|Hu].
  - assert (Hascii : (u <? 128) = true) by (apply Z.ltb_lt; exact Hu).
    cbn [Auth.encode] in Hall. rewrite Hascii in Hall.
    f_equal.
    + apply (Hall 0%nat). simpl. lia.
    + apply IH.
      * simpl in Hlen. lia.
      * intros w Hw. apply Hb. right. exact Hw.
      * intros j Hj. apply (Hall (S j)). simpl. lia.
  - exfalso. destruct (encode_head u a) as [h [t [He Hh]]]; [lia|].
    rewrite He in Hall. specialize (Hall 0%nat). cbn [nth] in Hall.
    rewrite Hall in Hh by (simpl; lia). lia.
Qed.

Lemma units_length_eqb (a b : Auth.jsstring) :
  negb (List.length a =? List.length b)%nat = false
  <-> List.length a = List.length b.
Proof.
  rewrite negb_false_iff. apply Nat.eqb_eq.
Qed.

Lemma timingSafeEqual_sound (a b : Auth.jsstring) :
  (forall u, In u b -> u < 128) ->
  Auth.timingSafeEqual a b = true -> a = b.
Proof.
  intros Hb. unfold Auth.timingSafeEqual.
  destruct (negb (List.length a =? List.length b)%nat) eqn:Hlen;
    [discriminate|].
  apply units_length_eqb in Hlen. intros H. apply Z.eqb_eq in H.
  apply accumulate_zero in H. destruct H as [_ Hall].
  apply bytes_match_ascii; [exact Hlen | exact Hb |].
  rewrite (encode_ascii b Hb) in Hall. exact Hall.
Qed.

Lemma timingSafeEqual_refl (b : Auth.jsstring) :
  Auth.timingSafeEqual b b = true.
Proof.
  unfold Auth.timingSafeEqual.
  assert (Hlen : negb (List.length b =? List.length b)%nat = false)
    by (apply units_length_eqb; reflexivity).
  rewrite Hlen. apply Z.eqb_eq. apply accumulate_zero.
  split; [reflexivity|]. intros j _. reflexivity.
Qed.

(** X21. Against an ASCII secret, [timingSafeEqual] is equality of strings:
    it returns [true] for the secret itself and for no other string,
    whatever characters the other string holds. *)
Theorem X21_timingSafeEqual_is_equality_on_ascii :
  forall (a b : Auth.jsstring),
    (forall u, In u b -> u < 128) ->
    Auth.timingSafeEqual a b = true <-> a = b.
Proof.
  intros a b Hb. split.
  - apply timingSafeEqual_sound. exact Hb.
  - intros ->. apply timingSafeEqual_refl.
Qed.

(** A key one letter off, and the key. *)
Lemma X21_witness :
  Auth.timingSafeEqual (Auth.literal "secreT") (Auth.literal "secret") = false
  /\ Auth.timingSafeEqual (Auth.literal "secret") (Auth.literal "secret")
     = true.
Proof.
  assert (Hascii : forall u, In u (Auth.literal "secret") -> u < 128).
  { intros u Hu. vm_compute in Hu.
    repeat (destruct Hu as [<-|Hu]; [reflexivity|]). destruct Hu. }
  split.
  - destruct (Auth.timingSafeEqual (Auth.literal "secreT")
                (Auth.literal "secret")) eqn:H; [|reflexivity].
    apply (X21_timingSafeEqual_is_equality_on_ascii _ _ Hascii) in H.
    vm_compute in H. discriminate.
  - apply (X21_timingSafeEqual_is_equality_on_ascii _ _ Hascii).
    reflexivity.
Defined.

(** Outside ASCII the comparison is not equality: a lone surrogate is
    encoded like U+FFFD, so the two strings pass for one another. *)
Example timingSafeEqual_lone_surrogate :
  Auth.timingSafeEqual [55296] [65533] = true.
Proof. reflexivity. Qed.

(** X22. With an ASCII key configured, [apiKeyAuth] lets a request through
    exactly when the key it presents is the configured one.  The presented
    key is the [X-API-Key] header when that is not empty, and otherwise the
    [Authorization] header with the first [Bearer ] removed; without a
    configured key, or with an empty one, every request passes. *)
Theorem X22_apiKeyAuth_passes_iff_key_presented :
  forall (key : Auth.jsstring) (xApiKey authorization : option Auth.jsstring),
    key <> [] ->
    (forall u, In u key -> u < 128) ->
    (Auth.apiKeyAuth (Some key) xApiKey authorization = Auth.next
     <-> Auth.presented_key xApiKey authorization = Some key)
    /\ Auth.apiKeyAuth None xApiKey authorization = Auth.next
    /\ Auth.apiKeyAuth (Some []) xApiKey authorization = Auth.next.
Proof.
  intros key x auth Hne Hascii. split; [|split; reflexivity].
  unfold Auth.apiKeyAuth.
  destruct key as [|k key']; [contradiction|]. cbn [Auth.present].
  destruct (Auth.presented_key x auth) as [[|u apiKey]|];
    cbn [Auth.present].
  - split; discriminate.
  - destruct (Auth.timingSafeEqual (u :: apiKey) (k :: key')) eqn:Heq;
      cbn [negb].
    + split; [|reflexivity]. intros _. f_equal.
      apply timingSafeEqual_sound; assumption.
    + split; [discriminate|]. intros H. injection H as -> ->.
      rewrite timingSafeEqual_refl in Heq. discriminate.
  - split; discriminate.
Qed.

(** The key in a bearer token, and a wrong key in the header that wins. *)
Lemma X22_witness :
  Auth.apiKeyAuth (Some (Auth.literal "secret")) None
    (Some (Auth.literal "Bearer secret")) = Auth.next
  /\ Auth.apiKeyAuth (Some (Auth.literal "secret"))
       (Some (Auth.literal "guess")) (Some (Auth.literal "Bearer secret"))
     <> Auth.next.
Proof.
  assert (Hascii : forall u, In u (Auth.literal "secret") -> u < 128).
  { intros u Hu. vm_compute in Hu.
    repeat (destruct Hu as [<-|Hu]; [reflexivity|]). destruct Hu. }
  assert (Hne : Auth.literal "secret" <> []) by discriminate.
  destruct (X22_apiKeyAuth_passes_iff_key_presented _ None
              (Some (Auth.literal "Bearer secret")) Hne Hascii)
    as [[_ Hpass] _].
  destruct (X22_apiKeyAuth_passes_iff_key_presented _
              (Some (Auth.literal "guess"))
              (Some (Auth.literal "Bearer secret")) Hne Hascii)
    as [[Hkey _] _].
  split.
  - apply Hpass. reflexivity.
  - intros H. apply Hkey in H. vm_compute in H. discriminate.
Defined.

(* ===================================================================== *)
(** ** The rate limiter *)
(* ===================================================================== *)

Lemma units_eqb_refl (s : Auth.jsstring) : Auth.units_eqb s s = true.
Proof.
  induction s as [|u s IH]; [reflexivity|].
  cbn [Auth.units_eqb]. rewrite Z.eqb_refl, IH. reflexivity.
Qed.

Lemma set_same clientId w m : Auth.set clientId w m clientId = Some w.
Proof. unfold Auth.set. rewrite units_eqb_refl. reflexivity. Qed.

Lemma set_other clientId w m other :
  Auth.units_eqb other clientId = false ->
  Auth.set clientId w m other = m other.
Proof. unfold Auth.set. intros ->. reflexivity. Qed.

(** Inside a window: of the requests that arrive before it ends, those pass
    that the count still has room for, and only the client's own entry
    moves. *)
Lemma serve_inside_window windowMs maxRequests clientId times :
  forall (m : Auth.Counters) (w : Auth.Window),
    m clientId = Some w ->
    Forall (fun t => t <= Auth.resetTime w) times ->
    let r := Auth.serve windowMs maxRequests
               (map (fun t => (clientId, t)) times) m in
    Z.of_nat (List.length (filter Auth.passes (fst r)))
    = Z.min (Z.of_nat (List.length times))
        (Z.max 0 (Auth.setting 100 maxRequests - Auth.count w))
    /\ (forall other, Auth.units_eqb other clientId = false ->
                      snd r other = m other)
    /\ snd r clientId
       = Some {| Auth.count :=
                   Auth.count w
                   + Z.of_nat (List.length (filter Auth.passes (fst r)));
                 Auth.resetTime := Auth.resetTime w |}.
Proof.
  induction times as [|t times IH]; intros m w Hm Htimes.
  - cbv zeta. cbn [map Auth.serve fst snd filter List.length].
    split; [lia|]. split; [reflexivity|]. rewrite Hm, Z.add_0_r.
    destruct w; reflexivity.
  - apply Forall_cons_iff in Htimes. destruct Htimes as [Ht Htimes].
    cbv zeta. cbn [map Auth.serve]. unfold Auth.rateLimit. rewrite Hm.
    cbv zeta.
    destruct (Auth.resetTime w <? t) eqn:Hexpired;
      [apply Z.ltb_lt in Hexpired; lia|].
    destruct (Auth.setting 100 maxRequests <=? Auth.count w) eqn:Hfull.
    + apply Z.leb_le in Hfull.
      specialize (IH m w Hm Htimes). cbv zeta in IH.
      destruct (Auth.serve windowMs maxRequests
                  (map (fun t0 => (clientId, t0)) times) m)
        as [verdicts m''].
      cbn [fst snd filter Auth.passes] in *. destruct IH as [IHn [IHo IHc]].
      split; [|split; [exact IHo | exact IHc]].
      rewrite IHn. cbn [List.length]. lia.
    + apply Z.leb_gt in Hfull.
      pose (bumped := {| Auth.count := Auth.count w + 1;
                         Auth.resetTime := Auth.resetTime w |}).
      specialize (IH (Auth.set clientId bumped m) bumped
                    (set_same clientId bumped m) Htimes).
      cbv zeta in IH. fold bumped.
      destruct (Auth.serve windowMs maxRequests
                  (map (fun t0 => (clientId, t0)) times)
                  (Auth.set clientId bumped m))
        as [verdicts m''].
      cbn [fst snd filter Auth.passes List.length] in *.
      destruct IH as [IHn [IHo IHc]]. split; [|split].
      * rewrite Nat2Z.inj_succ, IHn. cbn [Auth.count bumped].
        cbn [List.length]. lia.
      * intros other Hother. rewrite (IHo other Hother).
        apply set_other. exact Hother.
      * rewrite IHc. cbn [Auth.count Auth.resetTime bumped].
        f_equal. f_equal. lia.
Qed.

(** X23. The budget of a window.  A client that has no entry, or one whose
    window is over, opens a window with its request; of that request and
    those that follow before the window ends, exactly [maxRequests] pass
    (all of them if they are fewer, and one even if [maxRequests] is
    negative); an omitted or zero [maxRequests] counts as 100 and an omitted
    or zero [windowMs] as a minute.  The counters of other clients are left
    alone. *)
Theorem X23_rate_limit_budget :
  forall (windowMs maxRequests : option Z) (clientId : Auth.jsstring)
         (t0 : Z) (times : list Z) (m : Auth.Counters),
    (forall w, m clientId = Some w -> Auth.resetTime w < t0) ->
    Forall (fun t => t <= t0 + Auth.setting 60000 windowMs) times ->
    let r := Auth.serve windowMs maxRequests
               (map (fun t => (clientId, t)) (t0 :: times)) m in
    Z.of_nat (List.length (filter Auth.passes (fst r)))
    = Z.min (1 + Z.of_nat (List.length times))
        (Z.max 1 (Auth.setting 100 maxRequests))
    /\ forall other, Auth.units_eqb other clientId = false ->
                     snd r other = m other.
Proof.
  intros windowMs maxRequests clientId t0 times m Hold Htimes r. subst r.
  pose (fresh := {| Auth.count := 1;
                    Auth.resetTime := t0 + Auth.setting 60000 windowMs |}).
  assert (Hfirst :
            Auth.rateLimit windowMs maxRequests clientId t0 m
            = (Auth.allowed (Auth.setting 100 maxRequests)
                 (Z.max 0 (Auth.setting 100 maxRequests - 1))
                 (t0 + Auth.setting 60000 windowMs),
               Auth.set clientId fresh m)).
  { unfold Auth.rateLimit. cbv zeta.
    destruct (m clientId) as [w|] eqn:Hm; [|reflexivity].
    assert (Hexpired : (Auth.resetTime w <? t0) = true)
      by (apply Z.ltb_lt, Hold; reflexivity).
    rewrite Hexpired. reflexivity. }
  cbn [map Auth.serve]. rewrite Hfirst.
  pose proof (serve_inside_window windowMs maxRequests clientId times
                (Auth.set clientId fresh m) fresh
                (set_same clientId fresh m) Htimes) as Hrest.
  cbv zeta in Hrest.
  destruct (Auth.serve windowMs maxRequests
              (map (fun t => (clientId, t)) times)
              (Auth.set clientId fresh m)) as [verdicts m''].
  cbn [fst snd filter Auth.passes List.length] in *.
  destruct Hrest as [Hn [Ho _]]. split.
  - rewrite Nat2Z.inj_succ, Hn. cbn [Auth.count fresh]. lia.
  - intros other Hother. rewrite (Ho other Hother).
    apply set_other. exact Hother.
Qed.

(** Five requests in one second against a budget of two. *)
Lemma X23_witness :
  map Auth.passes
    (fst (Auth.serve (Some 1000) (Some 2)
            (map (fun t => (Auth.literal "10.0.0.1", t)) [0; 100; 200; 300; 400])
            Auth.no_counters))
  = [true; true; false; false; false]
  /\ Z.of_nat
       (List.length
          (filter Auth.passes
             (fst (Auth.serve (Some 1000) (Some 2)
                     (map (fun t => (Auth.literal "10.0.0.1", t))
                        [0; 100; 200; 300; 400])
                     Auth.no_counters)))) = 2.
Proof.
  split; [reflexivity|].
  assert (Hold : forall w, Auth.no_counters (Auth.literal "10.0.0.1") = Some w ->
                           Auth.resetTime w < 0)
    by (intros w Hw; discriminate).
  assert (Htimes : Forall (fun t => t <= 0 + Auth.setting 60000 (Some 1000))
                     [100; 200; 300; 400]).
  { repeat (apply Forall_cons; [vm_compute; discriminate|]).
    apply Forall_nil. }
  destruct (X23_rate_limit_budget (Some 1000) (Some 2)
              (Auth.literal "10.0.0.1") 0 [100; 200; 300; 400]
              Auth.no_counters Hold Htimes) as [Hn _].
  exact Hn.
Defined.

(** X24. The limiters of the application share one table of counters.
    What one limiter has let through counts against the budget of every
    other: once a client has had as many requests let through by one limiter
    as another limiter allows, that other limiter turns the client away
    until the window ends, although it has not seen the client before.
    (The application puts 100 on [/data] and [/messages] and 50 on
    [/media].) *)
Theorem X24_limiters_share_their_counters :
  forall (windowMs otherWindowMs maxRequests otherMaxRequests : option Z)
         (clientId : Auth.jsstring) (t0 t : Z) (times : list Z)
         (m : Auth.Counters),
    (forall w, m clientId = Some w -> Auth.resetTime w < t0) ->
    Forall (fun t' => t' <= t0 + Auth.setting 60000 windowMs) times ->
    t <= t0 + Auth.setting 60000 windowMs ->
    Auth.setting 100 otherMaxRequests
    <= Z.min (1 + Z.of_nat (List.length times))
         (Z.max 1 (Auth.setting 100 maxRequests)) ->
    let r := Auth.serve windowMs maxRequests
               (map (fun t' => (clientId, t')) (t0 :: times)) m in
    exists retryAfter,
      Auth.rateLimit otherWindowMs otherMaxRequests clientId t (snd r)
      = (Auth.too_many_requests retryAfter
           (Auth.setting 100 otherMaxRequests)
           (t0 + Auth.setting 60000 windowMs), snd r).
Proof.
  intros windowMs otherWindowMs maxRequests otherMaxRequests clientId t0 t
    times m Hold Htimes Ht Hbudget r. subst r.
  pose (fresh := {| Auth.count := 1;
                    Auth.resetTime := t0 + Auth.setting 60000 windowMs |}).
  assert (Hfirst :
            snd (Auth.rateLimit windowMs maxRequests clientId t0 m)
            = Auth.set clientId fresh m).
  { unfold Auth.rateLimit. cbv zeta.
    destruct (m clientId) as [w|] eqn:Hm; [|reflexivity].
    assert (Hexpired : (Auth.resetTime w <? t0) = true)
      by (apply Z.ltb_lt, Hold; reflexivity).
    rewrite Hexpired. reflexivity. }
  cbn [map Auth.serve].
  destruct (Auth.rateLimit windowMs maxRequests clientId t0 m)
    as [verdict m1]. cbn [snd] in Hfirst. subst m1.
  pose proof (serve_inside_window windowMs maxRequests clientId times
                (Auth.set clientId fresh m) fresh
                (set_same clientId fresh m) Htimes) as Hrest.
  cbv zeta in Hrest.
  destruct (Auth.serve windowMs maxRequests
              (map (fun t' => (clientId, t')) times)
              (Auth.set clientId fresh m)) as [verdicts m''].
  cbn [fst snd] in *. destruct Hrest as [Hn [_ Hentry]].
  unfold Auth.rateLimit. cbv zeta. rewrite Hentry.
  cbn [Auth.count Auth.resetTime fresh].
  assert (Hlive : (t0 + Auth.setting 60000 windowMs <? t) = false)
    by (apply Z.ltb_ge; exact Ht).
  assert (Hfull : (Auth.setting 100 otherMaxRequests
                   <=? 1 + Z.of_nat (List.length
                                       (filter Auth.passes verdicts)))
                  = true).
  { apply Z.leb_le. rewrite Hn. cbn [Auth.count fresh]. lia. }
  rewrite Hlive, Hfull. eexists. reflexivity.
Qed.

(** Fifty requests let through on [/data], then the first on [/media]. *)
Lemma X24_witness :
  Auth.passes
    (fst (Auth.rateLimit (Some 60000) (Some 50) (Auth.literal "10.0.0.1")
            2000
            (snd (Auth.serve (Some 60000) (Some 100)
                    (map (fun t => (Auth.literal "10.0.0.1", t))
                       (0 :: repeat 1000 49))
                    Auth.no_counters))))
  = false.
Proof.
  assert (Hold : forall w, Auth.no_counters (Auth.literal "10.0.0.1") = Some w ->
                           Auth.resetTime w < 0)
    by (intros w Hw; discriminate).
  assert (Htimes : Forall (fun t => t <= 0 + Auth.setting 60000 (Some 60000))
                     (repeat 1000 49)).
  { apply Forall_forall. intros t Ht. apply repeat_spec in Ht. subst t.
    vm_compute. discriminate. }
  destruct (X24_limiters_share_their_counters (Some 60000) (Some 60000)
              (Some 100) (Some 50) (Auth.literal "10.0.0.1") 0 2000
              (repeat 1000 49) Auth.no_counters Hold Htimes)
    as [retryAfter Hreject].
  - vm_compute. discriminate.
  - vm_compute. discriminate.
  - rewrite Hreject. reflexivity.
Defined.

(* ===================================================================== *)
(** ** Nothing is forgotten *)
(* ===================================================================== *)

Lemma exec_keeps_message {B} (q : Stmt B) (st : Store) (waMessageId : string) :
  existsb (has_key m_wa_message_id waMessageId) (messages st) = true ->
  existsb (has_key m_wa_message_id waMessageId)
    (messages (snd (exec q st))) = true.
Proof.
  intros Hex. destruct q; simpl; try exact Hex.
  - destruct (existsb _ (contacts st)); exact Hex.
  - unfold insert_message.
    destruct (existsb (has_key m_wa_message_id (iv_wa_message_id v))
                (messages st)); [exact Hex|].
    destruct (has_id c_id (iv_contact_id v) (contacts st)); [|exact Hex].
    simpl. rewrite existsb_app, Hex. reflexivity.
  - unfold insert_message.
    destruct (existsb (has_key m_wa_message_id (ov_wa_message_id v))
                (messages st)); [exact Hex|].
    destruct (has_id c_id (ov_contact_id v) (contacts st)); [|exact Hex].
    simpl. rewrite existsb_app, Hex. reflexivity.
  - rewrite existsb_update_where; [exact Hex | reflexivity].
  - destruct (existsb _ (conversations st)); [exact Hex|].
    destruct (has_id c_id contactId (contacts st)); exact Hex.
  - destruct (has_id m_id messageId (messages st)); exact Hex.
Qed.

Lemma steps_keep_rows m1 m2 (waId waMessageId : string) :
  steps m1 m2 ->
  (existsb (has_key c_wa_id waId) (contacts (disk m1)) = true ->
   existsb (has_key c_wa_id waId) (contacts (disk m2)) = true)
  /\ (existsb (has_key m_wa_message_id waMessageId) (messages (disk m1))
      = true ->
      existsb (has_key m_wa_message_id waMessageId) (messages (disk m2))
      = true).
Proof.
  induction 1 as [m|m1 m2 m3 Hstep _ IH]; [split; intros H; exact H|].
  destruct IH as [IHc IHm].
  destruct Hstep; cbn [disk] in *.
  - split; intros H.
    + apply IHc. apply exec_keeps_contact. exact H.
    + apply IHm. apply exec_keeps_message. exact H.
  - split; assumption.
  - split; assumption.
Qed.

(** X25. Nothing is forgotten.  However the calls in flight interleave, and
    whether they return or throw, a contact that was stored is still found
    by [GET /data/contacts/<waId>] afterwards, and on a store that keeps the
    schema's constraints a message that was stored is still found by
    [GET /data/messages/<id>]: no statement of the service removes a row
    or changes its key. *)
Theorem X25_nothing_is_forgotten :
  forall (m m' : Machine) (waId waMessageId : string),
    consistent (disk m) ->
    steps m m' ->
    (existsb (has_key c_wa_id waId) (contacts (disk m)) = true ->
     exists row,
       answer (d1_at (disk m')) (get_contact waId) = Ok (success row)
       /\ c_wa_id row = waId)
    /\ (existsb (has_key m_wa_message_id waMessageId) (messages (disk m))
        = true ->
        exists found,
          answer (d1_at (disk m')) (get_message waMessageId)
          = Ok (success found)
          /\ m_wa_message_id (mc_message found) = waMessageId).
Proof.
  intros m m' waId waMessageId Hc Hsteps.
  destruct (steps_keep_rows m m' waId waMessageId Hsteps) as [Hkc Hkm].
  pose proof (steps_consistent m m' Hsteps Hc) as Hc'.
  split; intros Hex.
  - apply Hkc in Hex. destruct (existsb_find _ _ Hex) as [row Hfind].
    exists row. split.
    + unfold get_contact, getContact, ask.
      cbn [and_then catching answer d1_at select]. rewrite Hfind.
      reflexivity.
    + apply find_some in Hfind. destruct Hfind as [_ Hkey].
      apply has_key_true. exact Hkey.
  - apply Hkm in Hex.
    destruct (joined_message_found (disk m') waMessageId Hc' Hex)
      as [found [Hsel [Hid _]]].
    exists found. split; [|exact Hid].
    unfold get_message, getMessage, ask.
    cbn [and_then catching answer d1_at]. rewrite Hsel. reflexivity.
Qed.

(** The sender and the message of scenario A, after the reaction and the
    read receipt have run one across the other. *)
Lemma X25_witness :
  (exists row,
      answer (d1_at (disk busy)) (get_contact "1555") = Ok (success row))
  /\ (exists found,
         answer (d1_at (disk busy)) (get_message "wamid.A")
         = Ok (success found)).
Proof.
  assert (Hc : consistent store_A).
  { apply after_consistent. apply empty_store_consistent. }
  destruct (X25_nothing_is_forgotten
              {| disk := store_A; stdout := [];
                 calls := [thread (saveIncomingMessage scenario_toString
                                     message_reaction None);
                           thread (updateMessageStatus
                                     (status_event "wamid.A" st_read
                                        "1700000100" None))] |}
              busy "1555" "wamid.A" Hc
              (schedule_steps [0; 1; 0; 1; 0; 1; 0; 1]%nat _))
    as [Hcontact Hmessage].
  split.
  - destruct (Hcontact eq_refl) as [row [Hrow _]]. exists row. exact Hrow.
  - destruct (Hmessage eq_refl) as [found [Hfound _]]. exists found.
    exact Hfound.
Defined.

Lemma run_keeps_contact {A} (p : Prog A) (st : Store)
  (out : list ConsoleLine) (waId : string) :
  existsb (has_key c_wa_id waId) (contacts st) = true ->
  existsb (has_key c_wa_id waId) (contacts (store_of (run d1 p st out)))
  = true.
Proof.
  revert st out. induction p as [a|e|T q k IH|l k IH]; simpl; intros st out Hex.
  - exact Hex.
  - exact Hex.
  - unfold d1. pose proof (exec_keeps_contact q st waId Hex) as Hq.
    destruct (exec q st) as [r st']. apply IH. exact Hq.
  - apply IH. exact Hex.
Qed.

Lemma persist_keeps_contact nts (items : list Item) (st : Store)
  (waId : string) :
  existsb (has_key c_wa_id waId) (contacts st) = true ->
  existsb (has_key c_wa_id waId)
    (contacts (fold_left (persist d1 nts) items st)) = true.
Proof.
  revert st. induction items as [|item items IH]; intros st Hex; [exact Hex|].
  cbn [fold_left]. apply IH.
  destruct item; unfold persist, after; apply run_keeps_contact; exact Hex.
Qed.

(** The store a notification with the right [object] leaves. *)
Lemma post_store nts (payload : WebhookPayload) (st : Store) :
  wp_object payload = "whatsapp_business_account"%string ->
  store_of (run d1 (post nts (Some payload)) st [])
  = fold_left (persist d1 nts) (items_of payload) st.
Proof.
  intros Heq. apply String.eqb_eq in Heq.
  unfold post, items_of. rewrite run_try_catch. simpl request_json.
  cbn [bind]. rewrite Heq. cbn [negb]. rewrite run_bind.
  destruct (entries_run d1 nts (wp_entry payload) st []) as [Hr Hs].
  destruct (run d1 (for_of (wp_entry payload) _) st []) as [[r w'] out'].
  unfold result_of, store_of in *. simpl in *. subst r w'. reflexivity.
Qed.

(** X26. Every sender of a notification is a contact afterwards.  Once the
    webhook has handled a notification with the right [object], each
    address a message of it was sent from is answered with 200 by
    [GET /data/contacts/<address>], whether or not that message could be
    stored and whatever else the notification held. *)
Theorem X26_every_sender_becomes_a_contact :
  forall (Number_toString : number -> string) (payload : WebhookPayload)
         (st : Store) (message : IncomingMessage) (value : WebhookValue),
    wp_object payload = "whatsapp_business_account"%string ->
    In (item_message message value) (items_of payload) ->
    let st' := store_of (run d1 (post Number_toString (Some payload)) st [])
    in
    exists row,
      answer (d1_at st') (get_contact (im_from message)) = Ok (success row)
      /\ c_wa_id row = im_from message.
Proof.
  intros nts payload st message value Hobject Hin st'. subst st'.
  rewrite (post_store nts payload st Hobject).
  apply in_split in Hin. destruct Hin as [before [behind ->]].
  rewrite fold_left_app. cbn [fold_left].
  set (st1 := fold_left (persist d1 nts) before st).
  assert (Hex : existsb (has_key c_wa_id (im_from message))
                  (contacts (persist d1 nts st1 (item_message message value)))
                = true).
  { unfold persist. rewrite saveIncomingMessage_contacts.
    destruct (find_after_upsert (im_from message)
                (profile_of (sender_of message value)) st1)
      as [row [Hfind _]].
    apply (find_some_existsb _ _ _ Hfind). }
  apply (persist_keeps_contact nts behind) in Hex.
  destruct (existsb_find _ _ Hex) as [row Hfind].
  exists row. split.
  - unfold get_contact, getContact, ask.
    cbn [and_then catching answer d1_at select]. rewrite Hfind. reflexivity.
  - apply find_some in Hfind. destruct Hfind as [_ Hkey].
    apply has_key_true. exact Hkey.
Qed.

(** The message from 1777 is dropped for its date; 1777 is a contact. *)
Lemma X26_witness :
  let st' := store_of (run d1 (post scenario_toString (Some undated_event))
                         store_A []) in
  messages st' = messages store_A
  /\ exists row,
       answer (d1_at st') (get_contact "1777") = Ok (success row)
       /\ c_wa_id row = "1777"%string.
Proof.
  split; [reflexivity|].
  apply (X26_every_sender_becomes_a_contact scenario_toString undated_event
           store_A message_undated (value_of [message_undated] []) eq_refl).
  left. reflexivity.
Defined.

(* ===================================================================== *)
(** ** What the webhook answers *)
(* ===================================================================== *)

(** X27. [POST /webhook] always answers, whatever the body and whatever the
    store does: with 400 exactly when the body parsed and names another
    [object], and with 200 and the text OK otherwise.  A body that does not
    parse is acknowledged like a valid one, without a statement being sent;
    only the console shows the error. *)
Theorem X27_webhook_post_always_answers :
  forall (W : Type) (h : Handler W) (Number_toString : number -> string)
         (parsed : option WebhookPayload) (w : W) (out : list ConsoleLine),
    let r := run h (post Number_toString parsed) w out in
    exists reply,
      result_of r = Ok reply
      /\ (reply = ok_response \/ reply = invalid_object_response)
      /\ (reply = invalid_object_response
          <-> exists payload,
                parsed = Some payload
                /\ wp_object payload <> "whatsapp_business_account"%string)
      /\ (parsed = None ->
          store_of r = w
          /\ console_of r
             = out ++ [error_webhook_processing
                         (SyntaxError "Unexpected token in JSON")]).
Proof.
  intros W h nts parsed w out r. subst r.
  destruct parsed as [payload|].
  - destruct (String.eqb (wp_object payload) "whatsapp_business_account")
      eqn:Hobject.
    + exists ok_response. split.
      * unfold post. rewrite run_try_catch. simpl request_json. cbn [bind].
        rewrite Hobject. cbn [negb]. rewrite run_bind.
        destruct (entries_run h nts (wp_entry payload) w out) as [Hr _].
        destruct (run h (for_of (wp_entry payload) _) w out)
          as [[r w'] out'].
        unfold result_of in *. simpl in *. subst r. reflexivity.
      * split; [left; reflexivity|]. split; [|discriminate].
        split; [discriminate|]. intros [p [Hp Hne]]. injection Hp as <-.
        apply String.eqb_eq in Hobject. contradiction.
    + exists invalid_object_response. split.
      * unfold post. simpl. rewrite Hobject. reflexivity.
      * split; [right; reflexivity|]. split; [|discriminate].
        split; [|reflexivity]. intros _. exists payload.
        split; [reflexivity|]. apply String.eqb_neq. exact Hobject.
  - exists ok_response. split; [reflexivity|].
    split; [left; reflexivity|]. split.
    + split; [discriminate|]. intros [p [Hp _]]. discriminate.
    + intros _. split; reflexivity.
Qed.

(* ===================================================================== *)
(** ** Who the limiter counts *)
(* ===================================================================== *)

Lemma units_eqb_eq (a b : Auth.jsstring) :
  Auth.units_eqb a b = true <-> a = b.
Proof.
  revert b. induction a as [|x a IH]; intros [|y b]; cbn [Auth.units_eqb];
    try (split; [discriminate | discriminate]); [split; reflexivity|].
  rewrite andb_true_iff, Z.eqb_eq, IH. split.
  - intros [-> ->]. reflexivity.
  - intros H. injection H as -> ->. split; reflexivity.
Qed.

(** X28. The limiter counts by the [X-API-Key] header whenever the request
    carries a non-empty one, whatever the addresses in the other headers,
    and it does so before knowing whether the key is valid.  So requests
    that each carry a key the table has not seen are all let through,
    however many they are and however small [maxRequests] is. *)
Theorem X28_new_key_new_budget :
  forall (windowMs maxRequests : option Z)
         (requests : list (Auth.jsstring * option Auth.jsstring
                           * option Auth.jsstring * Z))
         (m : Auth.Counters),
    NoDup (map (fun r => fst (fst (fst r))) requests) ->
    (forall r, In r requests ->
               fst (fst (fst r)) <> [] /\ m (fst (fst (fst r))) = None) ->
    forallb Auth.passes
      (fst (Auth.serve windowMs maxRequests
              (map (fun r =>
                      (Auth.client_of (Some (fst (fst (fst r))))
                         (snd (fst (fst r))) (snd (fst r)),
                       snd r))
                 requests) m))
    = true.
Proof.
  intros windowMs maxRequests requests.
  induction requests as [|[[[key ip] fwd] now] requests IH];
    intros m Hnd Hnew; [reflexivity|].
  cbn [map fst snd] in *. inversion Hnd as [|? ? Hkey Hrest]; subst.
  destruct (Hnew (key, ip, fwd, now) (or_introl eq_refl)) as [Hne Hnone].
  cbn [fst snd] in Hne, Hnone.
  assert (Hclient : Auth.client_of (Some key) ip fwd = key).
  { unfold Auth.client_of, Auth.or_else, Auth.present.
    destruct key; [contradiction | reflexivity]. }
  cbn [Auth.serve]. rewrite Hclient. unfold Auth.rateLimit at 1.
  rewrite Hnone. cbv zeta.
  specialize (IH (Auth.set key
                    {| Auth.count := 1;
                       Auth.resetTime := now + Auth.setting 60000 windowMs |}
                    m) Hrest).
  destruct (Auth.serve windowMs maxRequests _ _) as [verdicts m''].
  cbn [fst forallb Auth.passes andb]. apply IH.
  intros r Hr. destruct (Hnew r (or_intror Hr)) as [Hrne Hrnone].
  split; [exact Hrne|]. rewrite set_other; [exact Hrnone|].
  destruct (Auth.units_eqb (fst (fst (fst r))) key) eqn:Heq; [|reflexivity].
  apply units_eqb_eq in Heq. exfalso. apply Hkey. rewrite <- Heq.
  apply (in_map (fun r => fst (fst (fst r)))). exact Hr.
Qed.

(** Three requests from one address, a budget of one, three keys. *)
Lemma X28_witness :
  forallb Auth.passes
    (fst (Auth.serve None (Some 1)
            (map (fun r =>
                    (Auth.client_of (Some (fst (fst (fst r))))
                       (snd (fst (fst r))) (snd (fst r)), snd r))
               rotating_keys)
            Auth.no_counters))
  = true.
Proof.
  apply X28_new_key_new_budget.
  - vm_compute. repeat constructor; simpl; intuition discriminate.
  - intros r Hr. unfold rotating_keys in Hr.
    destruct Hr as [<-|[<-|[<-|[]]]];
      (split; [vm_compute; discriminate | reflexivity]).
Defined.

(* ===================================================================== *)
(** ** The contact list *)
(* ===================================================================== *)

(** X29. [getAllContacts] returns every contact exactly once when the page
    is large enough: with the offset zero or omitted and a limit of at least
    the number of contacts (50 when omitted), the list is a rearrangement of
    the contact table. *)
Theorem X29_getAllContacts_returns_every_contact :
  forall (st : Store) (limit offset : option Z),
    defaulting 0 offset <= 0 ->
    Z.of_nat (List.length (contacts st)) <= defaulting 50 limit ->
    exists people,
      answer (d1_at st) (getAllContacts limit offset) = Ok people
      /\ Permutation people (contacts st).
Proof.
  intros st limit offset Hoffset Hlimit. eexists. split; [reflexivity|].
  cbn [select]. rewrite page_whole.
  - apply order_by_desc_permutation.
  - exact Hoffset.
  - rewrite (Permutation_length (order_by_desc_permutation _ _)).
    exact Hlimit.
Qed.

(** The one contact of scenario A, with the defaults. *)
Lemma X29_witness :
  exists people,
    answer (d1_at store_A) (getAllContacts None None) = Ok people
    /\ Permutation people (contacts store_A).
Proof.
  apply (X29_getAllContacts_returns_every_contact store_A None None).
  - simpl. lia.
  - vm_compute. discriminate.
Defined.
